(** * A sequential model of the LDAP connection pool
    (plugin/auth_ldap/src/pool.cc)

    The pool owns a vector of shared connection handles and a bitmap of slots
    that are lent out.  The handles live in a store and are addressed through
    locations, so that a borrower and the pool can refer to the same object.
    Every member function of [Pool] is a computation in a state monad whose
    failure stands for undefined behaviour of the C++ code (an index out of
    range, a null pointer that is dereferenced). *)

From Stdlib Require Import ZArith Ascii String Floats.SpecFloat.
From stdpp Require Import base option list strings pretty gmap.

Local Open Scope Z_scope.
Local Open Scope nat_scope.

(** ** Text: boost::algorithm::split with boost::is_any_of *)

(** [boost::algorithm::split(out, s, boost::is_any_of(seps))] with the default
    [token_compress_off]: every separator ends a token, tokens may be empty,
    and the empty input gives one empty token. *)
Fixpoint split (is_sep : ascii → bool) (s : string) : list string :=
  match s with
  | EmptyString => [EmptyString]
  | String c s' =>
      if is_sep c then EmptyString :: split is_sep s'
      else match split is_sep s' with
           | t :: ts => String c t :: ts
           | [] => [String c EmptyString]
           end
  end.

Fixpoint is_any_of (seps : string) (c : ascii) : bool :=
  match seps with
  | EmptyString => false
  | String d seps' => if Ascii.eqb c d then true else is_any_of seps' c
  end.

(** The body of the loop of [Pool::reset_group_role_mapping]:
    [r.size() == 1] stores [role] under itself, otherwise [r[0]] maps to
    [r[1]]. *)
Definition add_role (m : gmap string string) (role : string)
  : gmap string string :=
  match split (is_any_of "=") role with
  | [_] => <[role := role]> m
  | r0 :: r1 :: _ => <[r0 := r1]> m
  | [] => m
  end.

(** The mapping that [Pool::reset_group_role_mapping] leaves in
    [group_role_mapping_]: the map is cleared first, then filled entry by
    entry, a later entry overwriting an earlier one with the same group. *)
Definition parse_group_role_mapping (mapping : string) : gmap string string :=
  foldl add_role ∅ (split (is_any_of ",") mapping).


(** ** Machine integers and doubles *)

(** [size_t] values are sizes and indices of containers that exist in memory;
    they are natural numbers.  [int] is a 32-bit signed integer: the
    conversion of a [size_t] to [int] keeps the low 32 bits, and the
    conversion of an [int] back to [size_t] is taken modulo 2^64. *)
Definition int_of_size_t (n : nat) : Z :=
  let r := (Z.of_nat n mod 2 ^ 32)%Z in
  if (r <? 2 ^ 31)%Z then r else (r - 2 ^ 32)%Z.

Definition size_t_of_int (z : Z) : nat := Z.to_nat (z mod 2 ^ 64)%Z.

(** IEEE binary64, with the operations of [SpecFloat]. *)
Definition double := spec_float.
Definition prec64 : Z := 53.
Definition emax64 : Z := 1024.

(** Conversion of a [size_t] to [double] (round to nearest even). *)
Definition double_of_size_t (n : nat) : double :=
  binary_normalize prec64 emax64 (Z.of_nat n) 0 false.

(** The literal [0.9]: the double nearest to nine tenths,
    8106479329266893 * 2^-53. *)
Definition double_0_9 : double := S754_finite false 8106479329266893 (-53).

(** [std::ceil]: the least integral double not below the argument.  A
    finite double with a non-negative exponent is integral already;
    otherwise the mantissa is divided by the power of two, rounding up,
    and the quotient, which has no more bits than the mantissa, is exact
    as a double. *)
Definition std_ceil (x : double) : double :=
  match x with
  | S754_finite s m e =>
      if (0 <=? e)%Z then x
      else
        let v := if s then Z.neg m else Z.pos m in
        let q := (- ((- v) / 2 ^ (- e)))%Z in
        binary_normalize prec64 emax64 q 0 s
  | _ => x
  end.

(** [a >= b] on doubles. *)
Definition double_ge (a b : double) : bool := SFleb b a.

(** The test of [Pool::return_connection]:
    [bs_used_.count() >= std::ceil(pool_max_size_ * 0.9)]. *)
Definition occupancy_high (count max_size : nat) : bool :=
  double_ge (double_of_size_t count)
            (std_ceil (SFmul prec64 emax64 (double_of_size_t max_size) double_0_9)).

(** ** boost::dynamic_bitset and std::vector *)

(** [resize(n)]: new bits are false, a shorter size drops the high bits. *)
Definition bitset_resize (n : nat) (bs : list bool) : list bool :=
  take n bs ++ replicate (n - length bs) false.

(** [all()]: every bit is set (true of the empty bitset). *)
Definition bitset_all (bs : list bool) : bool := forallb id bs.

(** [count()]: the number of bits that are set. *)
Definition bitset_count (bs : list bool) : nat := length (filter (λ b, b = true) bs).

(** [std::vector<std::shared_ptr<T>>::resize(n)]: new elements are null. *)
Definition vector_resize {A} (n : nat) (v : list (option A)) : list (option A) :=
  take n v ++ replicate (n - length v) None.

(** ** The connection handle *)

Inductive status := SUCCESS | FAILURE.

Definition status_eqb (a b : status) : bool :=
  match a, b with
  | SUCCESS, SUCCESS | FAILURE, FAILURE => true
  | _, _ => false
  end.

(** The parameters given to [Connection::configure] and to the constructor
    of [Connection]. *)
Record endpoint := mkEndpoint {
  ep_host : string;
  ep_port : Z;
  ep_fallback_host : string;
  ep_fallback_port : Z;
  ep_use_ssl : bool;
  ep_use_tls : bool;
}.

(** A location of the store of connection objects; a [pool_ptr_t] is a
    [std::shared_ptr<Connection>], [None] being [nullptr]. *)
Abbreviation loc := nat (only parsing).
Abbreviation pool_ptr_t := (option loc) (only parsing).

(** ** The pool object *)

Record Pool := mkPool {
  pool_initial_size_ : nat;
  pool_max_size_ : nat;
  ldap_host_ : string;
  ldap_port_ : Z;
  ldap_fallback_host_ : string;
  ldap_fallback_port_ : Z;
  use_ssl_ : bool;
  use_tls_ : bool;
  ca_path_ : string;
  bind_dn_ : string;
  bind_pwd_ : string;
  bs_used_ : list bool;
  v_connections_ : list pool_ptr_t;
  group_role_mapping_ : gmap string string;
}.

Definition set_bs_used_ (bs : list bool) (p : Pool) : Pool :=
  mkPool (pool_initial_size_ p) (pool_max_size_ p) (ldap_host_ p) (ldap_port_ p)
    (ldap_fallback_host_ p) (ldap_fallback_port_ p) (use_ssl_ p) (use_tls_ p)
    (ca_path_ p) (bind_dn_ p) (bind_pwd_ p) bs (v_connections_ p)
    (group_role_mapping_ p).

Definition set_v_connections_ (v : list pool_ptr_t) (p : Pool) : Pool :=
  mkPool (pool_initial_size_ p) (pool_max_size_ p) (ldap_host_ p) (ldap_port_ p)
    (ldap_fallback_host_ p) (ldap_fallback_port_ p) (use_ssl_ p) (use_tls_ p)
    (ca_path_ p) (bind_dn_ p) (bind_pwd_ p) (bs_used_ p) v
    (group_role_mapping_ p).

Definition set_pool_max_size_ (n : nat) (p : Pool) : Pool :=
  mkPool (pool_initial_size_ p) n (ldap_host_ p) (ldap_port_ p)
    (ldap_fallback_host_ p) (ldap_fallback_port_ p) (use_ssl_ p) (use_tls_ p)
    (ca_path_ p) (bind_dn_ p) (bind_pwd_ p) (bs_used_ p) (v_connections_ p)
    (group_role_mapping_ p).

Definition set_group_role_mapping_ (m : gmap string string) (p : Pool) : Pool :=
  mkPool (pool_initial_size_ p) (pool_max_size_ p) (ldap_host_ p) (ldap_port_ p)
    (ldap_fallback_host_ p) (ldap_fallback_port_ p) (use_ssl_ p) (use_tls_ p)
    (ca_path_ p) (bind_dn_ p) (bind_pwd_ p) (bs_used_ p) (v_connections_ p) m.

(** The assignments of [Pool::reconfigure] to the stored settings. *)
Definition set_settings (initial_size : nat) (ep : endpoint)
    (ca_path bind_dn bind_pwd : string) (p : Pool) : Pool :=
  mkPool initial_size (pool_max_size_ p) (ep_host ep) (ep_port ep)
    (ep_fallback_host ep) (ep_fallback_port ep) (ep_use_ssl ep) (ep_use_tls ep)
    ca_path bind_dn bind_pwd (bs_used_ p) (v_connections_ p)
    (group_role_mapping_ p).

Definition pool_endpoint (p : Pool) : endpoint :=
  mkEndpoint (ldap_host_ p) (ldap_port_ p) (ldap_fallback_host_ p)
    (ldap_fallback_port_ p) (use_ssl_ p) (use_tls_ p).

(** What a member function does to the outside, in the order it does it.
    [ev_bs_set] records a write to the bitmap, so that the order of bitmap
    writes and connect attempts can be read off the trace; [ev_reset] is
    the release of a reference by [reset()]. *)
Inductive event :=
  | log_srv_warn (msg : string)
  | log_srv_error (msg : string)
  | log_srv_dbg (msg : string)
  | ev_thread_zombie_control
  | ev_global_init (reuse : bool) (ca_path : string)
  | ev_connect (l : loc) (st : status)
  | ev_bs_set (idx : nat) (v : bool)
  | ev_reset (p : pool_ptr_t).

Section pool.

(** The state of the directory session that a handle holds (the LDAP handle
    of the client library), the outcome of a bind and the liveness probe
    belong to the protocol layer; the pool is verified for every choice of
    them. *)
Context {Session : Type}.

(** Modelled from the spec: the class [Connection] (connection.cc is not
    part of the sources).  A handle has the index it was constructed with,
    its endpoint parameters, a busy/free status, the one-way snipped flag
    and the state of its directory session. *)
Record Connection := mkConnection {
  idx_pool_ : nat;
  conn_endpoint_ : endpoint;
  is_busy_ : bool;
  snipped_ : bool;
  session_ : Session;
}.

(** The session of a handle that has not connected yet. *)
Variable disconnected : Session.

(** The outcome of [connect(bind_dn, bind_pwd, auth_resp)] on a handle:
    its status and the session it leaves. *)
Variable ldap_bind : Connection → string → string → status * Session.

(** The answer of the liveness probe [is_zombie()] on a handle. *)
Variable zombie_probe : Connection → bool.

(** Modelled from the spec: the constructor of [Connection], which tags the
    handle with its index and leaves it unconnected, free and not snipped. *)
Definition Connection_new (idx : nat) (ep : endpoint) : Connection :=
  mkConnection idx ep false false disconnected.

(** Modelled from the spec: [Connection::configure] replaces the connection
    parameters, without network activity. *)
Definition Connection_configure (ep : endpoint) (c : Connection) : Connection :=
  mkConnection (idx_pool_ c) ep (is_busy_ c) (snipped_ c) (session_ c).

(** Modelled from the spec: [Connection::mark_as_busy] and
    [Connection::mark_as_free] toggle the handle-local status. *)
Definition Connection_mark_as_busy (c : Connection) : Connection :=
  mkConnection (idx_pool_ c) (conn_endpoint_ c) true (snipped_ c) (session_ c).

Definition Connection_mark_as_free (c : Connection) : Connection :=
  mkConnection (idx_pool_ c) (conn_endpoint_ c) false (snipped_ c) (session_ c).

(** Modelled from the spec: [Connection::mark_as_snipped] sets the one-way
    retirement flag, [Connection::is_snipped] reads it. *)
Definition Connection_mark_as_snipped (c : Connection) : Connection :=
  mkConnection (idx_pool_ c) (conn_endpoint_ c) (is_busy_ c) true (session_ c).

Definition Connection_is_snipped (c : Connection) : bool := snipped_ c.

(** Modelled from the spec: [Connection::get_idx_pool] returns the
    immutable slot index. *)
Definition Connection_get_idx_pool (c : Connection) : nat := idx_pool_ c.

(** Modelled from the spec: [Connection::is_zombie] is the liveness probe. *)
Definition Connection_is_zombie (c : Connection) : bool := zombie_probe c.

(** Modelled from the spec: [Connection::connect] performs the bind; only
    the session of the handle changes. *)
Definition Connection_connect (bind_dn bind_pwd : string) (c : Connection)
  : status * Connection :=
  let '(st, s) := ldap_bind c bind_dn bind_pwd in
  (st, mkConnection (idx_pool_ c) (conn_endpoint_ c) (is_busy_ c) (snipped_ c) s).

(** ** The state and the monad of member functions *)

Record World := mkWorld {
  heap : list Connection;
  this : Pool;
  events : list event;
}.

(** A computation either fails ([None]: the C++ code has undefined
    behaviour) or returns a value and the next state. *)
Definition M (A : Type) : Type := World → option (A * World).

#[global] Instance M_ret : MRet M := λ A a w, Some (a, w).
#[global] Instance M_bind : MBind M := λ A B f m w,
  match m w with
  | Some (a, w') => f a w'
  | None => None
  end.

Definition undefined {A} : M A := λ _, None.

Definition get_this : M Pool := λ w, Some (this w, w).

Definition modify_this (f : Pool → Pool) : M unit :=
  λ w, Some ((), mkWorld (heap w) (f (this w)) (events w)).

Definition emit (e : event) : M unit :=
  λ w, Some ((), mkWorld (heap w) (this w) (events w ++ [e])).

(** [*p]: the object a pointer refers to; null and dangling pointers must
    not be dereferenced. *)
Definition deref (p : pool_ptr_t) : M Connection :=
  λ w, match p with
       | Some l => match heap w !! l with
                   | Some c => Some (c, w)
                   | None => None
                   end
       | None => None
       end.

(** [p->f()] for a member function that only changes the object. *)
Definition update (p : pool_ptr_t) (f : Connection → Connection) : M unit :=
  λ w, match p with
       | Some l => match heap w !! l with
                   | Some c => Some ((), mkWorld (<[l := f c]> (heap w)) (this w) (events w))
                   | None => None
                   end
       | None => None
       end.

(** [std::make_shared<Connection>(...)]: a new object at a new location. *)
Definition make_shared (c : Connection) : M pool_ptr_t :=
  λ w, Some (Some (length (heap w)), mkWorld (heap w ++ [c]) (this w) (events w)).

(** [p->connect(bind_dn_, bind_pwd_, auth_resp)]. *)
Definition connect (p : pool_ptr_t) (bind_dn bind_pwd : string) : M status :=
  c ← deref p;
  let '(st, c') := Connection_connect bind_dn bind_pwd c in
  update p (λ _, c');;
  emit (ev_connect (default 0 p) st);;
  mret st.

(** [bs_used_.test(i)] and [bs_used_.set(i, v)]; the position must be
    below the size. *)
Definition bs_test (i : nat) : M bool :=
  λ w, match bs_used_ (this w) !! i with
       | Some b => Some (b, w)
       | None => None
       end.

Definition bs_set (i : nat) (v : bool) : M unit :=
  p ← get_this;
  if decide (i < length (bs_used_ p))
  then modify_this (set_bs_used_ (<[i := v]> (bs_used_ p)));; emit (ev_bs_set i v)
  else undefined.

(** [v_connections_[i]], read and assigned; the index must be below the
    size. *)
Definition vec_at (i : nat) : M pool_ptr_t :=
  λ w, match v_connections_ (this w) !! i with
       | Some p => Some (p, w)
       | None => None
       end.

Definition vec_assign (i : nat) (q : pool_ptr_t) : M unit :=
  p ← get_this;
  if decide (i < length (v_connections_ p))
  then modify_this (set_v_connections_ (<[i := q]> (v_connections_ p)))
  else undefined.

(** [for (std::size_t i = from; i < to; i++) body(i)], unrolled on the
    number of iterations that are left. *)
Fixpoint for_loop (i n : nat) (body : nat → M unit) : M unit :=
  match n with
  | 0 => mret ()
  | S n' => body i;; for_loop (S i) n' body
  end.

Definition for_range (from to : nat) (body : nat → M unit) : M unit :=
  for_loop from (to - from) body.

(** ** The member functions of [Pool] *)

(** requires holding the lock *)
Definition mark_as_busy (idx : nat) : M unit := bs_set idx true.

(** requires holding the lock *)
Definition mark_as_free (idx : nat) : M unit :=
  p ← get_this;
  if decide (idx < length (bs_used_ p)) then bs_set idx false else mret ().

(** The loop of [Pool::find_first_free], at index [i] with [n] iterations
    left; [idx = i] converts the index to [int]. *)
Fixpoint scan_free (i n : nat) : M Z :=
  match n with
  | 0 => mret (-1)%Z
  | S n' =>
      b ← bs_test i;
      if negb b then mret (int_of_size_t i) else scan_free (S i) n'
  end.

Definition find_first_free : M Z :=
  p ← get_this;
  if negb (bitset_all (bs_used_ p))
  then scan_free 0 (pool_max_size_ p)
  else mret (-1)%Z.

Definition get_connection (idx : Z) (default_connect : bool) : M pool_ptr_t :=
  conn ← vec_at (size_t_of_int idx);
  p ← get_this;
  failed ← (if default_connect
            then st ← connect conn (bind_dn_ p) (bind_pwd_ p);
                 mret (negb (status_eqb st SUCCESS))
            else mret false);
  if failed : bool
  then emit (log_srv_error "Connection to LDAP backend failed");; mret None
  else update conn Connection_mark_as_busy;; mret conn.

Definition borrow_connection (default_connect : bool) : M pool_ptr_t :=
  idx ← find_first_free;
  (if (idx =? -1)%Z
   then emit (log_srv_warn "WARNING: No available connections in the pool")
   else mark_as_busy (size_t_of_int idx));;
  if (idx =? -1)%Z
  then emit ev_thread_zombie_control;; mret None
  else
    conn ← get_connection idx default_connect;
    (if conn is None then mark_as_free (size_t_of_int idx) else mret ());;
    mret conn.

(** The line that [Pool::debug_info] builds in its stream; a [std::size_t]
    is written in decimal. *)
Definition debug_text (conn_init conn_max conn_in_use : nat) : string :=
  "conn_init [" +:+ pretty conn_init +:+ "] conn_max [" +:+ pretty conn_max +:+
  "] conn_in_use [" +:+ pretty conn_in_use +:+ "]".

Definition debug_info : M unit :=
  p ← get_this;
  emit (log_srv_dbg (debug_text (pool_initial_size_ p) (pool_max_size_ p)
                       (bitset_count (bs_used_ p)))).

Definition return_connection (conn : pool_ptr_t) : M unit :=
  update conn Connection_mark_as_free;;
  c ← deref conn;
  if Connection_is_snipped c
  then emit (ev_reset conn)
  else
    (let idx := int_of_size_t (Connection_get_idx_pool c) in
     mark_as_free (size_t_of_int idx));;
    p ← get_this;
    if occupancy_high (bitset_count (bs_used_ p)) (pool_max_size_ p)
    then emit ev_thread_zombie_control
    else mret ().

Definition reset_group_role_mapping (mapping : string) : M unit :=
  modify_this (set_group_role_mapping_ (parse_group_role_mapping mapping)).

(** The body of the loop of [Pool::zombie_control]. *)
Definition zombie_control_slot (i : nat) : M unit :=
  used ← bs_test i;
  z ← (if used : bool
       then conn ← vec_at i; c ← deref conn; mret (Connection_is_zombie c)
       else mret false);
  if z : bool
  then conn ← vec_at i;
       update conn Connection_mark_as_free;;
       mark_as_free i
  else mret ().

Definition zombie_control : M unit :=
  p ← get_this;
  for_range 0 (pool_max_size_ p) zombie_control_slot.

(** The loops of [Pool::reconfigure]: a slot beyond the new size is marked
    snipped; a new slot gets a fresh handle; every slot is configured, and
    connected when it is below the initial size; the slots below the new
    initial size are connected once more. *)
Definition snip_slot (i : nat) : M unit :=
  conn ← vec_at i; update conn Connection_mark_as_snipped.

Definition new_slot (ep : endpoint) (i : nat) : M unit :=
  conn ← make_shared (Connection_new i ep); vec_assign i conn.

Definition configure_slot (i : nat) : M unit :=
  p ← get_this;
  conn ← vec_at i;
  update conn (Connection_configure (pool_endpoint p));;
  if decide (i < pool_initial_size_ p)
  then connect conn (bind_dn_ p) (bind_pwd_ p);; mret ()
  else mret ().

Definition connect_slot (i : nat) : M unit :=
  p ← get_this;
  conn ← vec_at i;
  connect conn (bind_dn_ p) (bind_pwd_ p);; mret ().

(** The block [if (newpool_max_size_ != pool_max_size_) { ... }] of
    [Pool::reconfigure]. *)
Definition resize_pool (newpool_max_size_ : nat) (ep : endpoint) : M unit :=
  p ← get_this;
  if decide (newpool_max_size_ ≠ pool_max_size_ p)
  then
    modify_this (λ q, set_bs_used_ (bitset_resize newpool_max_size_ (bs_used_ q)) q);;
    (if decide (newpool_max_size_ < pool_max_size_ p)
     then emit (log_srv_dbg "reducing max pool size");;
          for_range newpool_max_size_ (pool_max_size_ p) snip_slot
     else mret ());;
    modify_this (λ q, set_v_connections_ (vector_resize newpool_max_size_ (v_connections_ q)) q);;
    (if decide (pool_max_size_ p < newpool_max_size_)
     then emit (log_srv_dbg "extending max pool size");;
          for_range (pool_max_size_ p) newpool_max_size_ (new_slot ep)
     else mret ());;
    modify_this (set_pool_max_size_ newpool_max_size_)
  else mret ().

Definition reconfigure (newpool_initial_size_ newpool_max_size_ : nat)
    (ep : endpoint) (ca_path bind_dn bind_pwd : string) : M unit :=
  emit (log_srv_dbg "Pool::reconfigure()");;
  zombie_control;;
  resize_pool newpool_max_size_ ep;;
  modify_this (set_settings newpool_initial_size_ ep ca_path bind_dn bind_pwd);;
  p ← get_this;
  for_range 0 (pool_max_size_ p) configure_slot;;
  for_range 0 newpool_initial_size_ connect_slot.

(** The body of the loop of the constructor. *)
Definition construct_slot (i : nat) : M unit :=
  p ← get_this;
  conn ← make_shared (Connection_new i (pool_endpoint p));
  vec_assign i conn;;
  if decide (i < pool_initial_size_ p)
  then conn ← vec_at i; connect conn (bind_dn_ p) (bind_pwd_ p);; mret ()
  else mret ().

(** The constructor: the member initialisers (the containers start empty),
    then the body. *)
Definition Pool_Pool (pool_initial_size pool_max_size : nat) (ep : endpoint)
    (ca_path bind_dn bind_pwd : string) : M unit :=
  modify_this (λ _,
    mkPool pool_initial_size pool_max_size (ep_host ep) (ep_port ep)
      (ep_fallback_host ep) (ep_fallback_port ep) (ep_use_ssl ep)
      (ep_use_tls ep) ca_path bind_dn bind_pwd [] [] ∅);;
  emit (ev_global_init true ca_path);;
  p ← get_this;
  modify_this (λ q, set_bs_used_ (bitset_resize (pool_max_size_ p) (bs_used_ q)) q);;
  modify_this (λ q, set_v_connections_ (vector_resize (pool_max_size_ p) (v_connections_ q)) q);;
  for_range 0 (pool_max_size_ p) construct_slot.

(** ** Well-formed pools and runs *)

(** What every member function keeps: bitmap and slot vector have
    [pool_max_size_] entries, every slot holds a live handle, and no handle
    sits in two slots. *)
Record pool_wf (w : World) : Prop := {
  wf_used : length (bs_used_ (this w)) = pool_max_size_ (this w);
  wf_slots : length (v_connections_ (this w)) = pool_max_size_ (this w);
  wf_live : ∀ i p, v_connections_ (this w) !! i = Some p →
                   ∃ l, p = Some l ∧ l < length (heap w);
  wf_nodup : NoDup (v_connections_ (this w));
}.

Definition pool_wfb (w : World) : bool :=
  (length (bs_used_ (this w)) =? pool_max_size_ (this w)) &&
  (length (v_connections_ (this w)) =? pool_max_size_ (this w)) &&
  forallb (λ p : pool_ptr_t, match p with
                             | Some l => l <? length (heap w)
                             | None => false
                             end) (v_connections_ (this w)) &&
  bool_decide (NoDup (v_connections_ (this w))).

(** Slot indices fit in an [int]. *)
Definition int_indexable (w : World) : Prop :=
  (Z.of_nat (pool_max_size_ (this w)) ≤ 2 ^ 31)%Z.

(** The sizes that must agree. *)
Definition sized (p : Pool) : Prop :=
  length (bs_used_ p) = pool_max_size_ p ∧
  length (v_connections_ p) = pool_max_size_ p.

(** [i] is the lowest position of [bs] whose bit is false. *)
Definition lowest_free (bs : list bool) (i : nat) : Prop :=
  bs !! i = Some false ∧ ∀ j, j < i → bs !! j = Some true.

(** The state after [mark_as_busy(i)]. *)
Definition marked_busy (w : World) (i : nat) : World :=
  mkWorld (heap w) (set_bs_used_ (<[i := true]> (bs_used_ (this w))) (this w))
    (events w ++ [ev_bs_set i true]).

(** A caller's use of the pool: it borrows, or it returns a handle that
    exists. *)
Inductive op :=
  | op_borrow (default_connect : bool)
  | op_return (l : loc).

Definition run_op (o : op) : M unit :=
  match o with
  | op_borrow dc => borrow_connection dc;; mret ()
  | op_return l => return_connection (Some l)
  end.

Fixpoint run_ops (os : list op) : M unit :=
  match os with
  | [] => mret ()
  | o :: os' => run_op o;; run_ops os'
  end.

Definition op_valid (w : World) (o : op) : Prop :=
  match o with
  | op_borrow _ => True
  | op_return l => l < length (heap w)
  end.

(** The slot [i] of [w] is lent out and its handle answers the probe. *)
Definition reclaimed (w : World) (i : nat) : bool :=
  match bs_used_ (this w) !! i, v_connections_ (this w) !! i with
  | Some true, Some (Some l) =>
      match heap w !! l with
      | Some c => Connection_is_zombie c
      | None => false
      end
  | _, _ => false
  end.

(** From [w] to [w']: the size of the pool and the lengths of its bitmap
    and slot vector are the same, and no handle has disappeared. *)
Definition sizes_kept (w w' : World) : Prop :=
  pool_max_size_ (this w') = pool_max_size_ (this w) ∧
  length (bs_used_ (this w')) = length (bs_used_ (this w)) ∧
  length (v_connections_ (this w')) = length (v_connections_ (this w)) ∧
  length (heap w) ≤ length (heap w').

(** A computation that keeps the sizes whenever it returns. *)
Definition keeps_sizes {A} (m : M A) : Prop :=
  ∀ w a w', m w = Some (a, w') → sizes_kept w w'.

(** A handle keeps its index and its snipped flag. *)
Definition same_id (c c' : Connection) : Prop :=
  idx_pool_ c' = idx_pool_ c ∧ snipped_ c' = snipped_ c.

(** Every handle of [h] is in [h'], related by [R]; no handle is added. *)
Definition heap_rel (R : Connection → Connection → Prop) (h h' : list Connection) : Prop :=
  length h' = length h ∧
  ∀ l c, h !! l = Some c → ∃ c', h' !! l = Some c' ∧ R c c'.

(** The state of the constructor and of the growing branch of
    [resize_pool] when the slots from [from] up to [j] have their new
    handles: the earlier slots are as in [w], and the handles of [w] are
    all there. *)
Definition grown (w : World) (from j : nat) (wj : World) : Prop :=
  (∃ v, this wj = set_v_connections_ v (this w)) ∧
  length (v_connections_ (this wj)) = length (v_connections_ (this w)) ∧
  (∀ i, i < from → v_connections_ (this wj) !! i = v_connections_ (this w) !! i) ∧
  (∀ i, from ≤ i < j →
     v_connections_ (this wj) !! i = Some (Some (length (heap w) + (i - from)))) ∧
  length (heap wj) = length (heap w) + (j - from).

(** The state of the sweep when it has dealt with the slots below [j]. *)
Definition swept (w : World) (j : nat) (wj : World) : Prop :=
  (∃ bs, this wj = set_bs_used_ bs (this w)) ∧
  length (bs_used_ (this wj)) = length (bs_used_ (this w)) ∧
  (∀ i b, bs_used_ (this w) !! i = Some b →
     bs_used_ (this wj) !! i =
       Some (if decide (i < j) then b && negb (reclaimed w i) else b)) ∧
  length (heap wj) = length (heap w) ∧
  (∀ i l c, v_connections_ (this w) !! i = Some (Some l) → heap w !! l = Some c →
     heap wj !! l =
       Some (if decide (i < j)
             then (if reclaimed w i then Connection_mark_as_free c else c)
             else c)) ∧
  (∀ l, Some l ∉ v_connections_ (this w) → heap wj !! l = heap w !! l) ∧
  (∃ evs, events wj = events w ++ evs ∧ ev_thread_zombie_control ∉ evs).

(** The pool object is the same and the handles kept their identity. *)
Definition settled (w w' : World) : Prop :=
  this w' = this w ∧ heap_rel same_id (heap w) (heap w').

(** The state after [v_connections_[j] = std::make_shared<Connection>(...)]. *)
Definition assigned (wj : World) (j : nat) (c : Connection) : World :=
  mkWorld (heap wj ++ [c])
    (set_v_connections_ (<[j := Some (length (heap wj))]> (v_connections_ (this wj)))
       (this wj))
    (events wj).

(** ** Handles in their slots *)

(** Every handle that sits in a slot carries the position of the slot as
    its index and is not snipped. *)
Definition slots_tagged (w : World) : Prop :=
  ∀ i l c, v_connections_ (this w) !! i = Some (Some l) → heap w !! l = Some c →
           idx_pool_ c = i ∧ snipped_ c = false.

(** A handle that was configured and connected: index, snipped flag and
    busy status are kept, the endpoint is kept or has become [ep]. *)
Definition retuned (ep : endpoint) (c c' : Connection) : Prop :=
  idx_pool_ c' = idx_pool_ c ∧ snipped_ c' = snipped_ c ∧ is_busy_ c' = is_busy_ c ∧
  (conn_endpoint_ c' = conn_endpoint_ c ∨ conn_endpoint_ c' = ep).

(** A computation that, whenever it returns, has left the slot vector alone
    and has kept the identity of every handle. *)
Definition keeps_handles {A} (m : M A) : Prop :=
  ∀ w a w', m w = Some (a, w') →
    v_connections_ (this w') = v_connections_ (this w) ∧
    heap_rel same_id (heap w) (heap w').

(** A computation that, whenever it returns, has added to the trace only
    events that satisfy [P]. *)
Definition emits_only (P : event → Prop) {A} (m : M A) : Prop :=
  ∀ w a w', m w = Some (a, w') → ∃ evs, events w' = events w ++ evs ∧ Forall P evs.

(** The handle that the constructor leaves in the slot [i]: a new handle,
    connected once when [i] is below the initial size. *)
Definition constructed (initial_size : nat) (ep : endpoint) (bind_dn bind_pwd : string)
    (i : nat) : Connection :=
  if decide (i < initial_size)
  then (Connection_connect bind_dn bind_pwd (Connection_new i ep)).2
  else Connection_new i ep.

(** The outcome of that connect. *)
Definition constructed_status (ep : endpoint) (bind_dn bind_pwd : string) (i : nat)
  : status :=
  (Connection_connect bind_dn bind_pwd (Connection_new i ep)).1.

(** A caller that borrows [n] times in a row and keeps what it gets, while
    nothing else uses the pool.  A borrow that finds the pool exhausted
    starts a sweep in a thread of its own, which this composition records
    but does not run: what it says of the borrows after such a borrow holds
    only as long as that sweep has not reclaimed a slot. *)
Fixpoint borrow_many (default_connect : bool) (n : nat) : M (list pool_ptr_t) :=
  match n with
  | 0 => mret []
  | S n' =>
      conn ← borrow_connection default_connect;
      rest ← borrow_many default_connect n';
      mret (conn :: rest)
  end.

(** The state of the constructor when the slots below [j] have their
    handles: the new handles follow those of [w0] in the store, the slots
    from [j] on are still null, and the trace has the connect attempts of
    the slots below [j] and below the initial size. *)
Definition constructing (w0 : World) (initial_size max_size : nat) (ep : endpoint)
    (ca_path bind_dn bind_pwd : string) (j : nat) : World :=
  mkWorld
    (heap w0 ++ (constructed initial_size ep bind_dn bind_pwd <$> seq 0 j))
    (mkPool initial_size max_size (ep_host ep) (ep_port ep) (ep_fallback_host ep)
       (ep_fallback_port ep) (ep_use_ssl ep) (ep_use_tls ep) ca_path bind_dn bind_pwd
       (replicate max_size false)
       ((Some <$> seq (length (heap w0)) j) ++ replicate (max_size - j) None) ∅)
    (events w0 ++ ev_global_init true ca_path ::
       ((λ i, ev_connect (length (heap w0) + i) (constructed_status ep bind_dn bind_pwd i))
          <$> seq 0 (initial_size `min` j))).

(** The state of the growing branch of [resize_pool] when the slots from
    the old size up to [j] have their new handles. *)
Definition extending (w : World) (newpool_max_size_ : nat) (ep : endpoint) (j : nat)
  : World :=
  mkWorld
    (heap w ++ ((λ i, Connection_new i ep)
                  <$> seq (pool_max_size_ (this w)) (j - pool_max_size_ (this w))))
    (set_v_connections_
       (v_connections_ (this w) ++
        (Some <$> seq (length (heap w)) (j - pool_max_size_ (this w))) ++
        replicate (newpool_max_size_ - j) None)
       (set_bs_used_
          (bs_used_ (this w) ++
           replicate (newpool_max_size_ - pool_max_size_ (this w)) false)
          (this w)))
    (events w ++ [log_srv_dbg "extending max pool size"]).

(** Every handle that is not snipped sits in the slot that its index
    names. *)
Definition handles_homed (w : World) : Prop :=
  ∀ l c, heap w !! l = Some c → snipped_ c = false →
         v_connections_ (this w) !! idx_pool_ c = Some (Some l).

(** The bit of a slot is set exactly when the handle in the slot is marked
    busy. *)
Definition bits_agree (w : World) : Prop :=
  ∀ i l c, v_connections_ (this w) !! i = Some (Some l) → heap w !! l = Some c →
           bs_used_ (this w) !! i = Some (is_busy_ c).

(** A pool in which the bitmap, the slots and the handles tell the same
    story. *)
Definition pool_consistent (w : World) : Prop :=
  pool_wf w ∧ slots_tagged w ∧ handles_homed w ∧ bits_agree w.

(** The handle in a slot is marked busy. *)
Definition slot_busy (w : World) (q : pool_ptr_t) : bool :=
  match q with
  | Some l => match heap w !! l with
              | Some c => is_busy_ c
              | None => false
              end
  | None => false
  end.

(** The number of slots whose handle is marked busy. *)
Definition busy_handles (w : World) : nat :=
  length (filter (λ q, slot_busy w q = true) (v_connections_ (this w))).

End pool.

(** ** Exact thresholds *)

(** The least integer not below nine tenths of [n]. *)
Definition ceil_nine_tenths (n : nat) : nat := (9 * n + 9) / 10.

(** [d] is the double of the integer [z] in normal form: zero, or a
    positive 53-bit mantissa scaled by a power of two. *)
Definition is_int_double (z : Z) (d : double) : bool :=
  match d with
  | S754_zero _ => (z =? 0)%Z
  | S754_finite false m e =>
      (e <=? 0)%Z && (Z.pos m =? z * 2 ^ (- e))%Z &&
      (2 ^ 52 <=? Z.pos m)%Z && (Z.pos m <? 2 ^ 53)%Z
  | _ => false
  end.

(** The sizes below which the double threshold is the exact one: above
    2^50 the product with [0.9] is rounded on a grid that is too coarse. *)
Definition size_bound : Z := 2 ^ 50.

(** What [shr] has done to the mantissa [P] after [k] single shifts: the
    record holds the quotient, the bit shifted out last and whether
    anything below it was set. *)
Definition shr_inv (P k : Z) (mrs : shr_record) : Prop :=
  (0 <= shr_m mrs)%Z ∧
  ∃ u, (2 * P = (2 * shr_m mrs + Z.b2z (shr_r mrs)) * 2 ^ k + u)%Z ∧
       (0 <= u < 2 ^ k)%Z ∧ (shr_s mrs = true ↔ (0 < u)%Z).

(** ** The group-role list, by fields *)

(** An entry cut at its first separator: the text before it and the text
    after it; [None] when the entry has no separator. *)
Fixpoint cut_first (is_sep : ascii → bool) (s : string) : option (string * string) :=
  match s with
  | EmptyString => None
  | String c s' =>
      if is_sep c then Some (EmptyString, s')
      else match cut_first is_sep s' with
           | Some (a, b) => Some (String c a, b)
           | None => None
           end
  end.

(** The text before the first separator, all of the text when it has
    none. *)
Fixpoint until_sep (is_sep : ascii → bool) (s : string) : string :=
  match s with
  | EmptyString => EmptyString
  | String c s' => if is_sep c then EmptyString else String c (until_sep is_sep s')
  end.

(** The mapping in the words of the specification: an entry is split on
    its first [=] into group and role, a bare entry maps to itself. *)
Definition add_role_first_eq (m : gmap string string) (entry : string)
  : gmap string string :=
  match cut_first (is_any_of "=") entry with
  | None => <[entry := entry]> m
  | Some (group, role) => <[group := role]> m
  end.

Definition mapping_first_eq (mapping : string) : gmap string string :=
  foldl add_role_first_eq ∅ (split (is_any_of ",") mapping).

(** The mapping by fields: the group is the text before the first [=], the
    role is the text between the first [=] and the second one, or the end
    of the entry. *)
Definition add_role_fields (m : gmap string string) (entry : string)
  : gmap string string :=
  match cut_first (is_any_of "=") entry with
  | None => <[entry := entry]> m
  | Some (group, rest) => <[group := until_sep (is_any_of "=") rest]> m
  end.

Definition mapping_fields (mapping : string) : gmap string string :=
  foldl add_role_fields ∅ (split (is_any_of ",") mapping).

(** An entry with at most one [=]. *)
Definition single_eq (entry : string) : Prop :=
  ∀ group rest, cut_first (is_any_of "=") entry = Some (group, rest) →
                cut_first (is_any_of "=") rest = None.

(** ** Small pools *)

(** Pools whose handles carry no session state, with binds that always
    succeed or always fail and probes that always or never find a zombie. *)
Definition ex_endpoint : endpoint := mkEndpoint "ldap1" 389 "ldap2" 636 false true.

Definition ex_conn (idx : nat) (busy snipped : bool) : @Connection unit :=
  mkConnection idx ex_endpoint busy snipped ().

Definition bind_succeeds (c : @Connection unit) (dn pw : string) : status * unit :=
  (SUCCESS, ()).

Definition bind_fails (c : @Connection unit) (dn pw : string) : status * unit :=
  (FAILURE, ()).

Definition probe_dead (c : @Connection unit) : bool := true.

Definition probe_alive (c : @Connection unit) : bool := false.

Definition ex_pool (bs : list bool) (v : list pool_ptr_t) : Pool :=
  mkPool 1 (length v) "ldap1" 389 "ldap2" 636 false true "/etc/ca" "cn=admin" "secret"
    bs v ∅.

(** Three slots, the first and the last lent out. *)
Definition ex_world : @World unit :=
  mkWorld [ex_conn 0 true false; ex_conn 1 false false; ex_conn 2 true false]
    (ex_pool [true; false; true] [Some 0; Some 1; Some 2]) [].

(** Two slots, the first lent out. *)
Definition ex_world2 : @World unit :=
  mkWorld [ex_conn 0 true false; ex_conn 1 false false]
    (ex_pool [true; false] [Some 0; Some 1]) [].

(** One slot, and a lent handle whose slot 1 was cut off by a shrink. *)
Definition ex_world_snipped : @World unit :=
  mkWorld [ex_conn 0 false false; ex_conn 1 true true]
    (ex_pool [false] [Some 0]) [].

(** Ten slots, all of them lent out. *)
Definition ex_world10 : @World unit :=
  mkWorld (map (λ i, ex_conn i true false) (seq 0 10))
    (ex_pool (replicate 10 true) (map Some (seq 0 10))) [].

(** [ex_world] after a borrow that connected: the slot 1 is lent too. *)
Definition ex_world_lent : @World unit :=
  mkWorld [ex_conn 0 true false; ex_conn 1 true false; ex_conn 2 true false]
    (ex_pool [true; true; true] [Some 0; Some 1; Some 2])
    [ev_bs_set 1 true; ev_connect 1 SUCCESS].

(** [ex_world] after the handle of the slot 0 was returned. *)
Definition ex_world_returned : @World unit :=
  mkWorld [ex_conn 0 false false; ex_conn 1 false false; ex_conn 2 true false]
    (ex_pool [false; false; true] [Some 0; Some 1; Some 2])
    [ev_bs_set 0 false].

(** An empty store, before the constructor has run. *)
Definition ex_world0 : @World unit := mkWorld [] (ex_pool [] []) [].

(** ** Traces, free slots and lists of entries *)

Definition is_connect (e : event) : bool :=
  match e with ev_connect _ _ => true | _ => false end.

Definition is_spawn (e : event) : bool :=
  match e with ev_thread_zombie_control => true | _ => false end.

(** The positions of [bs] whose bit is false, in increasing order; [i] is
    the position of the first bit of [bs]. *)
Fixpoint free_from (i : nat) (bs : list bool) : list nat :=
  match bs with
  | [] => []
  | b :: bs' => (if b then [] else [i]) ++ free_from (S i) bs'
  end.

Definition free_slots (bs : list bool) : list nat := free_from 0 bs.

(** The handle in the slot [i], null when there is no such slot. *)
Definition handle_at (p : Pool) (i : nat) : pool_ptr_t :=
  default None (v_connections_ p !! i).

(** A text without separators. *)
Fixpoint sep_free (is_sep : ascii → bool) (s : string) : bool :=
  match s with
  | EmptyString => true
  | String c s' => negb (is_sep c) && sep_free is_sep s'
  end.

(** A group or role that can be written in the list: it has neither a
    comma nor an equals sign. *)
Definition plain (s : string) : bool :=
  sep_free (is_any_of ",") s && sep_free (is_any_of "=") s.

(** The entry [group=role] and the text of a list of entries, separated by
    commas. *)
Definition entry_of (gr : string * string) : string := gr.1 +:+ "=" +:+ gr.2.

Fixpoint mapping_text (entries : list (string * string)) : string :=
  match entries with
  | [] => ""
  | [gr] => entry_of gr
  | gr :: rest => entry_of gr +:+ "," +:+ mapping_text rest
  end.

(** The handles on which a trace records a connect attempt, in order. *)
Definition connect_locs (evs : list event) : list nat :=
  omap (λ e, match e with ev_connect l _ => Some l | _ => None end) evs.

(** * Properties *)

(** ** Integers *)

Lemma int_of_size_t_small (n : nat) :
  (Z.of_nat n < 2 ^ 31)%Z → int_of_size_t n = Z.of_nat n.
Proof.
  intros Hn. unfold int_of_size_t.
  rewrite Z.mod_small by lia.
  destruct (Z.ltb_spec (Z.of_nat n) (2 ^ 31)); lia.
Qed.

Lemma size_t_of_int_nat (n : nat) :
  (Z.of_nat n < 2 ^ 31)%Z → size_t_of_int (Z.of_nat n) = n.
Proof.
  intros Hn. unfold size_t_of_int.
  rewrite Z.mod_small by lia. apply Nat2Z.id.
Qed.

Lemma size_t_of_int_of_size_t (n : nat) :
  (Z.of_nat n < 2 ^ 31)%Z → size_t_of_int (int_of_size_t n) = n.
Proof.
  intros Hn. rewrite int_of_size_t_small by done. by apply size_t_of_int_nat.
Qed.

(** ** Bitmaps *)

Lemma bitset_all_true (bs : list bool) :
  bitset_all bs = true ↔ ∀ i b, bs !! i = Some b → b = true.
Proof.
  unfold bitset_all. induction bs as [|b bs IH]; simpl.
  - split; [intros _ i b Hi; by destruct i | done].
  - rewrite andb_true_iff, IH. split.
    + intros [Hb Hbs] [|i] b'; simpl; [intros [= <-]; by destruct b | eauto].
    + intros H. split; [by rewrite (H 0 b eq_refl) | intros i; apply (H (S i))].
Qed.

Lemma bitset_count_le (bs : list bool) : bitset_count bs ≤ length bs.
Proof. apply length_filter. Qed.

Lemma bitset_count_full (bs : list bool) :
  bitset_count bs = length bs ↔ bitset_all bs = true.
Proof.
  unfold bitset_count, bitset_all. induction bs as [|b bs IH]; [done|].
  destruct b.
  - rewrite filter_cons_True by done. simpl. rewrite <- IH. lia.
  - rewrite filter_cons_False by done.
    pose proof (length_filter (λ b, b = true) bs). simpl. split; [lia | done].
Qed.

Lemma length_bitset_resize n bs : length (bitset_resize n bs) = n.
Proof.
  unfold bitset_resize. rewrite length_app, length_take, length_replicate. lia.
Qed.

Lemma length_vector_resize {A} n (v : list (option A)) :
  length (vector_resize n v) = n.
Proof.
  unfold vector_resize. rewrite length_app, length_take, length_replicate. lia.
Qed.

Lemma bitset_resize_shrink n bs : n ≤ length bs → bitset_resize n bs = take n bs.
Proof.
  intros Hn. unfold bitset_resize.
  replace (n - length bs) with 0 by lia. apply app_nil_r.
Qed.

Lemma vector_resize_shrink {A} n (v : list (option A)) :
  n ≤ length v → vector_resize n v = take n v.
Proof.
  intros Hn. unfold vector_resize.
  replace (n - length v) with 0 by lia. apply app_nil_r.
Qed.

(** ** Doubles *)

Lemma ceil_nine_tenths_spec (n k : nat) : ceil_nine_tenths n ≤ k ↔ 9 * n ≤ 10 * k.
Proof.
  unfold ceil_nine_tenths.
  pose proof (Nat.div_mod (9 * n + 9) 10 ltac:(lia)).
  pose proof (Nat.mod_upper_bound (9 * n + 9) 10 ltac:(lia)).
  lia.
Qed.

Lemma SFleb_int_double (a b : Z) (d1 d2 : double) :
  is_int_double a d1 = true → is_int_double b d2 = true →
  SFleb d2 d1 = (b <=? a)%Z.
Proof.
  unfold is_int_double, SFleb, SFcompare.
  destruct d1 as [s1| | |[] m1 e1], d2 as [s2| | |[] m2 e2]; try done.
  - intros ->%Z.eqb_eq ->%Z.eqb_eq. done.
  - intros ->%Z.eqb_eq. rewrite !andb_true_iff, Z.eqb_eq, !Z.leb_le, Z.ltb_lt.
    intros [[[He Hm] Hlo] Hhi].
    assert (0 < 2 ^ (- e2))%Z by (apply Z.pow_pos_nonneg; lia).
    symmetry. apply Z.leb_gt. nia.
  - rewrite !andb_true_iff, Z.eqb_eq, !Z.leb_le, Z.ltb_lt.
    intros [[[He Hm] Hlo] Hhi] ->%Z.eqb_eq.
    assert (0 < 2 ^ (- e1))%Z by (apply Z.pow_pos_nonneg; lia).
    symmetry. apply Z.leb_le. nia.
  - rewrite !andb_true_iff, !Z.eqb_eq, !Z.leb_le, !Z.ltb_lt.
    intros [[[He1 Hm1] Hlo1] Hhi1] [[[He2 Hm2] Hlo2] Hhi2].
    assert (0 < 2 ^ (- e1))%Z as Hp1 by (apply Z.pow_pos_nonneg; lia).
    assert (0 < 2 ^ (- e2))%Z as Hp2 by (apply Z.pow_pos_nonneg; lia).
    destruct (Z.compare_spec e2 e1) as [->|Hlt|Hgt].
    + rewrite Pos.compare_cont_spec. simpl.
      change ((m2 ?= m1)%positive) with (Z.pos m2 ?= Z.pos m1)%Z.
      destruct (Z.compare_spec (Z.pos m2) (Z.pos m1)); symmetry;
        [apply Z.leb_le | apply Z.leb_le | apply Z.leb_gt]; nia.
    + symmetry. apply Z.leb_le.
      replace (- e2)%Z with (- e1 + (e1 - e2))%Z in * by lia.
      rewrite Z.pow_add_r in * by lia.
      assert (2 ^ 1 <= 2 ^ (e1 - e2))%Z by (apply Z.pow_le_mono_r; lia).
      change (2 ^ 1)%Z with 2%Z in *.
      assert (0 < b)%Z by nia.
      destruct (Z.le_gt_cases b a) as [|Hba]; [done|exfalso].
      assert (a * 2 ^ (- e1) * 2 <= b * (2 ^ (- e1) * 2 ^ (e1 - e2)))%Z by nia.
      lia.
    + symmetry. apply Z.leb_gt.
      replace (- e1)%Z with (- e2 + (e2 - e1))%Z in * by lia.
      rewrite Z.pow_add_r in * by lia.
      assert (2 ^ 1 <= 2 ^ (e2 - e1))%Z by (apply Z.pow_le_mono_r; lia).
      change (2 ^ 1)%Z with 2%Z in *.
      assert (0 < a)%Z by nia.
      destruct (Z.lt_ge_cases a b) as [|Hba]; [done|exfalso].
      assert (b * 2 ^ (- e2) * 2 <= a * (2 ^ (- e2) * 2 ^ (e2 - e1)))%Z by nia.
      lia.
Qed.

Section doubles.
Local Open Scope Z_scope.

(** The number of binary digits. *)
Lemma digits2_pos_bounds (p : positive) :
  2 ^ (Z.pos (digits2_pos p) - 1) <= Z.pos p < 2 ^ Z.pos (digits2_pos p).
Proof.
  induction p as [p IH|p IH|]; simpl digits2_pos.
  - rewrite Pos2Z.inj_succ. replace (Z.succ (Z.pos (digits2_pos p)) - 1) with (Z.succ (Z.pos (digits2_pos p) - 1)) by lia.
    rewrite !Z.pow_succ_r by lia. lia.
  - rewrite Pos2Z.inj_succ. replace (Z.succ (Z.pos (digits2_pos p)) - 1) with (Z.succ (Z.pos (digits2_pos p) - 1)) by lia.
    rewrite !Z.pow_succ_r by lia. lia.
  - simpl. lia.
Qed.

Lemma digits2_pos_unique (p : positive) (d : Z) :
  2 ^ (d - 1) <= Z.pos p < 2 ^ d → Z.pos (digits2_pos p) = d.
Proof.
  intros [Hlo Hhi]. pose proof (digits2_pos_bounds p) as [Hlo' Hhi'].
  assert (0 < d) as Hd.
  { destruct (Z.lt_ge_cases 0 d) as [|Hle]; [done|].
    assert (2 ^ d <= 2 ^ 0) by (destruct (Z.eq_dec d 0) as [->|]; [lia|]; rewrite Z.pow_neg_r by lia; lia).
    simpl in *. lia. }
  destruct (Z.lt_trichotomy (Z.pos (digits2_pos p)) d) as [Hlt|[Heq|Hgt]]; [|done|].
  - assert (2 ^ Z.pos (digits2_pos p) <= 2 ^ (d - 1)) by (apply Z.pow_le_mono_r; lia). lia.
  - assert (2 ^ d <= 2 ^ (Z.pos (digits2_pos p) - 1)) by (apply Z.pow_le_mono_r; lia). lia.
Qed.

(** Shifting right with a round bit and a sticky bit. *)
Lemma shr_inv_start (P : Z) : 0 <= P → shr_inv P 0 (Build_shr_record P false false).
Proof.
  intros HP. split; [done|]. exists 0. simpl.
  split; [lia|]. split; [lia|]. split; [done | lia].
Qed.

Lemma shr_inv_half (P k m' : Z) (b r s : bool) u :
  0 <= k → 0 <= m' →
  2 * P = (2 * (2 * m' + Z.b2z b) + Z.b2z r) * 2 ^ k + u →
  0 <= u < 2 ^ k → (s = true ↔ 0 < u) →
  shr_inv P (k + 1) (Build_shr_record m' b (r || s)).
Proof.
  intros Hk Hm HP Hu Hs.
  assert (0 < 2 ^ k) as Hpow by (apply Z.pow_pos_nonneg; lia).
  split; [done|]. exists (Z.b2z r * 2 ^ k + u). simpl.
  rewrite Z.pow_add_r, Z.pow_1_r by lia.
  split; [lia|]. split; [destruct r; simpl; lia|].
  rewrite orb_true_iff, Hs. destruct r; simpl.
  - split; [lia | intros _; by left].
  - split; [intros [?|?]; [done | lia] | intros ?; right; lia].
Qed.

Lemma shr_1_inv (P k : Z) mrs : 0 <= k → shr_inv P k mrs → shr_inv P (k + 1) (shr_1 mrs).
Proof.
  intros Hk [Hm (u & HP & Hu & Hs)].
  destruct mrs as [m r s]. simpl in *.
  destruct m as [|[p|p|]|p]; try lia.
  - apply (shr_inv_half P k 0 false r s u); simpl; try done; lia.
  - apply (shr_inv_half P k (Z.pos p) true r s u); simpl; try done; lia.
  - apply (shr_inv_half P k (Z.pos p) false r s u); simpl; try done; lia.
  - apply (shr_inv_half P k 0 true r s u); simpl; try done; lia.
Qed.

Lemma iter_shr_1_inv (P : Z) (p : positive) :
  ∀ k mrs, 0 <= k → shr_inv P k mrs → shr_inv P (k + Z.pos p) (SpecFloat.iter_pos shr_1 p mrs).
Proof.
  induction p as [p IH|p IH|]; intros k mrs Hk Hinv; simpl.
  - replace (k + Z.pos p~1) with (k + 1 + Z.pos p + Z.pos p) by lia.
    apply IH; [lia|]. apply IH; [lia|]. by apply shr_1_inv.
  - replace (k + Z.pos p~0) with (k + Z.pos p + Z.pos p) by lia.
    apply IH; [lia|]. by apply IH.
  - by apply shr_1_inv.
Qed.

(** Rounding to nearest even moves the mantissa by at most half a unit. *)
Lemma round_nearest_even_inv (P k : Z) mrs :
  0 <= k → shr_inv P k mrs →
  let m2 := round_nearest_even (shr_m mrs) (loc_of_shr_record mrs) in
  shr_m mrs <= m2 <= shr_m mrs + 1 ∧
  - 2 ^ k <= 2 * m2 * 2 ^ k - 2 * P <= 2 ^ k.
Proof.
  intros Hk [Hm (u & HP & Hu & Hs)].
  assert (0 < 2 ^ k) as Hpow by (apply Z.pow_pos_nonneg; lia).
  destruct mrs as [m [|] [|]]; simpl in *.
  - assert (0 < u) by by apply Hs. lia.
  - assert (¬ 0 < u) by (intros ?%Hs; done). destruct (Z.even m); lia.
  - assert (0 < u) by by apply Hs. lia.
  - assert (¬ 0 < u) by (intros ?%Hs; done). lia.
Qed.

Lemma fexp64 (x : Z) : -1074 <= x - 53 → fexp prec64 emax64 x = x - 53.
Proof. unfold fexp, emin, prec64, emax64. lia. Qed.

(** The first shift of [binary_round_aux] on a mantissa of more than 53
    bits, followed by the rounding. *)
Lemma shr_fexp_round (P : positive) (E : Z) :
  let D := Z.pos (digits2_pos P) in
  53 < D → -1074 <= D + E - 53 →
  ∃ mrs, shr_fexp prec64 emax64 (Z.pos P) E loc_Exact = (mrs, E + (D - 53)) ∧
         let m2 := round_nearest_even (shr_m mrs) (loc_of_shr_record mrs) in
         2 ^ 52 <= m2 <= 2 ^ 53 ∧
         - 2 ^ (D - 53) <= 2 * m2 * 2 ^ (D - 53) - 2 * Z.pos P <= 2 ^ (D - 53).
Proof.
  pose proof (digits2_pos_bounds P) as [Hlo Hhi].
  intros D HD HE. change (Z.pos (digits2_pos P)) with D in Hlo, Hhi.
  unfold shr_fexp. simpl Zdigits2.
  change (Z.pos (digits2_pos P)) with D. clearbody D.
  rewrite fexp64 by lia.
  replace (D + E - 53 - E) with (D - 53) by lia.
  destruct (D - 53) as [|k|k] eqn:Hk; try lia.
  unfold shr. eexists. split; [done|].
  pose proof (iter_shr_1_inv (Z.pos P) k 0 (Build_shr_record (Z.pos P) false false)
                (Z.le_refl 0) (shr_inv_start _ (Pos2Z.is_nonneg P))) as Hinv.
  rewrite Z.add_0_l in Hinv. simpl shr_record_of_loc.
  pose proof (round_nearest_even_inv _ _ _ (Pos2Z.is_nonneg k) Hinv) as [Hm2 Herr].
  split; [|done].
  destruct Hinv as [Hm (u & HP & Hu & _)].
  assert (0 < 2 ^ Z.pos k) as Hpow by (apply Z.pow_pos_nonneg; lia).
  replace D with (53 + Z.pos k) in Hhi by lia.
  replace (D - 1) with (52 + Z.pos k) in Hlo by lia.
  rewrite Z.pow_add_r in Hlo, Hhi by lia.
  set (m1 := shr_m _) in *. set (r := shr_r _) in *.
  assert (2 ^ 52 <= m1 < 2 ^ 53); [|lia].
  destruct r; simpl in HP; nia.
Qed.

(** The second shift of [binary_round_aux]: the rounded mantissa has 53
    bits, or is 2^53 and is halved. *)
Lemma shr_fexp_normal (m2 e' : Z) :
  2 ^ 52 <= m2 <= 2 ^ 53 → -1074 <= e' →
  ∃ m e, shr_fexp prec64 emax64 m2 e' loc_Exact = (Build_shr_record (Z.pos m) false false, e) ∧
         2 ^ 52 <= Z.pos m < 2 ^ 53 ∧ e' <= e <= e' + 1 ∧
         Z.pos m * 2 ^ (e - e') = m2.
Proof.
  intros Hm2 He. destruct m2 as [|q|q]; try lia.
  destruct (Z.eq_dec (Z.pos q) (2 ^ 53)) as [Heq|Hne].
  - assert (Z.pos (digits2_pos q) = 54) as Hd by (apply digits2_pos_unique; lia).
    unfold shr_fexp. simpl Zdigits2. rewrite Hd.
    rewrite fexp64 by lia. replace (54 + e' - 53 - e') with 1 by lia.
    destruct q as [p|p|]; try lia.
    exists p, (e' + 1). simpl.
    split; [done|]. split; [lia|]. split; [lia|].
    replace (e' + 1 - e') with 1 by lia. lia.
  - assert (Z.pos (digits2_pos q) = 53) as Hd by (apply digits2_pos_unique; lia).
    unfold shr_fexp. simpl Zdigits2. rewrite Hd.
    rewrite fexp64 by lia. replace (53 + e' - 53 - e') with 0 by lia.
    exists q, e'. simpl. split; [done|]. split; [lia|]. split; [lia|].
    rewrite Z.sub_diag. simpl. lia.
Qed.

(** Rounding a positive mantissa of more than 53 bits: the result is a
    normal double within half a unit in the last place of the exact
    value. *)
Lemma binary_round_aux_nearest (P : positive) (E : Z) :
  let D := Z.pos (digits2_pos P) in
  53 < D → -1074 <= D + E - 53 → E + (D - 53) + 1 <= 971 →
  ∃ m e, binary_round_aux prec64 emax64 false (Z.pos P) E loc_Exact = S754_finite false m e ∧
         2 ^ 52 <= Z.pos m < 2 ^ 53 ∧
         E + (D - 53) <= e <= E + (D - 53) + 1 ∧
         - 2 ^ (D - 53) <=
           2 * (Z.pos m * 2 ^ (e - (E + (D - 53)))) * 2 ^ (D - 53) - 2 * Z.pos P <=
           2 ^ (D - 53).
Proof.
  intros D HD HE Hmax.
  destruct (shr_fexp_round P E HD HE) as (mrs & Hshr & Hm2 & Herr).
  fold D in Hshr, Herr.
  destruct (shr_fexp_normal _ (E + (D - 53)) Hm2 ltac:(lia)) as (m & e & Hshr2 & Hm & He & Hval).
  exists m, e. unfold binary_round_aux. rewrite Hshr, Hshr2. simpl shr_m.
  assert ((e <=? emax64 - prec64) = true) as -> by (apply Z.leb_le; unfold emax64, prec64; lia).
  split; [done|]. split; [done|]. split; [done|]. by rewrite Hval.
Qed.

Lemma pos_iter_xO (p k : positive) : Z.pos (Pos.iter xO p k) = Z.pos p * 2 ^ Z.pos k.
Proof.
  induction k as [|k IH] using Pos.peano_ind.
  - simpl. lia.
  - rewrite Pos.iter_succ, Pos2Z.inj_succ, Z.pow_succ_r by lia.
    rewrite Pos2Z.inj_xO, IH. lia.
Qed.

(** An integer of at most 53 bits converts to its normal form exactly. *)
Lemma binary_normalize_int (z : Z) :
  0 < z < 2 ^ 53 → is_int_double z (binary_normalize prec64 emax64 z 0 false) = true.
Proof.
  intros Hz. destruct z as [|p|p]; try lia. simpl binary_normalize.
  pose proof (digits2_pos_bounds p) as [Hlo Hhi].
  set (d := Z.pos (digits2_pos p)) in *.
  assert (1 <= d <= 53) as Hd.
  { split; [unfold d; lia|].
    destruct (Z.le_gt_cases d 53) as [|Hgt]; [done|].
    assert (2 ^ 53 <= 2 ^ (d - 1)) by (apply Z.pow_le_mono_r; lia). lia. }
  unfold binary_round. fold d. rewrite Z.add_0_r, fexp64 by lia.
  assert (∃ mz, shl_align p 0 (d - 53) = (mz, d - 53) ∧ Z.pos mz = Z.pos p * 2 ^ (53 - d))
    as (mz & -> & Hmz).
  { unfold shl_align. rewrite Z.sub_0_r.
    destruct (d - 53) as [|k|k] eqn:Hk; try lia.
    - exists p. split; [done|]. replace (53 - d) with 0 by lia. simpl. lia.
    - exists (Pos.iter xO p k). split; [done|]. rewrite pos_iter_xO. f_equal. f_equal. lia. }
  assert (2 ^ 52 <= Z.pos mz < 2 ^ 53) as Hbits.
  { assert (2 ^ 52 = 2 ^ (d - 1) * 2 ^ (53 - d)) as H52
      by (rewrite <- Z.pow_add_r by lia; f_equal; lia).
    assert (2 ^ 53 = 2 ^ d * 2 ^ (53 - d)) as H53
      by (rewrite <- Z.pow_add_r by lia; f_equal; lia).
    assert (0 < 2 ^ (53 - d)) by (apply Z.pow_pos_nonneg; lia).
    rewrite Hmz, H52, H53. nia. }
  unfold binary_round_aux.
  destruct (shr_fexp_normal (Z.pos mz) (d - 53) ltac:(lia) ltac:(lia))
    as (m & e & Hshr & Hm & He & Hval).
  assert (e = d - 53) as ->.
  { destruct (Z.eq_dec e (d - 53)) as [|Hne]; [done|].
    replace (e - (d - 53)) with 1 in Hval by lia. lia. }
  rewrite Z.sub_diag, Z.mul_1_r in Hval. injection Hval as ->.
  rewrite Hshr. simpl. rewrite Hshr. simpl.
  assert ((d - 53 <=? emax64 - prec64) = true) as -> by (apply Z.leb_le; unfold emax64, prec64; lia).
  unfold is_int_double. rewrite !andb_true_iff, Z.eqb_eq, !Z.leb_le, Z.ltb_lt.
  replace (- (d - 53)) with (53 - d) by lia. lia.
Qed.

Lemma ceil_div_unique (x G T : Z) :
  0 < G → (T - 1) * G < x <= T * G → - ((- x) / G) = T.
Proof.
  intros HG Hx.
  rewrite <- (Z.div_unique_pos (- x) G (- T) (T * G - x)); lia.
Qed.

(** The double [std::ceil(n * 0.9)] is the integer ceiling of nine tenths
    of [n], for every [n] below 2^50. *)
Lemma ceil_mul_0_9 (n : Z) :
  0 < n < 2 ^ 50 →
  is_int_double ((9 * n + 9) / 10)
    (std_ceil (SFmul prec64 emax64 (binary_normalize prec64 emax64 n 0 false) double_0_9))
  = true.
Proof.
  intros Hn.
  pose proof (binary_normalize_int n ltac:(lia)) as Hx.
  destruct (binary_normalize prec64 emax64 n 0 false) as [s| | |[|] mx ex]; try done.
  { apply Z.eqb_eq in Hx. lia. }
  unfold is_int_double in Hx.
  rewrite !andb_true_iff, Z.eqb_eq, !Z.leb_le, Z.ltb_lt in Hx.
  destruct Hx as [[[Hex Hmx] Hlo] Hhi].
  set (a := - ex) in *.
  assert (0 < 2 ^ a) as HA by (apply Z.pow_pos_nonneg; lia).
  assert (3 <= a) as Ha3.
  { destruct (Z.le_gt_cases 3 a) as [|Hlt]; [done|].
    assert (2 ^ a <= 2 ^ 2) by (apply Z.pow_le_mono_r; lia). nia. }
  assert (2 ^ 3 <= 2 ^ a) as HA8 by (apply Z.pow_le_mono_r; lia).
  unfold SFmul, double_0_9. simpl xorb.
  set (P := (mx * 8106479329266893)%positive).
  assert (Z.pos P = Z.pos mx * 8106479329266893) as HP by (unfold P; lia).
  pose proof (digits2_pos_bounds P) as [HDlo HDhi].
  set (D := Z.pos (digits2_pos P)) in *.
  assert (105 <= D <= 106) as HD.
  { split.
    - destruct (Z.le_gt_cases 105 D) as [|Hlt]; [done|].
      assert (2 ^ D <= 2 ^ 104) by (apply Z.pow_le_mono_r; lia). lia.
    - destruct (Z.le_gt_cases D 106) as [|Hgt]; [done|].
      assert (2 ^ 106 <= 2 ^ (D - 1)) by (apply Z.pow_le_mono_r; lia). lia. }
  assert (a <= 52) as Ha52.
  { destruct (Z.le_gt_cases a 52) as [|Hgt]; [done|].
    assert (2 ^ 53 <= 2 ^ a) by (apply Z.pow_le_mono_r; lia). nia. }
  destruct (binary_round_aux_nearest P (ex + -53)) as (m & e & -> & Hm & He & Herr);
    fold D; try lia.
  fold D in He, Herr.
  set (e1 := ex + -53 + (D - 53)) in *.
  set (U := 2 ^ (D - 53)) in *.
  set (G := 2 ^ (- e1)).
  assert (0 < U) as HU by (apply Z.pow_pos_nonneg; lia).
  assert (2 ^ 52 <= U <= 2 ^ 53) as HUb.
  { split; apply Z.pow_le_mono_r; lia. }
  assert (0 < G) as HG by (apply Z.pow_pos_nonneg; lia).
  assert (G * U = 2 ^ a * 2 ^ 53) as HGU.
  { unfold G, U. rewrite <- !Z.pow_add_r by lia. f_equal. lia. }
  set (T := (9 * n + 9) / 10).
  assert (9 * n <= 10 * T <= 9 * n + 9) as HT.
  { unfold T. pose proof (Z.div_mod (9 * n + 9) 10 ltac:(lia)).
    pose proof (Z.mod_pos_bound (9 * n + 9) 10 ltac:(lia)). lia. }
  set (m2 := Z.pos m * 2 ^ (e - e1)) in *.
  (* the rounded mantissa lies in ((T-1) G, T G] *)
  assert ((T - 1) * G < m2 <= T * G) as Hm2.
  { assert (m2 * U < (T * G + 1) * U ∧ (T - 1) * G * U < m2 * U) as [H1 H2].
    { replace ((T * G + 1) * U) with (T * (G * U) + U) by ring.
      replace ((T - 1) * G * U) with ((T - 1) * (G * U)) by ring.
      assert (9 * (n * 2 ^ a) <= 10 * (T * 2 ^ a) <= 9 * (n * 2 ^ a) + 9 * 2 ^ a)
        as HTA by (clear - HT HA; nia).
      rewrite HGU. rewrite HP, Hmx in Herr. rewrite Hmx in Hhi. lia. }
    split.
    - apply Z.mul_lt_mono_pos_r in H2; done.
    - apply Z.mul_lt_mono_pos_r in H1; [lia | done]. }
  unfold std_ceil.
  assert ((0 <=? e) = false) as -> by (apply Z.leb_gt; lia).
  assert (- (- Z.pos m / 2 ^ (- e)) = T) as ->.
  { apply ceil_div_unique; [apply Z.pow_pos_nonneg; lia|].
    destruct (Z.eq_dec e e1) as [->|Hne].
    - unfold m2 in Hm2. rewrite Z.sub_diag, Z.mul_1_r in Hm2. done.
    - assert (e = e1 + 1) as -> by lia.
      unfold m2 in Hm2. replace (e1 + 1 - e1) with 1 in Hm2 by lia.
      unfold G in Hm2. replace (- e1) with (- (e1 + 1) + 1) in Hm2 by lia.
      rewrite Z.pow_add_r in Hm2 by lia.
      change (2 ^ 1) with 2 in Hm2. lia. }
  apply binary_normalize_int. lia.
Qed.

End doubles.

(** Below [size_bound], the test of [return_connection] on doubles is the
    comparison with the exact ceiling of nine tenths of the size. *)
Lemma occupancy_high_exact (count max_size : nat) :
  count ≤ max_size → (Z.of_nat max_size < size_bound)%Z →
  occupancy_high count max_size = true ↔ ceil_nine_tenths max_size ≤ count.
Proof.
  unfold size_bound. intros Hc Hm.
  assert (∀ n : nat, (Z.of_nat n < 2 ^ 50)%Z →
            is_int_double (Z.of_nat n) (double_of_size_t n) = true) as Hconv.
  { intros n Hn. unfold double_of_size_t. destruct n as [|n]; [done|].
    apply binary_normalize_int. lia. }
  assert (is_int_double ((9 * Z.of_nat max_size + 9) / 10)
            (std_ceil (SFmul prec64 emax64 (double_of_size_t max_size) double_0_9))
          = true) as Hthr.
  { unfold double_of_size_t. destruct max_size as [|n]; [done|].
    apply ceil_mul_0_9. lia. }
  unfold occupancy_high, double_ge.
  rewrite (SFleb_int_double _ _ _ _ (Hconv count ltac:(lia)) Hthr), Z.leb_le.
  unfold ceil_nine_tenths.
  rewrite (Nat2Z.inj_le ((9 * max_size + 9) / 10) count).
  by rewrite Nat2Z.inj_div, Nat2Z.inj_add, Nat2Z.inj_mul.
Qed.

(** ** Splitting text *)

Lemma split_cut_none is_sep s : cut_first is_sep s = None → split is_sep s = [s].
Proof.
  induction s as [|c s IH]; simpl; [done|].
  destruct (is_sep c); [done|].
  destruct (cut_first is_sep s) as [[a b]|]; [done|].
  intros _. by rewrite IH.
Qed.

Lemma split_cut_some is_sep s a b :
  cut_first is_sep s = Some (a, b) → split is_sep s = a :: split is_sep b.
Proof.
  revert a. induction s as [|c s IH]; intros a; simpl; [done|].
  destruct (is_sep c); [by intros [= <- <-]|].
  destruct (cut_first is_sep s) as [[a' b']|]; [|done].
  intros [= <- <-]. by rewrite (IH a').
Qed.

Lemma split_head is_sep s : ∃ ts, split is_sep s = until_sep is_sep s :: ts.
Proof.
  induction s as [|c s [ts IH]]; simpl; [by eexists|].
  destruct (is_sep c); [by eexists|]. rewrite IH. by eexists.
Qed.

Lemma until_sep_cut_none is_sep s : cut_first is_sep s = None → until_sep is_sep s = s.
Proof.
  induction s as [|c s IH]; simpl; [done|].
  destruct (is_sep c); [done|].
  destruct (cut_first is_sep s) as [[a b]|]; [done|].
  intros _. by rewrite IH.
Qed.

Lemma add_role_by_fields m entry : add_role m entry = add_role_fields m entry.
Proof.
  unfold add_role, add_role_fields.
  destruct (cut_first (is_any_of "=") entry) as [[g rest]|] eqn:Hcut.
  - rewrite (split_cut_some _ _ _ _ Hcut).
    by destruct (split_head (is_any_of "=") rest) as [ts ->].
  - by rewrite (split_cut_none _ _ Hcut).
Qed.

Lemma parse_group_role_mapping_fields mapping :
  parse_group_role_mapping mapping = mapping_fields mapping.
Proof.
  unfold parse_group_role_mapping, mapping_fields.
  generalize (∅ : gmap string string).
  induction (split (is_any_of ",") mapping) as [|e es IH]; intros m; simpl; [done|].
  by rewrite add_role_by_fields, IH.
Qed.

Lemma mapping_fields_single_eq mapping :
  Forall single_eq (split (is_any_of ",") mapping) →
  mapping_fields mapping = mapping_first_eq mapping.
Proof.
  unfold mapping_fields, mapping_first_eq.
  generalize (∅ : gmap string string).
  induction (split (is_any_of ",") mapping) as [|e es IH]; intros m Hall; simpl; [done|].
  apply Forall_cons in Hall as [He Hes].
  rewrite IH by done. f_equal.
  unfold add_role_fields, add_role_first_eq.
  destruct (cut_first (is_any_of "=") e) as [[g rest]|] eqn:Hcut; [|done].
  by rewrite (until_sep_cut_none _ _ (He _ _ Hcut)).
Qed.

Create HintDb keeps discriminated.

(** ** Counting bits and listing free slots *)

Lemma bitset_count_cons b bs :
  bitset_count (b :: bs) = (if b then 1 else 0) + bitset_count bs.
Proof.
  unfold bitset_count. destruct b.
  - by rewrite filter_cons_True.
  - by rewrite filter_cons_False.
Qed.

Lemma bitset_count_set bs i :
  bs !! i = Some false → bitset_count (<[i := true]> bs) = S (bitset_count bs).
Proof.
  revert i. induction bs as [|b bs IH]; intros [|i]; simpl; try done.
  - intros [= ->]. by rewrite !bitset_count_cons.
  - intros Hi. rewrite !bitset_count_cons, IH by done. lia.
Qed.

Lemma bitset_count_clear bs i :
  bs !! i = Some true → S (bitset_count (<[i := false]> bs)) = bitset_count bs.
Proof.
  revert i. induction bs as [|b bs IH]; intros [|i]; simpl; try done.
  - intros [= ->]. by rewrite !bitset_count_cons.
  - intros Hi. rewrite !bitset_count_cons, <- (IH i) by done. lia.
Qed.

(** A bitmap whose set bits were all set in another one does not count
    more. *)
Lemma bitset_count_mono bs bs' :
  length bs' = length bs →
  (∀ i, bs' !! i = Some true → bs !! i = Some true) →
  bitset_count bs' ≤ bitset_count bs.
Proof.
  revert bs'. induction bs as [|b bs IH]; intros [|b' bs'] Hlen Himp; try done.
  rewrite !bitset_count_cons.
  assert (bitset_count bs' ≤ bitset_count bs) as Hle.
  { apply IH; [by injection Hlen|]. intros i Hi. by apply (Himp (S i)). }
  destruct b'; [|lia].
  specialize (Himp 0 eq_refl). injection Himp as ->. lia.
Qed.

Lemma free_from_full k bs : bitset_all bs = true → free_from k bs = [].
Proof.
  unfold bitset_all. revert k. induction bs as [|b bs IH]; intros k; simpl; [done|].
  destruct b; simpl; [|done]. intros H. by apply IH.
Qed.

(** The first free slot is the lowest one, and marking it leaves the
    others. *)
Lemma free_from_first k bs :
  bitset_all bs = false →
  ∃ j, lowest_free bs j ∧
       free_from k bs = (k + j) :: free_from k (<[j := true]> bs).
Proof.
  unfold bitset_all. revert k. induction bs as [|b bs IH]; intros k; simpl; [done|].
  destruct b; simpl.
  - intros H. destruct (IH (S k) H) as (j & [Hj Hlow] & Heq).
    exists (S j). split.
    + split; [done|]. intros [|j'] Hj'; [done|]. apply Hlow. lia.
    + simpl. rewrite Heq. f_equal. lia.
  - intros _. exists 0. split.
    + split; [done|]. lia.
    + simpl. by rewrite Nat.add_0_r.
Qed.

Lemma free_from_replicate k n : free_from k (replicate n false) = seq k n.
Proof. revert k. induction n as [|n IH]; intros k; simpl; [done|]. by rewrite IH. Qed.

Lemma free_from_length k bs : length (free_from k bs) + bitset_count bs = length bs.
Proof.
  revert k. induction bs as [|b bs IH]; intros k; simpl; [done|].
  rewrite bitset_count_cons, length_app. specialize (IH (S k)). destruct b; simpl; lia.
Qed.

Lemma elem_of_free_from k bs i :
  i ∈ free_from k bs ↔ ∃ j, i = k + j ∧ bs !! j = Some false.
Proof.
  revert k. induction bs as [|b bs IH]; intros k; simpl.
  - split; [by intros ?%elem_of_nil | by intros (j & _ & ?)].
  - rewrite elem_of_app, IH. split.
    + intros [Hi|(j & -> & Hj)].
      * destruct b; [by apply elem_of_nil in Hi|].
        apply list_elem_of_singleton in Hi as ->. exists 0. split; [lia | done].
      * exists (S j). split; [lia | done].
    + intros ([|j] & -> & Hj).
      * left. injection Hj as ->. rewrite Nat.add_0_r. by apply list_elem_of_singleton.
      * right. exists j. split; [lia | done].
Qed.

Lemma free_from_NoDup k bs : NoDup (free_from k bs).
Proof.
  revert k. induction bs as [|b bs IH]; intros k; simpl; [apply NoDup_nil_2|].
  destruct b; simpl; [apply IH|]. apply NoDup_cons. split; [|apply IH].
  rewrite elem_of_free_from. intros (j & Hj & _). lia.
Qed.

(** ** Lists of entries *)

Lemma split_app is_sep s c t :
  is_sep c = true →
  split is_sep (s +:+ String c t) = split is_sep s ++ split is_sep t.
Proof.
  intros Hc. induction s as [|d s IH]; simpl.
  - by rewrite Hc.
  - destruct (is_sep d); [by rewrite IH|].
    rewrite IH. by destruct (split_head is_sep s) as [ts ->].
Qed.

Lemma sep_free_cut is_sep s : sep_free is_sep s = true → cut_first is_sep s = None.
Proof.
  induction s as [|c s IH]; simpl; [done|].
  destruct (is_sep c); simpl; [done|]. intros H. by rewrite IH.
Qed.

Lemma sep_free_app is_sep s t :
  sep_free is_sep (s +:+ t) = sep_free is_sep s && sep_free is_sep t.
Proof.
  induction s as [|c s IH]; simpl; [done|]. by rewrite IH, andb_assoc.
Qed.

Lemma cut_first_app is_sep g c r :
  sep_free is_sep g = true → is_sep c = true →
  cut_first is_sep (g +:+ String c r) = Some (g, r).
Proof.
  intros Hg Hc. induction g as [|d g IH]; simpl in *; [by rewrite Hc|].
  destruct (is_sep d); simpl in *; [done|]. by rewrite IH.
Qed.

Lemma add_role_entry m g r :
  sep_free (is_any_of "=") g = true → sep_free (is_any_of "=") r = true →
  add_role m (entry_of (g, r)) = <[g := r]> m.
Proof.
  intros Hg Hr. rewrite add_role_by_fields. unfold add_role_fields, entry_of. simpl.
  rewrite (cut_first_app _ g "=" r) by done.
  by rewrite until_sep_cut_none by by apply sep_free_cut.
Qed.

Lemma entry_of_comma_free g r :
  plain g = true → plain r = true → sep_free (is_any_of ",") (entry_of (g, r)) = true.
Proof.
  unfold plain, entry_of. rewrite !andb_true_iff. intros [Hg _] [Hr _].
  change ((g, r).1 +:+ "=" +:+ (g, r).2) with (g +:+ String "=" r).
  rewrite sep_free_app, Hg. done.
Qed.

Lemma parse_group_role_mapping_app s e :
  sep_free (is_any_of ",") e = true →
  parse_group_role_mapping (s +:+ "," +:+ e) =
    add_role (parse_group_role_mapping s) e.
Proof.
  intros He. unfold parse_group_role_mapping.
  change ("," +:+ e) with (String "," e).
  rewrite split_app by done. rewrite foldl_app.
  by rewrite (split_cut_none _ e) by by apply sep_free_cut.
Qed.

Lemma add_role_non_empty m e : add_role m e ≠ ∅.
Proof.
  rewrite add_role_by_fields. unfold add_role_fields.
  destruct (cut_first _ e) as [[g rest]|]; apply insert_non_empty.
Qed.

Lemma add_role_size m e : size m ≤ size (add_role m e) ≤ S (size m).
Proof.
  rewrite add_role_by_fields. unfold add_role_fields.
  destruct (cut_first _ e) as [[g rest]|]; rewrite map_size_insert;
    destruct (_ !! _); unfold id; lia.
Qed.

Lemma foldl_add_role_size m es :
  size m ≤ size (foldl add_role m es) ≤ size m + length es.
Proof.
  revert m. induction es as [|e es IH]; intros m; simpl; [lia|].
  specialize (IH (add_role m e)). pose proof (add_role_size m e). lia.
Qed.

Lemma split_mapping_text entries :
  entries ≠ [] →
  forallb (λ gr, plain gr.1 && plain gr.2) entries = true →
  split (is_any_of ",") (mapping_text entries) = entry_of <$> entries.
Proof.
  induction entries as [|[g r] entries IH]; [done|]. intros _ Hall.
  simpl in Hall. apply andb_true_iff in Hall as [Hgr Hall].
  apply andb_true_iff in Hgr as [Hg Hr]. simpl in Hg, Hr.
  pose proof (entry_of_comma_free g r Hg Hr) as Hfree.
  destruct entries as [|gr' entries].
  - simpl. by rewrite split_cut_none by by apply sep_free_cut.
  - change (mapping_text ((g, r) :: gr' :: entries))
      with (entry_of (g, r) +:+ String "," (mapping_text (gr' :: entries))).
    rewrite split_app by done.
    rewrite (split_cut_none _ (entry_of (g, r))) by by apply sep_free_cut.
    by rewrite IH.
Qed.

Lemma foldl_add_role_entries m entries :
  forallb (λ gr, plain gr.1 && plain gr.2) entries = true →
  foldl add_role m (entry_of <$> entries) =
    foldl (λ acc gr, <[gr.1 := gr.2]> acc) m entries.
Proof.
  revert m. induction entries as [|[g r] entries IH]; intros m Hall; simpl; [done|].
  simpl in Hall. apply andb_true_iff in Hall as [Hgr Hall].
  apply andb_true_iff in Hgr as [Hg Hr]. unfold plain in Hg, Hr. simpl in Hg, Hr.
  apply andb_true_iff in Hg as [_ Hg]. apply andb_true_iff in Hr as [_ Hr].
  by rewrite add_role_entry, IH.
Qed.

Lemma foldl_insert_list_to_map (m : gmap string string) entries :
  foldl (λ acc gr, <[gr.1 := gr.2]> acc) m entries =
    list_to_map (reverse entries) ∪ m.
Proof.
  revert m. induction entries as [|[g r] entries IH]; intros m; simpl.
  - by rewrite (left_id_L ∅ (∪)).
  - rewrite IH, reverse_cons, list_to_map_app. simpl.
    rewrite <- (assoc_L (∪)). f_equal.
    by rewrite insert_empty, <- insert_union_singleton_l.
Qed.

Section pool_properties.

Context {Session : Type}.
Variable disconnected : Session.
Variable ldap_bind : @Connection Session → string → string → status * Session.
Variable zombie_probe : @Connection Session → bool.

Implicit Types (w : @World Session) (c : @Connection Session) (p : Pool).

(** ** The monad *)

Lemma bind_run {A B} (m : M A) (f : A → M B) w a w1 :
  m w = Some (a, w1) → (m ≫= f) w = f a w1.
Proof. intros H. unfold mbind, M_bind. by rewrite H. Qed.

Lemma bind_unfold {A B} (m : M A) (f : A → M B) w :
  (m ≫= f) w = match m w with Some (a, w1) => f a w1 | None => None end.
Proof. done. Qed.

Lemma bind_fail {A B} (m : M A) (f : A → M B) w :
  m w = None → (m ≫= f) w = None.
Proof. intros H. unfold mbind, M_bind. by rewrite H. Qed.

Lemma pool_wfb_sound w : pool_wfb w = true → pool_wf w.
Proof.
  unfold pool_wfb. rewrite !andb_true_iff.
  intros [[[H1 H2] H3] H4]. split.
  - by apply Nat.eqb_eq.
  - by apply Nat.eqb_eq.
  - intros i p Hi. rewrite forallb_forall in H3.
    specialize (H3 p). rewrite <- list_elem_of_In in H3.
    specialize (H3 (list_elem_of_lookup_2 _ _ _ Hi)).
    destruct p as [l|]; [|done]. exists l. split; [done|]. by apply Nat.ltb_lt.
  - by apply bool_decide_eq_true in H4.
Qed.

Lemma pool_wf_sized w : pool_wf w → sized (this w).
Proof. intros [H1 H2 _ _]. by split. Qed.

(** ** Primitive steps *)

Lemma bs_test_run w i b :
  bs_used_ (this w) !! i = Some b → bs_test i w = Some (b, w).
Proof. intros H. unfold bs_test. by rewrite H. Qed.

Lemma bs_set_run w i v :
  i < length (bs_used_ (this w)) →
  bs_set i v w =
    Some ((), mkWorld (heap w) (set_bs_used_ (<[i := v]> (bs_used_ (this w))) (this w))
                (events w ++ [ev_bs_set i v])).
Proof.
  intros H. unfold bs_set, mbind, M_bind, get_this.
  by rewrite decide_True.
Qed.

Lemma mark_as_free_run w idx :
  idx < length (bs_used_ (this w)) →
  mark_as_free idx w =
    Some ((), mkWorld (heap w) (set_bs_used_ (<[idx := false]> (bs_used_ (this w))) (this w))
                (events w ++ [ev_bs_set idx false])).
Proof.
  intros H. unfold mark_as_free, mbind, M_bind, get_this.
  rewrite decide_True by done. by apply bs_set_run.
Qed.

Lemma mark_as_free_skip w idx :
  length (bs_used_ (this w)) ≤ idx → mark_as_free idx w = Some ((), w).
Proof.
  intros H. unfold mark_as_free, mbind, M_bind, get_this.
  rewrite decide_False by lia. done.
Qed.

Lemma vec_at_run w i q :
  v_connections_ (this w) !! i = Some q → vec_at i w = Some (q, w).
Proof. intros H. unfold vec_at. by rewrite H. Qed.

Lemma deref_run w l c : heap w !! l = Some c → deref (Some l) w = Some (c, w).
Proof. intros H. unfold deref. by rewrite H. Qed.

Lemma update_run w l c f :
  heap w !! l = Some c →
  update (Some l) f w = Some ((), mkWorld (<[l := f c]> (heap w)) (this w) (events w)).
Proof. intros H. unfold update. by rewrite H. Qed.

Lemma connect_run w l c dn pw :
  heap w !! l = Some c →
  connect ldap_bind (Some l) dn pw w =
    Some ((Connection_connect ldap_bind dn pw c).1,
          mkWorld (<[l := (Connection_connect ldap_bind dn pw c).2]> (heap w)) (this w)
            (events w ++ [ev_connect l (Connection_connect ldap_bind dn pw c).1])).
Proof.
  intros H. unfold connect.
  rewrite (bind_run _ _ _ _ _ (deref_run _ _ _ H)).
  destruct (Connection_connect ldap_bind dn pw c) as [st c'] eqn:E.
  rewrite (bind_run _ _ _ _ _ (update_run _ _ _ _ H)). done.
Qed.

Lemma set_bs_used_id p : set_bs_used_ (bs_used_ p) p = p.
Proof. by destruct p. Qed.

Lemma set_bs_used_twice bs bs' p :
  set_bs_used_ bs (set_bs_used_ bs' p) = set_bs_used_ bs p.
Proof. done. Qed.

(** ** Finding a free slot *)

Lemma scan_free_found w n i j :
  (∀ k, i ≤ k < j → bs_used_ (this w) !! k = Some true) →
  bs_used_ (this w) !! j = Some false →
  i ≤ j < i + n →
  scan_free i n w = Some (int_of_size_t j, w).
Proof.
  revert i. induction n as [|n IH]; intros i Hlow Hj Hij; [lia|].
  simpl. destruct (decide (i = j)) as [->|Hne].
  - by rewrite (bind_run _ _ _ _ _ (bs_test_run _ _ _ Hj)).
  - rewrite (bind_run _ _ _ true w); [|apply bs_test_run, Hlow; lia].
    simpl. apply IH; [intros k Hk; apply Hlow; lia | done | lia].
Qed.

Lemma scan_free_none w n i :
  (∀ k, i ≤ k < i + n → bs_used_ (this w) !! k = Some true) →
  scan_free i n w = Some ((-1)%Z, w).
Proof.
  revert i. induction n as [|n IH]; intros i Hall; [done|].
  simpl. rewrite (bind_run _ _ _ true w); [|apply bs_test_run, Hall; lia].
  simpl. apply IH. intros k Hk. apply Hall. lia.
Qed.

Lemma find_first_free_found w i :
  pool_wf w → lowest_free (bs_used_ (this w)) i →
  find_first_free w = Some (int_of_size_t i, w).
Proof.
  intros Hwf [Hi Hlow]. unfold find_first_free.
  rewrite (bind_run _ _ _ (this w) w) by done.
  destruct (bitset_all (bs_used_ (this w))) eqn:Hall.
  { rewrite bitset_all_true in Hall. by specialize (Hall _ _ Hi). }
  simpl. apply scan_free_found; [intros k Hk; apply Hlow; lia | done |].
  apply lookup_lt_Some in Hi. rewrite (wf_used _ Hwf) in Hi. lia.
Qed.

Lemma find_first_free_full w :
  pool_wf w → bitset_count (bs_used_ (this w)) = pool_max_size_ (this w) →
  find_first_free w = Some ((-1)%Z, w).
Proof.
  intros Hwf Hfull. unfold find_first_free.
  rewrite (bind_run _ _ _ (this w) w) by done.
  rewrite <- (wf_used _ Hwf), bitset_count_full in Hfull. by rewrite Hfull.
Qed.

Lemma lowest_free_lt w i :
  pool_wf w → lowest_free (bs_used_ (this w)) i → i < pool_max_size_ (this w).
Proof.
  intros Hwf [Hi _]. apply lookup_lt_Some in Hi. by rewrite (wf_used _ Hwf) in Hi.
Qed.

(** A bitmap that is not full has a lowest free position. *)
Lemma lowest_free_exists bs :
  bitset_all bs = false → ∃ i, lowest_free bs i.
Proof.
  unfold bitset_all, lowest_free. induction bs as [|b bs IH]; [done|].
  simpl. destruct b; simpl.
  - intros H. destruct (IH H) as (i & Hi & Hlow).
    exists (S i). split; [done|]. intros [|j] Hj; [done|]. apply Hlow. lia.
  - intros _. exists 0. split; [done|]. lia.
Qed.

(** ** Borrowing *)


Lemma borrow_connection_found w i dc :
  pool_wf w → int_indexable w → lowest_free (bs_used_ (this w)) i →
  borrow_connection ldap_bind dc w =
    (conn ← get_connection ldap_bind (Z.of_nat i) dc;
     (if conn is None then mark_as_free i else mret ());;
     mret conn) (marked_busy w i).
Proof.
  intros Hwf Hint Hfree.
  pose proof (lowest_free_lt _ _ Hwf Hfree) as Hi.
  assert (Z.of_nat i < 2 ^ 31)%Z as Hi31 by (unfold int_indexable in Hint; lia).
  unfold borrow_connection.
  rewrite (bind_run _ _ _ _ _ (find_first_free_found _ _ Hwf Hfree)).
  rewrite int_of_size_t_small by done.
  destruct (Z.eqb_spec (Z.of_nat i) (-1)) as [?|_]; [lia|].
  rewrite size_t_of_int_nat by done.
  unfold mark_as_busy.
  rewrite (bind_run _ _ _ () (marked_busy w i)); [done|].
  apply bs_set_run. by rewrite (wf_used _ Hwf).
Qed.

Lemma borrow_connection_full w dc :
  pool_wf w → bitset_count (bs_used_ (this w)) = pool_max_size_ (this w) →
  borrow_connection ldap_bind dc w =
    Some (None, mkWorld (heap w) (this w)
                  (events w ++ [log_srv_warn "WARNING: No available connections in the pool";
                                ev_thread_zombie_control])).
Proof.
  intros Hwf Hfull. unfold borrow_connection.
  rewrite (bind_run _ _ _ _ _ (find_first_free_full _ Hwf Hfull)).
  simpl. unfold mbind, M_bind, emit, mret, M_ret. simpl.
  by rewrite <- app_assoc.
Qed.

Lemma get_connection_plain w i l c :
  (Z.of_nat i < 2 ^ 31)%Z →
  v_connections_ (this w) !! i = Some (Some l) → heap w !! l = Some c →
  get_connection ldap_bind (Z.of_nat i) false w =
    Some (Some l, mkWorld (<[l := Connection_mark_as_busy c]> (heap w)) (this w) (events w)).
Proof.
  intros Hi Hslot Hl. unfold get_connection.
  rewrite size_t_of_int_nat by done.
  rewrite (bind_run _ _ _ _ _ (vec_at_run _ _ _ Hslot)).
  rewrite (bind_run _ _ _ (this w) w) by done.
  rewrite (bind_run _ _ _ false w) by done.
  by rewrite (bind_run _ _ _ _ _ (update_run _ _ _ _ Hl)).
Qed.

Lemma get_connection_connect w i l c :
  (Z.of_nat i < 2 ^ 31)%Z →
  v_connections_ (this w) !! i = Some (Some l) → heap w !! l = Some c →
  get_connection ldap_bind (Z.of_nat i) true w =
    let r := Connection_connect ldap_bind (bind_dn_ (this w)) (bind_pwd_ (this w)) c in
    match r.1 with
    | SUCCESS =>
        Some (Some l, mkWorld (<[l := Connection_mark_as_busy r.2]> (heap w)) (this w)
                        (events w ++ [ev_connect l SUCCESS]))
    | FAILURE =>
        Some (None, mkWorld (<[l := r.2]> (heap w)) (this w)
                      (events w ++ [ev_connect l FAILURE;
                                    log_srv_error "Connection to LDAP backend failed"]))
    end.
Proof.
  intros Hi Hslot Hl. unfold get_connection.
  rewrite size_t_of_int_nat by done.
  rewrite (bind_run _ _ _ _ _ (vec_at_run _ _ _ Hslot)).
  rewrite (bind_run _ _ _ (this w) w) by done.
  pose proof (connect_run w l c (bind_dn_ (this w)) (bind_pwd_ (this w)) Hl) as Hc.
  destruct (Connection_connect ldap_bind _ _ c) as [st c'] eqn:E. simpl in *.
  rewrite (bind_run _ _ _ (negb (status_eqb st SUCCESS)) _
             (bind_run _ _ _ _ _ Hc)).
  destruct st; simpl.
  - erewrite bind_run; [|apply update_run; simpl;
      apply list_lookup_insert_eq; by apply lookup_lt_Some in Hl].
    simpl. by rewrite list_insert_insert_eq.
  - unfold mbind, M_bind, emit, mret, M_ret. simpl. by rewrite <- app_assoc.
Qed.

Lemma borrow_connection_failed w i l c :
  pool_wf w → int_indexable w → lowest_free (bs_used_ (this w)) i →
  v_connections_ (this w) !! i = Some (Some l) → heap w !! l = Some c →
  (Connection_connect ldap_bind (bind_dn_ (this w)) (bind_pwd_ (this w)) c).1 = FAILURE →
  borrow_connection ldap_bind true w =
    Some (None,
          mkWorld (<[l := (Connection_connect ldap_bind (bind_dn_ (this w))
                             (bind_pwd_ (this w)) c).2]> (heap w))
            (this w)
            (events w ++ [ev_bs_set i true; ev_connect l FAILURE;
                          log_srv_error "Connection to LDAP backend failed";
                          ev_bs_set i false])).
Proof.
  intros Hwf Hint Hfree Hslot Hl Hst.
  pose proof (lowest_free_lt _ _ Hwf Hfree) as Hi.
  assert (Z.of_nat i < 2 ^ 31)%Z as Hi31 by (unfold int_indexable in Hint; lia).
  rewrite (borrow_connection_found _ _ _ Hwf Hint Hfree).
  rewrite bind_unfold, (get_connection_connect _ i l c) by done.
  simpl. rewrite Hst.
  erewrite bind_run; [|apply mark_as_free_run; simpl;
                        rewrite length_insert, (wf_used _ Hwf); done].
  simpl. unfold mret, M_ret. do 2 f_equal.
  destruct Hfree as [Hbit _]. f_equal.
  - rewrite set_bs_used_twice, list_insert_insert_eq, list_insert_id by done.
    apply set_bs_used_id.
  - by rewrite <- !app_assoc.
Qed.

Lemma borrow_connection_lent w i l c dc :
  pool_wf w → int_indexable w → lowest_free (bs_used_ (this w)) i →
  v_connections_ (this w) !! i = Some (Some l) → heap w !! l = Some c →
  (dc = true →
   (Connection_connect ldap_bind (bind_dn_ (this w)) (bind_pwd_ (this w)) c).1 = SUCCESS) →
  ∃ c', borrow_connection ldap_bind dc w =
    Some (Some l,
          mkWorld (<[l := Connection_mark_as_busy c']> (heap w))
            (set_bs_used_ (<[i := true]> (bs_used_ (this w))) (this w))
            (events w ++ ev_bs_set i true ::
               (if dc then [ev_connect l SUCCESS] else []))).
Proof.
  intros Hwf Hint Hfree Hslot Hl Hst.
  pose proof (lowest_free_lt _ _ Hwf Hfree) as Hi.
  assert (Z.of_nat i < 2 ^ 31)%Z as Hi31 by (unfold int_indexable in Hint; lia).
  rewrite (borrow_connection_found _ _ _ Hwf Hint Hfree).
  destruct dc.
  - rewrite bind_unfold, (get_connection_connect _ i l c) by done.
    simpl. rewrite Hst by done. eexists. simpl.
    unfold mbind, M_bind, mret, M_ret. by rewrite <- app_assoc.
  - erewrite bind_run; [|by apply (get_connection_plain _ i l c)].
    by exists c.
Qed.

(** C2: a borrow with [default_connect = true] that finds the free slot [i]
    sets the used bit of [i] before it tries to connect: [mark_as_busy]
    takes the state to [marked_busy w i], in which the bit of [i] is set,
    and [get_connection], with its connect attempt, runs in that state and
    leaves the pool object as it is there.  When the connect succeeds the
    bit stays set.  When the connect fails the bit is cleared again and the
    call returns none: the pool object, and so its bitmap, is what it was
    before the call, and the next search for a free slot finds [i]
    again. *)
Theorem borrow_connection_connect_failure w i l c :
  pool_wf w → int_indexable w → lowest_free (bs_used_ (this w)) i →
  v_connections_ (this w) !! i = Some (Some l) → heap w !! l = Some c →
  find_first_free w = Some (Z.of_nat i, w) ∧
  mark_as_busy (size_t_of_int (Z.of_nat i)) w = Some ((), marked_busy w i) ∧
  bs_used_ (this w) !! i = Some false ∧
  bs_used_ (this (marked_busy w i)) = <[i := true]> (bs_used_ (this w)) ∧
  bs_used_ (this (marked_busy w i)) !! i = Some true ∧
  borrow_connection ldap_bind true w =
    (conn ← get_connection ldap_bind (Z.of_nat i) true;
     (if conn is None then mark_as_free i else mret ());;
     mret conn) (marked_busy w i) ∧
  (∃ r wc evs,
     get_connection ldap_bind (Z.of_nat i) true (marked_busy w i) = Some (r, wc) ∧
     this wc = this (marked_busy w i) ∧
     bs_used_ (this wc) !! i = Some true ∧
     events wc =
       events w ++ ev_bs_set i true ::
         ev_connect l (Connection_connect ldap_bind (bind_dn_ (this w))
                         (bind_pwd_ (this w)) c).1 :: evs) ∧
  (∀ c', Connection_connect ldap_bind (bind_dn_ (this w)) (bind_pwd_ (this w)) c
           = (SUCCESS, c') →
     ∃ w', borrow_connection ldap_bind true w = Some (Some l, w') ∧
           this w' = this (marked_busy w i) ∧
           bs_used_ (this w') !! i = Some true ∧
           heap w' = <[l := Connection_mark_as_busy c']> (heap w)) ∧
  (∀ c', Connection_connect ldap_bind (bind_dn_ (this w)) (bind_pwd_ (this w)) c
           = (FAILURE, c') →
     ∃ w', borrow_connection ldap_bind true w = Some (None, w') ∧
           events w' = events w ++ [ev_bs_set i true; ev_connect l FAILURE;
                                    log_srv_error "Connection to LDAP backend failed";
                                    ev_bs_set i false] ∧
           this w' = this w ∧
           bs_used_ (this w') = bs_used_ (this w) ∧
           heap w' = <[l := c']> (heap w) ∧
           find_first_free w' = Some (Z.of_nat i, w')).
Proof.
  intros Hwf Hint Hfree Hslot Hl.
  pose proof (lowest_free_lt _ _ Hwf Hfree) as Hi.
  assert (Z.of_nat i < 2 ^ 31)%Z as Hi31 by (unfold int_indexable in Hint; lia).
  assert (i < length (bs_used_ (this w))) as Hilen by by rewrite (wf_used _ Hwf).
  assert (bs_used_ (this (marked_busy w i)) !! i = Some true) as Hset
    by (simpl; by apply list_lookup_insert_eq).
  pose proof (get_connection_connect (marked_busy w i) i l c Hi31 Hslot Hl) as Hget.
  simpl in Hget.
  split.
  { rewrite <- (int_of_size_t_small i) by done. by apply find_first_free_found. }
  split.
  { rewrite size_t_of_int_nat by done. unfold mark_as_busy. by apply bs_set_run. }
  split; [apply Hfree|]. split; [done|]. split; [done|].
  split; [by apply borrow_connection_found|].
  split; [|split].
  - destruct (Connection_connect ldap_bind (bind_dn_ (this w)) (bind_pwd_ (this w)) c).1;
      rewrite Hget; do 3 eexists; (split; [done|]); (split; [done|]); (split; [done|]);
      simpl; by rewrite <- app_assoc.
  - intros c' Hc. rewrite (borrow_connection_found _ _ _ Hwf Hint Hfree).
    rewrite bind_unfold, Hget, Hc. simpl.
    eexists. split; [done|]. simpl. split; [done|]. split; [|done].
    by apply list_lookup_insert_eq.
  - intros c' Hc. eexists. split.
    { apply (borrow_connection_failed _ i l c); try done. by rewrite Hc. }
    rewrite Hc. simpl. repeat split; try done.
    rewrite <- (int_of_size_t_small i) by done.
    apply find_first_free_found; [|done].
    destruct Hwf as [H1 H2 H3 H4]. split; simpl; try done.
    intros j p Hj. destruct (H3 j p Hj) as (l' & -> & Hl').
    exists l'. by rewrite length_insert.
Qed.

(** C1: [find_first_free] scans the slots upwards and selects the lowest
    index whose used bit is false, and [borrow_connection] marks that slot;
    when all [pool_max_size_] bits are set, [borrow_connection] returns none
    at once: it logs, hands the sweep to a detached thread and comes back.
    One of the two cases always applies. *)
Theorem borrow_connection_first_free w dc :
  pool_wf w → int_indexable w →
  (∀ i, lowest_free (bs_used_ (this w)) i →
     find_first_free w = Some (Z.of_nat i, w) ∧
     ∃ r w' evs,
       borrow_connection ldap_bind dc w = Some (r, w') ∧
       events w' = events w ++ ev_bs_set i true :: evs ∧
       ((r = None ∧ dc = true ∧ bs_used_ (this w') = bs_used_ (this w)) ∨
        (r ≠ None ∧ v_connections_ (this w) !! i = Some r ∧
         bs_used_ (this w') = <[i := true]> (bs_used_ (this w))))) ∧
  (bitset_count (bs_used_ (this w)) = pool_max_size_ (this w) →
     find_first_free w = Some ((-1)%Z, w) ∧
     borrow_connection ldap_bind dc w =
       Some (None,
             mkWorld (heap w) (this w)
               (events w ++ [log_srv_warn "WARNING: No available connections in the pool";
                             ev_thread_zombie_control]))) ∧
  ((∃ i, lowest_free (bs_used_ (this w)) i) ∨
   bitset_count (bs_used_ (this w)) = pool_max_size_ (this w)).
Proof.
  intros Hwf Hint. split; [|split].
  - intros i Hfree.
    pose proof (lowest_free_lt _ _ Hwf Hfree) as Hi.
    assert (Z.of_nat i < 2 ^ 31)%Z as Hi31 by (unfold int_indexable in Hint; lia).
    split.
    { rewrite <- (int_of_size_t_small i) by done. by apply find_first_free_found. }
    destruct (lookup_lt_is_Some_2 (v_connections_ (this w)) i) as [q Hq];
      [by rewrite (wf_slots _ Hwf)|].
    destruct (wf_live _ Hwf _ _ Hq) as (l & -> & Hl).
    destruct (lookup_lt_is_Some_2 _ _ Hl) as [c Hc].
    destruct dc;
      [destruct (Connection_connect ldap_bind (bind_dn_ (this w))
                   (bind_pwd_ (this w)) c).1 eqn:Hst|].
    + destruct (borrow_connection_lent w i l c true) as [c' ->]; try done.
      do 3 eexists. split; [done|]. split; [done|]. right. by simpl.
    + rewrite (borrow_connection_failed w i l c) by done.
      do 3 eexists. split; [done|]. split; [done|]. by left.
    + destruct (borrow_connection_lent w i l c false) as [c' ->]; try done.
      do 3 eexists. split; [done|]. split; [done|]. right. by simpl.
  - intros Hfull. split.
    + by apply find_first_free_full.
    + by apply borrow_connection_full.
  - destruct (bitset_all (bs_used_ (this w))) eqn:Hall.
    + right. rewrite <- (wf_used _ Hwf). by apply bitset_count_full.
    + left. by apply lowest_free_exists.
Qed.

(** ** Returning *)

Lemma return_connection_snipped_run w l c :
  heap w !! l = Some c → snipped_ c = true →
  return_connection (Some l) w =
    Some ((), mkWorld (<[l := Connection_mark_as_free c]> (heap w)) (this w)
                (events w ++ [ev_reset (Some l)])).
Proof.
  intros Hl Hs. unfold return_connection.
  rewrite (bind_run _ _ _ _ _ (update_run _ _ _ _ Hl)).
  erewrite bind_run; [|apply deref_run; simpl; apply list_lookup_insert_eq;
                        by apply lookup_lt_Some in Hl].
  unfold Connection_is_snipped. simpl. by rewrite Hs.
Qed.

Lemma return_connection_kept_run w l c :
  heap w !! l = Some c → snipped_ c = false →
  return_connection (Some l) w =
    (mark_as_free (size_t_of_int (int_of_size_t (idx_pool_ c)));;
     p ← get_this;
     if occupancy_high (bitset_count (bs_used_ p)) (pool_max_size_ p)
     then emit ev_thread_zombie_control
     else mret ())
      (mkWorld (<[l := Connection_mark_as_free c]> (heap w)) (this w) (events w)).
Proof.
  intros Hl Hs. unfold return_connection.
  rewrite (bind_run _ _ _ _ _ (update_run _ _ _ _ Hl)).
  erewrite bind_run; [|apply deref_run; simpl; apply list_lookup_insert_eq;
                        by apply lookup_lt_Some in Hl].
  unfold Connection_is_snipped. simpl. by rewrite Hs.
Qed.

(** [mark_as_free] always returns, and it writes at most the bit [idx]. *)
Lemma mark_as_free_total w idx :
  ∃ evs, mark_as_free idx w =
    Some ((), mkWorld (heap w) (set_bs_used_ (<[idx := false]> (bs_used_ (this w))) (this w))
                (events w ++ evs)) ∧
    (evs = [] ∨ evs = [ev_bs_set idx false]).
Proof.
  destruct (decide (idx < length (bs_used_ (this w)))) as [Hlt|Hge].
  - exists [ev_bs_set idx false]. split; [by apply mark_as_free_run | by right].
  - exists []. split; [|by left].
    rewrite mark_as_free_skip by lia.
    rewrite list_insert_ge by lia. rewrite set_bs_used_id, app_nil_r. by destruct w.
Qed.

(** The result of [return_connection] on a handle that is not snipped. *)
Lemma return_connection_kept w l c :
  heap w !! l = Some c → snipped_ c = false →
  ∃ evs,
    let bs := <[size_t_of_int (int_of_size_t (idx_pool_ c)) := false]> (bs_used_ (this w)) in
    return_connection (Some l) w =
      Some ((), mkWorld (<[l := Connection_mark_as_free c]> (heap w))
                  (set_bs_used_ bs (this w))
                  (events w ++ evs ++
                     (if occupancy_high (bitset_count bs) (pool_max_size_ (this w))
                      then [ev_thread_zombie_control] else []))) ∧
    ev_thread_zombie_control ∉ evs.
Proof.
  intros Hl Hs. rewrite (return_connection_kept_run _ _ _ Hl Hs).
  set (w1 := mkWorld _ _ _).
  destruct (mark_as_free_total w1 (size_t_of_int (int_of_size_t (idx_pool_ c))))
    as (evs & Hrun & Hevs).
  exists evs. simpl. split.
  - rewrite (bind_run _ _ _ _ _ Hrun). simpl.
    unfold mbind, M_bind, get_this. simpl.
    destruct (occupancy_high _ _); unfold emit, mret, M_ret; simpl.
    + by rewrite <- app_assoc.
    + by rewrite app_nil_r.
  - destruct Hevs as [->| ->]; [apply not_elem_of_nil|].
    by intros ?%list_elem_of_singleton.
Qed.

(** C5: [mark_as_free] leaves the state alone when its index is not below
    the length of the bitmap, and it never fails; so [return_connection] of
    a live handle always completes, and when the handle's index is at or
    beyond the bitmap (the pool shrank while the handle was lent) the
    bitmap is what it was. *)
Theorem mark_as_free_ignores_out_of_range w :
  (∀ idx, length (bs_used_ (this w)) ≤ idx → mark_as_free idx w = Some ((), w)) ∧
  (∀ idx, ∃ w', mark_as_free idx w = Some ((), w') ∧
                length (bs_used_ (this w')) = length (bs_used_ (this w))) ∧
  (∀ l c, heap w !! l = Some c →
     ∃ w', return_connection (Some l) w = Some ((), w') ∧
           length (bs_used_ (this w')) = length (bs_used_ (this w)) ∧
           (length (bs_used_ (this w)) ≤ idx_pool_ c →
            (Z.of_nat (idx_pool_ c) < 2 ^ 31)%Z →
            bs_used_ (this w') = bs_used_ (this w))).
Proof.
  split; [|split].
  - intros idx Hidx. by apply mark_as_free_skip.
  - intros idx. destruct (mark_as_free_total w idx) as (evs & -> & _).
    eexists. split; [done|]. simpl. destruct (this w). simpl. apply length_insert.
  - intros l c Hl. destruct (snipped_ c) eqn:Hs.
    + rewrite (return_connection_snipped_run _ _ _ Hl Hs). eexists. by split.
    + destruct (return_connection_kept _ _ _ Hl Hs) as (evs & Hrun & _).
      simpl in Hrun. rewrite Hrun. eexists. split; [done|]. simpl.
      destruct (this w); simpl. split; [apply length_insert|].
      intros Hge Hint. rewrite size_t_of_int_of_size_t by done.
      by apply list_insert_ge.
Qed.

(** C6: returning a snipped handle marks the handle free and releases the
    reference; the pool object (bitmap, slot vector, size, settings) is
    left as it was, every other handle is untouched, and no sweep is
    started. *)
Theorem return_connection_snipped w l c :
  heap w !! l = Some c → snipped_ c = true →
  ∃ w' evs, return_connection (Some l) w = Some ((), w') ∧
        heap w' = <[l := Connection_mark_as_free c]> (heap w) ∧
        this w' = this w ∧
        events w' = events w ++ evs ∧
        evs = [ev_reset (Some l)] ∧
        ev_thread_zombie_control ∉ evs.
Proof.
  intros Hl Hs. rewrite (return_connection_snipped_run _ _ _ Hl Hs).
  do 2 eexists. split; [done|]. simpl. repeat split; try done.
  by intros ?%list_elem_of_singleton.
Qed.

(** C9: returning a handle that is not snipped frees its bit, and then
    starts a sweep exactly when the number of set bits, counted after the
    bit was freed, is at least [std::ceil(pool_max_size_ * 0.9)]; for pools
    of fewer than [size_bound] slots that double is the integer ceiling of
    nine tenths of [pool_max_size_], the least [k] with
    [9 * pool_max_size_ <= 10 * k]. *)
Theorem return_connection_sweep w l c :
  heap w !! l = Some c → snipped_ c = false →
  ∃ w' evs,
    return_connection (Some l) w = Some ((), w') ∧
    bs_used_ (this w') =
      <[size_t_of_int (int_of_size_t (idx_pool_ c)) := false]> (bs_used_ (this w)) ∧
    pool_max_size_ (this w') = pool_max_size_ (this w) ∧
    events w' = events w ++ evs ∧
    (ev_thread_zombie_control ∈ evs ↔
       occupancy_high (bitset_count (bs_used_ (this w'))) (pool_max_size_ (this w')) = true) ∧
    (length (bs_used_ (this w)) = pool_max_size_ (this w) →
     (Z.of_nat (pool_max_size_ (this w)) < size_bound)%Z →
     (ev_thread_zombie_control ∈ evs ↔
        ceil_nine_tenths (pool_max_size_ (this w')) ≤ bitset_count (bs_used_ (this w')))) ∧
    (∀ n k, ceil_nine_tenths n ≤ k ↔ 9 * n ≤ 10 * k).
Proof.
  intros Hl Hs.
  destruct (return_connection_kept _ _ _ Hl Hs) as (evs & Hrun & Hevs).
  simpl in Hrun. rewrite Hrun. clear Hrun.
  set (bs := <[_ := false]> (bs_used_ (this w))).
  do 2 eexists. split; [done|]. simpl.
  change (bs_used_ (set_bs_used_ bs (this w))) with bs.
  change (pool_max_size_ (set_bs_used_ bs (this w))) with (pool_max_size_ (this w)).
  split; [done|]. split; [done|]. split; [done|].
  assert (ev_thread_zombie_control ∈
            evs ++ (if occupancy_high (bitset_count bs) (pool_max_size_ (this w))
                    then [ev_thread_zombie_control] else []) ↔
          occupancy_high (bitset_count bs) (pool_max_size_ (this w)) = true) as Hiff.
  { rewrite elem_of_app. destruct (occupancy_high _ _).
    - split; [done|]. intros _. right. by apply list_elem_of_singleton.
    - split; [|done]. intros [?|?%elem_of_nil]; done. }
  split; [done|]. split; [|apply ceil_nine_tenths_spec].
  intros Hlen Hbound. rewrite Hiff. apply occupancy_high_exact; [|done].
  pose proof (bitset_count_le bs) as Hle. unfold bs in Hle at 2.
  by rewrite length_insert, Hlen in Hle.
Qed.

(** ** The group-role mapping *)

(** C7, amended: [reset_group_role_mapping] replaces the mapping, whatever
    it held, by the one built from the entries between the commas: an entry
    without [=] maps to itself, otherwise the text before the first [=]
    maps to the text between the first and the second [=] (to the end of
    the entry when it has one [=] only).  When no entry has a second [=]
    this is the split on the first [=], and ["a=1,b=2,c"] gives
    a:1, b:2, c:c. *)
Theorem reset_group_role_mapping_fields w mapping :
  reset_group_role_mapping mapping w =
    Some ((), mkWorld (heap w)
                (set_group_role_mapping_ (mapping_fields mapping) (this w))
                (events w)) ∧
  (Forall single_eq (split (is_any_of ",") mapping) →
   mapping_fields mapping = mapping_first_eq mapping) ∧
  mapping_fields "a=1,b=2,c" = {[ "a" := "1"; "b" := "2"; "c" := "c" ]}.
Proof.
  split; [|split].
  - unfold reset_group_role_mapping, modify_this.
    by rewrite parse_group_role_mapping_fields.
  - apply mapping_fields_single_eq.
  - vm_compute. reflexivity.
Qed.

(** C10: on the empty text the mapping is not empty: the text splits into
    one empty entry, which maps to itself. *)
Theorem reset_group_role_mapping_empty w :
  ∃ w', reset_group_role_mapping "" w = Some ((), w') ∧
        split (is_any_of ",") "" = [""] ∧
        group_role_mapping_ (this w') = {[ "" := "" ]} ∧
        group_role_mapping_ (this w') ≠ ∅.
Proof.
  eexists. split; [done|]. split; [done|]. simpl. split; [done|].
  intros H. apply (f_equal (λ m : gmap string string, m !! "")) in H.
  vm_compute in H. discriminate.
Qed.

(** ** Loops *)

Lemma for_loop_inv (I : nat → World → Prop) (body : nat → M unit) n i w :
  I i w →
  (∀ j wj, i ≤ j < i + n → I j wj → ∃ wj', body j wj = Some ((), wj') ∧ I (S j) wj') →
  ∃ w', for_loop i n body w = Some ((), w') ∧ I (i + n) w'.
Proof.
  revert i w. induction n as [|n IH]; intros i w Hi Hstep.
  - exists w. rewrite Nat.add_0_r. by split.
  - destruct (Hstep i w ltac:(lia) Hi) as (w1 & Hrun & H1).
    destruct (IH (S i) w1 H1) as (w' & Hrun' & H').
    { intros j wj Hj. apply Hstep. lia. }
    exists w'. simpl. rewrite (bind_run _ _ _ _ _ Hrun).
    split; [done|]. by replace (i + S n) with (S i + n) by lia.
Qed.

Lemma for_range_inv (I : nat → World → Prop) (body : nat → M unit) from to w :
  from ≤ to → I from w →
  (∀ j wj, from ≤ j < to → I j wj → ∃ wj', body j wj = Some ((), wj') ∧ I (S j) wj') →
  ∃ w', for_range from to body w = Some ((), w') ∧ I to w'.
Proof.
  intros Hle Hi Hstep. unfold for_range.
  destruct (for_loop_inv I body (to - from) from w Hi) as (w' & Hrun & H').
  { intros j wj Hj. apply Hstep. lia. }
  exists w'. split; [done|]. by replace (from + (to - from)) with to in H' by lia.
Qed.

(** A loop whose body fails at the index [k] fails. *)
Lemma for_loop_fails (I : nat → World → Prop) (body : nat → M unit) n i k w :
  i ≤ k < i + n → I i w →
  (∀ j wj, i ≤ j < k → I j wj → ∃ wj', body j wj = Some ((), wj') ∧ I (S j) wj') →
  (∀ wk, I k wk → body k wk = None) →
  for_loop i n body w = None.
Proof.
  revert i w. induction n as [|n IH]; intros i w Hk Hi Hstep Hfail; [lia|].
  simpl. destruct (decide (i = k)) as [->|Hne].
  - apply bind_fail. by apply Hfail.
  - destruct (Hstep i w ltac:(lia) Hi) as (w1 & Hrun & H1).
    rewrite (bind_run _ _ _ _ _ Hrun).
    apply IH; [lia | done | | done]. intros j wj Hj. apply Hstep. lia.
Qed.

(** ** Computations that keep the sizes *)

Lemma sizes_kept_refl w : sizes_kept w w.
Proof. by repeat split. Qed.

Lemma sizes_kept_trans w1 w2 w3 : sizes_kept w1 w2 → sizes_kept w2 w3 → sizes_kept w1 w3.
Proof. unfold sizes_kept. intros (?&?&?&?) (?&?&?&?). repeat split; lia || congruence. Qed.

Lemma sizes_kept_sized w w' : sizes_kept w w' → sized (this w) → sized (this w').
Proof. unfold sizes_kept, sized. intros (?&?&?&?) [? ?]. split; congruence. Qed.

Lemma keeps_ret {A} (a : A) : keeps_sizes (mret a : @M Session A).
Proof. intros w a' w' [= <- <-]. apply sizes_kept_refl. Qed.

Lemma keeps_bind {A B} (m : @M Session A) (f : A → @M Session B) :
  keeps_sizes m → (∀ a, keeps_sizes (f a)) → keeps_sizes (m ≫= f).
Proof.
  intros Hm Hf w b w' Hrun. rewrite bind_unfold in Hrun.
  destruct (m w) as [[a w1]|] eqn:E; [|done].
  eapply sizes_kept_trans; [by eapply Hm | by eapply Hf].
Qed.

Lemma keeps_undefined {A} : keeps_sizes (@undefined Session A).
Proof. by intros w a w'. Qed.

Lemma keeps_get_this : keeps_sizes (@get_this Session).
Proof. intros w a w' [= <- <-]. apply sizes_kept_refl. Qed.

Lemma keeps_emit e : keeps_sizes (@emit Session e).
Proof. intros w a w' [= <- <-]. by repeat split. Qed.

Lemma keeps_deref q : keeps_sizes (@deref Session q).
Proof.
  intros w a w'. unfold deref. destruct q as [l|]; [|done].
  destruct (heap w !! l); [|done]. intros [= <- <-]. apply sizes_kept_refl.
Qed.

Lemma keeps_update q f : keeps_sizes (@update Session q f).
Proof.
  intros w a w'. unfold update. destruct q as [l|]; [|done].
  destruct (heap w !! l); [|done]. intros [= <- <-].
  repeat split; simpl. by rewrite length_insert.
Qed.

Lemma keeps_make_shared c : keeps_sizes (make_shared c).
Proof.
  intros w a w' [= <- <-]. repeat split; simpl. rewrite length_app. lia.
Qed.

Lemma keeps_bs_test i : keeps_sizes (@bs_test Session i).
Proof.
  intros w a w'. unfold bs_test. destruct (bs_used_ (this w) !! i); [|done].
  intros [= <- <-]. apply sizes_kept_refl.
Qed.

Lemma keeps_vec_at i : keeps_sizes (@vec_at Session i).
Proof.
  intros w a w'. unfold vec_at. destruct (v_connections_ (this w) !! i); [|done].
  intros [= <- <-]. apply sizes_kept_refl.
Qed.

Lemma keeps_bs_set i v : keeps_sizes (@bs_set Session i v).
Proof.
  intros w a w'. unfold bs_set. rewrite bind_unfold. simpl.
  destruct (decide _); [|done]. intros [= <- <-].
  repeat split; simpl; try lia. destruct (this w); simpl. apply length_insert.
Qed.

Lemma keeps_vec_assign i q : keeps_sizes (@vec_assign Session i q).
Proof.
  intros w a w'. unfold vec_assign. rewrite bind_unfold. simpl.
  destruct (decide _); [|done]. intros [= <- <-].
  repeat split; simpl; try lia. destruct (this w); simpl. apply length_insert.
Qed.

Lemma keeps_for_loop (body : nat → @M Session unit) n i :
  (∀ j, keeps_sizes (body j)) → keeps_sizes (for_loop i n body).
Proof.
  intros Hbody. revert i. induction n as [|n IH]; intros i; simpl.
  - apply keeps_ret.
  - apply keeps_bind; [apply Hbody | intros _; apply IH].
Qed.

#[local] Hint Resolve keeps_ret keeps_undefined keeps_get_this keeps_emit
  keeps_deref keeps_update keeps_make_shared keeps_bs_test keeps_vec_at
  keeps_bs_set keeps_vec_assign : keeps.

(** A computation built from the steps above with binds, conditionals and
    loops keeps the sizes: the rules are applied along its structure. *)
Ltac keeps_step :=
  match goal with
  | |- keeps_sizes (_ ≫= _) => apply keeps_bind; [|intros ?]
  | |- keeps_sizes (for_range _ _ _) => unfold for_range
  | |- keeps_sizes (for_loop _ _ _) => apply keeps_for_loop; intros ?
  | |- keeps_sizes (if ?b then _ else _) => destruct b
  | |- keeps_sizes (match ?x with _ => _ end) => destruct x
  | |- keeps_sizes _ => solve [auto with keeps]
  end.

Ltac keeps := repeat keeps_step.

Lemma keeps_connect q dn pw : keeps_sizes (connect ldap_bind q dn pw).
Proof. unfold connect. keeps. Qed.

Lemma keeps_mark_as_free idx : keeps_sizes (@mark_as_free Session idx).
Proof. unfold mark_as_free. keeps. Qed.

Lemma keeps_scan_free n i : keeps_sizes (@scan_free Session i n).
Proof. revert i. induction n as [|n IH]; intros i; simpl; keeps. Qed.

#[local] Hint Resolve keeps_connect keeps_mark_as_free keeps_scan_free : keeps.

Lemma keeps_find_first_free : keeps_sizes (@find_first_free Session).
Proof. unfold find_first_free. keeps. Qed.

Lemma keeps_get_connection idx dc : keeps_sizes (get_connection ldap_bind idx dc).
Proof. unfold get_connection. keeps. Qed.

#[local] Hint Resolve keeps_find_first_free keeps_get_connection : keeps.

Lemma keeps_borrow_connection dc : keeps_sizes (borrow_connection ldap_bind dc).
Proof. unfold borrow_connection, mark_as_busy. keeps. Qed.

Lemma keeps_return_connection conn : keeps_sizes (@return_connection Session conn).
Proof. unfold return_connection. keeps. Qed.

Lemma keeps_zombie_control_slot i : keeps_sizes (zombie_control_slot zombie_probe i).
Proof. unfold zombie_control_slot. keeps. Qed.

#[local] Hint Resolve keeps_zombie_control_slot : keeps.

Lemma keeps_zombie_control : keeps_sizes (zombie_control zombie_probe).
Proof. unfold zombie_control. keeps. Qed.

Lemma keeps_snip_slot i : keeps_sizes (@snip_slot Session i).
Proof. unfold snip_slot. keeps. Qed.

Lemma keeps_new_slot ep i : keeps_sizes (new_slot disconnected ep i).
Proof. unfold new_slot. keeps. Qed.

Lemma keeps_configure_slot i : keeps_sizes (configure_slot ldap_bind i).
Proof. unfold configure_slot. keeps. Qed.

Lemma keeps_connect_slot i : keeps_sizes (connect_slot ldap_bind i).
Proof. unfold connect_slot. keeps. Qed.

Lemma keeps_construct_slot i : keeps_sizes (construct_slot disconnected ldap_bind i).
Proof. unfold construct_slot. keeps. Qed.

(** ** The reclamation sweep *)

Lemma bind_inv {A B} (m : @M Session A) (f : A → @M Session B) w b w' :
  (m ≫= f) w = Some (b, w') → ∃ a w1, m w = Some (a, w1) ∧ f a w1 = Some (b, w').
Proof.
  rewrite bind_unfold. destruct (m w) as [[a w1]|]; [|done]. intros H. by exists a, w1.
Qed.

Lemma zombie_control_slot_run w i b l c :
  bs_used_ (this w) !! i = Some b →
  v_connections_ (this w) !! i = Some (Some l) →
  heap w !! l = Some c →
  zombie_control_slot zombie_probe i w =
    Some ((), if b && Connection_is_zombie zombie_probe c
              then mkWorld (<[l := Connection_mark_as_free c]> (heap w))
                     (set_bs_used_ (<[i := false]> (bs_used_ (this w))) (this w))
                     (events w ++ [ev_bs_set i false])
              else w).
Proof.
  intros Hb Hslot Hl. unfold zombie_control_slot.
  rewrite (bind_run _ _ _ _ _ (bs_test_run _ _ _ Hb)).
  destruct b; simpl.
  - rewrite (bind_run _ _ _ (Connection_is_zombie zombie_probe c) w).
    2:{ rewrite (bind_run _ _ _ _ _ (vec_at_run _ _ _ Hslot)).
        by rewrite (bind_run _ _ _ _ _ (deref_run _ _ _ Hl)). }
    destruct (Connection_is_zombie zombie_probe c); [|done].
    rewrite (bind_run _ _ _ _ _ (vec_at_run _ _ _ Hslot)).
    rewrite (bind_run _ _ _ _ _ (update_run _ _ _ _ Hl)).
    rewrite mark_as_free_run by (simpl; by apply lookup_lt_Some in Hb). done.
  - by rewrite (bind_run _ _ _ false w).
Qed.

Lemma reclaimed_eq w i b l c :
  bs_used_ (this w) !! i = Some b →
  v_connections_ (this w) !! i = Some (Some l) →
  heap w !! l = Some c →
  reclaimed zombie_probe w i = b && Connection_is_zombie zombie_probe c.
Proof. intros Hb Hslot Hl. unfold reclaimed. rewrite Hb, Hslot, Hl. by destruct b. Qed.

Lemma swept_start w : pool_wf w → swept zombie_probe w 0 w.
Proof.
  intros Hwf. unfold swept. split; [|split; [|split; [|split; [|split; [|split]]]]]; try done.
  - exists (bs_used_ (this w)). by rewrite set_bs_used_id.
  - exists []. split; [by rewrite app_nil_r | apply not_elem_of_nil].
Qed.

Lemma swept_step w j wj :
  pool_wf w → j < pool_max_size_ (this w) → swept zombie_probe w j wj →
  ∃ wj', zombie_control_slot zombie_probe j wj = Some ((), wj') ∧ swept zombie_probe w (S j) wj'.
Proof.
  intros Hwf Hj ([bsj Hthis] & Hlen & Hbits & Hhlen & Hslots & Hout & evs & Hev & Hnev).
  destruct (lookup_lt_is_Some_2 (bs_used_ (this w)) j) as [b Hb];
    [by rewrite (wf_used _ Hwf)|].
  destruct (lookup_lt_is_Some_2 (v_connections_ (this w)) j) as [q Hq];
    [by rewrite (wf_slots _ Hwf)|].
  destruct (wf_live _ Hwf _ _ Hq) as (l & -> & Hl).
  destruct (lookup_lt_is_Some_2 _ _ Hl) as [c Hc].
  assert (v_connections_ (this wj) = v_connections_ (this w)) as Hv by by rewrite Hthis.
  pose proof (Hbits _ _ Hb) as Hbj. rewrite decide_False in Hbj by lia.
  pose proof (Hslots _ _ _ Hq Hc) as Hcj. rewrite decide_False in Hcj by lia.
  rewrite (zombie_control_slot_run wj j b l c) by (done || by rewrite Hv).
  rewrite <- (reclaimed_eq w j b l c) by done.
  eexists. split; [done|].
  pose proof (reclaimed_eq w j b l c Hb Hq Hc) as Hrec.
  destruct (reclaimed zombie_probe w j) eqn:Hr.
  - (* the slot is reclaimed *)
    split; [|split; [|split; [|split; [|split; [|split]]]]]; simpl.
    + eexists. rewrite Hthis. done.
    + rewrite Hthis. simpl. rewrite length_insert. rewrite Hthis in Hlen. done.
    + intros i b' Hb'. rewrite Hthis. simpl.
      destruct (decide (i = j)) as [->|Hne].
      * rewrite list_lookup_insert_eq
          by (rewrite Hthis in Hlen; simpl in Hlen; rewrite Hlen; by apply lookup_lt_Some in Hb).
        rewrite decide_True by lia. rewrite Hr. by rewrite andb_false_r.
      * rewrite list_lookup_insert_ne by done.
        specialize (Hbits _ _ Hb'). rewrite Hthis in Hbits. simpl in Hbits.
        rewrite Hbits. f_equal. repeat case_decide; done || lia.
    + by rewrite length_insert.
    + intros i l' c' Hq' Hc'.
      destruct (decide (i = j)) as [->|Hne].
      * assert (l' = l) as -> by congruence. assert (c' = c) as -> by congruence.
        rewrite list_lookup_insert_eq by (rewrite Hhlen; done).
        rewrite decide_True by lia. by rewrite Hr.
      * assert (l' ≠ l) as Hll.
        { intros ->. apply Hne. eapply NoDup_lookup; [apply (wf_nodup _ Hwf)|done..]. }
        rewrite list_lookup_insert_ne by done.
        rewrite (Hslots _ _ _ Hq' Hc'). f_equal. repeat case_decide; done || lia.
    + intros l' Hl'. rewrite list_lookup_insert_ne; [by apply Hout|].
      intros ->. apply Hl'. by eapply list_elem_of_lookup_2.
    + exists (evs ++ [ev_bs_set j false]). rewrite Hev, app_assoc. split; [done|].
      rewrite not_elem_of_app. split; [done|]. by intros ?%list_elem_of_singleton.
  - (* the slot is left alone *)
    split; [|split; [|split; [|split; [|split; [|split]]]]]; try done.
    + by exists bsj.
    + intros i b' Hb'. rewrite (Hbits _ _ Hb').
      destruct (decide (i = j)) as [->|Hne].
      * rewrite decide_False, decide_True by lia. rewrite Hr.
        by rewrite andb_true_r.
      * f_equal. repeat case_decide; done || lia.
    + intros i l' c' Hq' Hc'. rewrite (Hslots _ _ _ Hq' Hc').
      destruct (decide (i = j)) as [->|Hne].
      * rewrite decide_False, decide_True by lia. by rewrite Hr.
      * f_equal. repeat case_decide; done || lia.
    + by exists evs.
Qed.

Lemma zombie_control_run w :
  pool_wf w → ∃ w', zombie_control zombie_probe w = Some ((), w') ∧
                    swept zombie_probe w (pool_max_size_ (this w)) w'.
Proof.
  intros Hwf. unfold zombie_control. rewrite (bind_run _ _ _ (this w) w) by done.
  apply (for_range_inv (swept zombie_probe w)); [lia | by apply swept_start |].
  intros j wj Hj Hs. apply swept_step; [done | lia | done].
Qed.

Lemma swept_wf w j wj : pool_wf w → swept zombie_probe w j wj → pool_wf wj.
Proof.
  intros [H1 H2 H3 H4] ([bs Hthis] & Hlen & _ & Hhlen & _).
  rewrite Hthis in Hlen. simpl in Hlen.
  split; rewrite Hthis; simpl; try done.
  - by rewrite Hlen.
  - by rewrite Hhlen.
Qed.

Lemma reclaimed_true w i :
  pool_wf w →
  reclaimed zombie_probe w i = true ↔
    i < pool_max_size_ (this w) ∧ bs_used_ (this w) !! i = Some true ∧
    ∃ l c, v_connections_ (this w) !! i = Some (Some l) ∧ heap w !! l = Some c ∧
           Connection_is_zombie zombie_probe c = true.
Proof.
  intros Hwf. unfold reclaimed. split.
  - destruct (bs_used_ (this w) !! i) as [[|]|] eqn:Hb; try done.
    destruct (v_connections_ (this w) !! i) as [[l|]|] eqn:Hq; try done.
    destruct (heap w !! l) as [c|] eqn:Hc; try done.
    intros Hz. split; [|split; [done|by exists l, c]].
    apply lookup_lt_Some in Hb. by rewrite (wf_used _ Hwf) in Hb.
  - intros (_ & -> & l & c & -> & -> & Hz). done.
Qed.

(** C8: [zombie_control] completes; it clears the used bit and marks the
    handle free for exactly the slots below [pool_max_size_] whose bit is
    set and whose handle answers [is_zombie()]; every other bit, the
    handles of the other slots and the handles outside the pool are
    unchanged, as are the slot vector and the size. *)
Theorem zombie_control_reclaims w :
  pool_wf w →
  ∃ w', zombie_control zombie_probe w = Some ((), w') ∧
    (∀ i, reclaimed zombie_probe w i = true ↔
       i < pool_max_size_ (this w) ∧ bs_used_ (this w) !! i = Some true ∧
       ∃ l c, v_connections_ (this w) !! i = Some (Some l) ∧ heap w !! l = Some c ∧
              Connection_is_zombie zombie_probe c = true) ∧
    length (bs_used_ (this w')) = length (bs_used_ (this w)) ∧
    (∀ i b, bs_used_ (this w) !! i = Some b →
       bs_used_ (this w') !! i = Some (if reclaimed zombie_probe w i then false else b)) ∧
    length (heap w') = length (heap w) ∧
    (∀ i l c, v_connections_ (this w) !! i = Some (Some l) → heap w !! l = Some c →
       heap w' !! l =
         Some (if reclaimed zombie_probe w i then Connection_mark_as_free c else c)) ∧
    (∀ l, Some l ∉ v_connections_ (this w) → heap w' !! l = heap w !! l) ∧
    v_connections_ (this w') = v_connections_ (this w) ∧
    pool_max_size_ (this w') = pool_max_size_ (this w).
Proof.
  intros Hwf.
  destruct (zombie_control_run w Hwf)
    as (w' & Hrun & [bs Hthis] & Hlen & Hbits & Hhlen & Hslots & Hout & _).
  exists w'. split; [done|]. split; [intros i; by apply reclaimed_true|].
  split; [done|]. split.
  { intros i b Hb. rewrite (Hbits _ _ Hb).
    rewrite decide_True
      by (apply lookup_lt_Some in Hb; by rewrite (wf_used _ Hwf) in Hb).
    by destruct (reclaimed zombie_probe w i), b. }
  split; [done|]. split.
  { intros i l c Hq Hc. rewrite (Hslots _ _ _ Hq Hc).
    rewrite decide_True
      by (apply lookup_lt_Some in Hq; by rewrite (wf_slots _ Hwf) in Hq).
    done. }
  split; [done|]. by rewrite Hthis.
Qed.

(** ** Reconfiguring *)

Lemma same_id_refl c : same_id c c.
Proof. by split. Qed.

Lemma same_id_trans c1 c2 c3 : same_id c1 c2 → same_id c2 c3 → same_id c1 c3.
Proof. intros [? ?] [? ?]. split; congruence. Qed.

Lemma heap_rel_refl (h : list (@Connection Session)) : heap_rel same_id h h.
Proof. split; [done|]. intros l c Hl. exists c. split; [done | apply same_id_refl]. Qed.

Lemma heap_rel_trans (h1 h2 h3 : list (@Connection Session)) :
  heap_rel same_id h1 h2 → heap_rel same_id h2 h3 → heap_rel same_id h1 h3.
Proof.
  intros [Hl1 H1] [Hl2 H2]. split; [congruence|].
  intros l c Hc. destruct (H1 _ _ Hc) as (c2 & Hc2 & Hid2).
  destruct (H2 _ _ Hc2) as (c3 & Hc3 & Hid3).
  exists c3. split; [done | by eapply same_id_trans].
Qed.

Lemma heap_rel_insert (h : list (@Connection Session)) l c c' :
  h !! l = Some c → same_id c c' → heap_rel same_id h (<[l := c']> h).
Proof.
  intros Hl Hid. split; [apply length_insert|].
  intros l' c0 Hc0. destruct (decide (l' = l)) as [->|Hne].
  - exists c'. rewrite list_lookup_insert_eq by by apply lookup_lt_Some in Hl.
    split; [done|]. congruence.
  - exists c0. rewrite list_lookup_insert_ne by done. split; [done | apply same_id_refl].
Qed.

Lemma connect_same_id dn pw c : same_id c (Connection_connect ldap_bind dn pw c).2.
Proof. unfold Connection_connect. by destruct (ldap_bind c dn pw). Qed.


Lemma settled_refl w : settled w w.
Proof. split; [done | apply heap_rel_refl]. Qed.

Lemma settled_trans w1 w2 w3 : settled w1 w2 → settled w2 w3 → settled w1 w3.
Proof.
  intros [Ht1 Hh1] [Ht2 Hh2]. split; [congruence | by eapply heap_rel_trans].
Qed.

Lemma settled_wf w w' : settled w w' → pool_wf w → pool_wf w'.
Proof.
  intros [Ht [Hlen _]] [H1 H2 H3 H4]. split; rewrite Ht; try done.
  intros i p Hp. rewrite Hlen. eauto.
Qed.

Lemma update_settled w l c f :
  heap w !! l = Some c → same_id c (f c) →
  ∃ w', update (Some l) f w = Some ((), w') ∧ settled w w'.
Proof.
  intros Hl Hid. rewrite (update_run _ _ _ _ Hl). eexists. split; [done|].
  split; [done|]. simpl. by eapply heap_rel_insert.
Qed.

Lemma connect_settled w l c dn pw :
  heap w !! l = Some c →
  ∃ st w', connect ldap_bind (Some l) dn pw w = Some (st, w') ∧ settled w w'.
Proof.
  intros Hl. rewrite (connect_run _ _ _ _ _ Hl). do 2 eexists. split; [done|].
  split; [done|]. simpl. eapply heap_rel_insert; [done | apply connect_same_id].
Qed.

Lemma slot_live w i :
  pool_wf w → i < pool_max_size_ (this w) →
  ∃ l c, v_connections_ (this w) !! i = Some (Some l) ∧ heap w !! l = Some c.
Proof.
  intros Hwf Hi.
  destruct (lookup_lt_is_Some_2 (v_connections_ (this w)) i) as [q Hq];
    [by rewrite (wf_slots _ Hwf)|].
  destruct (wf_live _ Hwf _ _ Hq) as (l & -> & Hl).
  destruct (lookup_lt_is_Some_2 _ _ Hl) as [c Hc]. by exists l, c.
Qed.

Lemma configure_slot_settled w i :
  pool_wf w → i < pool_max_size_ (this w) →
  ∃ w', configure_slot ldap_bind i w = Some ((), w') ∧ settled w w'.
Proof.
  intros Hwf Hi. destruct (slot_live _ _ Hwf Hi) as (l & c & Hq & Hc).
  unfold configure_slot. rewrite (bind_run _ _ _ (this w) w) by done.
  rewrite (bind_run _ _ _ _ _ (vec_at_run _ _ _ Hq)).
  destruct (update_settled w l c (Connection_configure (pool_endpoint (this w))) Hc)
    as (w1 & Hrun1 & Hs1); [done|].
  rewrite (bind_run _ _ _ _ _ Hrun1).
  destruct (decide _); [|by exists w1].
  destruct Hs1 as [Ht1 Hh1]. destruct (proj2 Hh1 _ _ Hc) as (c1 & Hc1 & _).
  destruct (connect_settled w1 l c1 (bind_dn_ (this w)) (bind_pwd_ (this w)) Hc1)
    as (st & w2 & Hrun2 & Hs2).
  rewrite (bind_run _ _ _ _ _ Hrun2). exists w2. split; [done|].
  by apply (settled_trans _ w1).
Qed.

Lemma connect_slot_settled w i :
  pool_wf w → i < pool_max_size_ (this w) →
  ∃ w', connect_slot ldap_bind i w = Some ((), w') ∧ settled w w'.
Proof.
  intros Hwf Hi. destruct (slot_live _ _ Hwf Hi) as (l & c & Hq & Hc).
  unfold connect_slot. rewrite (bind_run _ _ _ (this w) w) by done.
  rewrite (bind_run _ _ _ _ _ (vec_at_run _ _ _ Hq)).
  destruct (connect_settled w l c (bind_dn_ (this w)) (bind_pwd_ (this w)) Hc)
    as (st & w2 & Hrun2 & Hs2).
  rewrite (bind_run _ _ _ _ _ Hrun2). by exists w2.
Qed.

Lemma connect_slot_out_of_range w i :
  length (v_connections_ (this w)) ≤ i → connect_slot ldap_bind i w = None.
Proof.
  intros Hi. unfold connect_slot. rewrite (bind_run _ _ _ (this w) w) by done.
  apply bind_fail. unfold vec_at. by rewrite lookup_ge_None_2.
Qed.

(** A loop over slots of the pool whose body leaves the state settled. *)
Lemma settled_loop (body : nat → @M Session unit) w n :
  pool_wf w → n ≤ pool_max_size_ (this w) →
  (∀ i wj, pool_wf wj → i < pool_max_size_ (this wj) →
     ∃ wj', body i wj = Some ((), wj') ∧ settled wj wj') →
  ∃ w', for_range 0 n body w = Some ((), w') ∧ settled w w'.
Proof.
  intros Hwf Hn Hbody.
  apply (for_range_inv (λ _ wj, settled w wj)); [lia | apply settled_refl |].
  intros j wj Hj Hs.
  destruct (Hbody j wj) as (wj' & Hrun & Hs').
  - by apply (settled_wf w).
  - destruct Hs as [-> _]. lia.
  - exists wj'. split; [done|]. by apply (settled_trans _ wj).
Qed.

Lemma snip_loop w w1 nm :
  pool_wf w → nm ≤ pool_max_size_ (this w) →
  heap w1 = heap w → v_connections_ (this w1) = v_connections_ (this w) →
  ∃ h', for_range nm (pool_max_size_ (this w)) snip_slot w1 =
          Some ((), mkWorld h' (this w1) (events w1)) ∧
        length h' = length (heap w) ∧
        ∀ l c, heap w !! l = Some c →
          h' !! l = Some (if bool_decide (Some l ∈ drop nm (v_connections_ (this w)))
                          then Connection_mark_as_snipped c else c).
Proof.
  intros Hwf Hnm Hh Hv.
  destruct (for_range_inv
    (λ j wj, this wj = this w1 ∧ events wj = events w1 ∧
             length (heap wj) = length (heap w) ∧
             ∀ l c, heap w !! l = Some c →
               heap wj !! l =
                 Some (if bool_decide (Some l ∈ take (j - nm) (drop nm (v_connections_ (this w))))
                       then Connection_mark_as_snipped c else c))
    snip_slot nm (pool_max_size_ (this w)) w1) as (w' & Hrun & Ht & He & Hlen & Hcells).
  - done.
  - split; [done|]. split; [done|]. split; [by rewrite Hh|].
    intros l c Hc. rewrite Nat.sub_diag, take_0, Hh.
    by rewrite bool_decide_eq_false_2 by apply not_elem_of_nil.
  - intros j wj Hj (Ht & He & Hlen & Hcells).
    destruct (slot_live w j Hwf ltac:(lia)) as (lj & c & Hq & Hc).
    pose proof (Hcells _ _ Hc) as Hcj.
    unfold snip_slot. erewrite bind_run; [|apply vec_at_run; by rewrite Ht, Hv].
    rewrite (update_run _ _ _ _ Hcj). eexists. split; [done|]. simpl.
    split; [done|]. split; [done|]. split; [by rewrite length_insert|].
    intros l c' Hc'.
    replace (S j - nm) with (S (j - nm)) by lia.
    rewrite (take_S_r _ _ (Some lj))
      by (rewrite lookup_drop; by replace (nm + (j - nm)) with j by lia).
    destruct (decide (l = lj)) as [->|Hne].
    + rewrite list_lookup_insert_eq by (rewrite Hlen; by apply lookup_lt_Some in Hc).
      assert (c' = c) as -> by congruence.
      rewrite (bool_decide_eq_true_2 (Some lj ∈ _ ++ [Some lj]))
        by (apply elem_of_app; right; by apply list_elem_of_singleton).
      by destruct (bool_decide _).
    + rewrite list_lookup_insert_ne by done. rewrite (Hcells _ _ Hc').
      f_equal.
      rewrite (bool_decide_ext (Some l ∈ _ ++ [Some lj])
                 (Some l ∈ take (j - nm) (drop nm (v_connections_ (this w))))); [done|].
      rewrite elem_of_app, list_elem_of_singleton.
      split; [intros [?|[= ?]]; done | by left].
  - exists (heap w'). destruct w' as [h' p' e']. simpl in *. subst p' e'.
    split; [done|]. split; [done|].
    intros l c Hc. rewrite (Hcells _ _ Hc).
    rewrite take_ge; [done|]. rewrite length_drop, (wf_slots _ Hwf). lia.
Qed.

Lemma resize_pool_shrink w nm ep :
  pool_wf w → nm < pool_max_size_ (this w) →
  ∃ h', resize_pool disconnected nm ep w =
          Some ((), mkWorld h'
                      (set_pool_max_size_ nm
                         (set_v_connections_ (take nm (v_connections_ (this w)))
                            (set_bs_used_ (take nm (bs_used_ (this w))) (this w))))
                      (events w ++ [log_srv_dbg "reducing max pool size"])) ∧
        length h' = length (heap w) ∧
        ∀ l c, heap w !! l = Some c →
          h' !! l = Some (if bool_decide (Some l ∈ drop nm (v_connections_ (this w)))
                          then Connection_mark_as_snipped c else c).
Proof.
  intros Hwf Hnm.
  set (w1 := mkWorld (heap w) (set_bs_used_ (take nm (bs_used_ (this w))) (this w))
               (events w ++ [log_srv_dbg "reducing max pool size"])).
  destruct (snip_loop w w1 nm Hwf (Nat.lt_le_incl _ _ Hnm) eq_refl eq_refl)
    as (h' & Hrun & Hlen & Hcells).
  exists h'. split; [|done].
  unfold resize_pool. rewrite (bind_run _ _ _ (this w) w) by done.
  rewrite (decide_True (P := nm ≠ pool_max_size_ (this w))) by lia.
  erewrite bind_run; [|done].
  rewrite (decide_True (P := nm < pool_max_size_ (this w))) by lia.
  erewrite bind_run;
    [|erewrite bind_run; [|done]; simpl;
      rewrite bitset_resize_shrink by (rewrite (wf_used _ Hwf); lia); exact Hrun].
  erewrite bind_run; [|done].
  rewrite (decide_False (P := pool_max_size_ (this w) < nm)) by lia.
  erewrite bind_run; [|done].
  unfold modify_this. simpl.
  by rewrite vector_resize_shrink by (rewrite (wf_slots _ Hwf); lia).
Qed.

(** ** Growing *)

Lemma grown_start w from : grown w from from w.
Proof.
  split; [|split; [|split; [|split]]]; try done.
  - exists (v_connections_ (this w)). by destruct (this w).
  - intros i Hi. lia.
  - lia.
Qed.

Lemma vec_assign_run w i q :
  i < length (v_connections_ (this w)) →
  vec_assign i q w =
    Some ((), mkWorld (heap w)
                (set_v_connections_ (<[i := q]> (v_connections_ (this w))) (this w))
                (events w)).
Proof.
  intros Hi. unfold vec_assign. rewrite (bind_run _ _ _ (this w) w) by done.
  by rewrite decide_True.
Qed.


Lemma assigned_run wj j c :
  j < length (v_connections_ (this wj)) →
  (conn ← make_shared c; vec_assign j conn) wj = Some ((), assigned wj j c).
Proof.
  intros Hj. erewrite bind_run; [|done]. by rewrite vec_assign_run.
Qed.

Lemma grown_assigned w from j wj c :
  grown w from j wj → from ≤ j < length (v_connections_ (this w)) →
  grown w from (S j) (assigned wj j c).
Proof.
  intros ([v Hthis] & Hlen & Hold & Hnew & Hheap) Hj.
  assert (j < length (v_connections_ (this wj))) as Hjlen by lia.
  unfold assigned.
  rewrite Hthis. simpl. rewrite Hthis in Hlen, Hold, Hnew, Hjlen. simpl in *.
  split; [|split; [|split; [|split]]]; simpl.
  - by eexists.
  - by rewrite length_insert.
  - intros i Hi. rewrite list_lookup_insert_ne by lia. by apply Hold.
  - intros i Hi. destruct (decide (i = j)) as [->|Hne].
    + rewrite list_lookup_insert_eq by done. rewrite Hheap. done.
    + rewrite list_lookup_insert_ne by done. apply Hnew. lia.
  - rewrite length_app, Hheap. simpl. lia.
Qed.

Lemma grown_length w from j wj :
  grown w from j wj →
  length (v_connections_ (this wj)) = length (v_connections_ (this w)).
Proof. by intros (_ & Hlen & _). Qed.

Lemma new_slot_grown w from j wj ep :
  grown w from j wj → from ≤ j < length (v_connections_ (this w)) →
  ∃ wj', new_slot disconnected ep j wj = Some ((), wj') ∧ grown w from (S j) wj'.
Proof.
  intros Hg Hj. unfold new_slot.
  rewrite assigned_run by (rewrite (grown_length _ _ _ _ Hg); lia).
  eexists. split; [done|]. by apply grown_assigned.
Qed.

Lemma grown_settled w from j wj wj' :
  grown w from j wj → settled wj wj' → grown w from j wj'.
Proof.
  intros (Hthis & Hlen & Hold & Hnew & Hheap) [Ht [Hhl _]].
  split; [|split; [|split; [|split]]]; rewrite ?Ht, ?Hhl; done.
Qed.

Lemma construct_slot_grown w j wj :
  grown w 0 j wj → j < length (v_connections_ (this w)) →
  ∃ wj', construct_slot disconnected ldap_bind j wj = Some ((), wj') ∧ grown w 0 (S j) wj'.
Proof.
  intros Hg Hj.
  pose proof (grown_length _ _ _ _ Hg) as Hlen.
  set (c := Connection_new disconnected j (pool_endpoint (this wj))).
  pose proof (grown_assigned w 0 j wj c Hg ltac:(lia)) as Hg'.
  unfold construct_slot. rewrite (bind_run _ _ _ (this wj) wj) by done.
  erewrite bind_run; [|done].
  erewrite bind_run; [|apply vec_assign_run; simpl; lia].
  change (mkWorld _ _ _) with (assigned wj j c).
  destruct (decide (j < pool_initial_size_ (this wj))); [|by eexists].
  erewrite bind_run;
    [|apply vec_at_run; simpl; apply list_lookup_insert_eq; lia].
  edestruct (connect_settled (assigned wj j c)) as (st & w2 & Hrun2 & Hs2);
    [|rewrite (bind_run _ _ _ _ _ Hrun2)].
  { simpl. by apply list_lookup_middle. }
  exists w2. split; [done|]. by eapply grown_settled.
Qed.

(** After the slots from [from] up to the size have their handles, the
    pool is well formed. *)
Lemma grown_wf w from w' w'' n :
  grown w from n w' → from ≤ n →
  length (v_connections_ (this w)) = n → length (bs_used_ (this w)) = n →
  (∀ i q, i < from → v_connections_ (this w) !! i = Some q →
          ∃ l, q = Some l ∧ l < length (heap w)) →
  NoDup (take from (v_connections_ (this w))) →
  length (heap w'') = length (heap w') →
  bs_used_ (this w'') = bs_used_ (this w') →
  v_connections_ (this w'') = v_connections_ (this w') →
  pool_max_size_ (this w'') = n →
  pool_wf w''.
Proof.
  intros ([v Hthis] & Hlen & Hold & Hnew & Hheap) Hfrom Hlv Hlb Hlive Hnd Hh Hb Hv Hmax.
  assert (∀ i q, v_connections_ (this w') !! i = Some q →
            (i < from ∧ v_connections_ (this w) !! i = Some q) ∨
            (from ≤ i < n ∧ q = Some (length (heap w) + (i - from)))) as Hcases.
  { intros i p Hp. pose proof (lookup_lt_Some _ _ _ Hp) as Hi. rewrite Hlen, Hlv in Hi.
    destruct (decide (i < from)) as [Hlt|Hge].
    - left. split; [done|]. by rewrite <- Hold.
    - right. split; [lia|]. rewrite Hnew in Hp by lia. congruence. }
  split.
  - rewrite Hb, Hmax, Hthis. simpl. done.
  - by rewrite Hv, Hlen, Hmax.
  - rewrite Hv, Hh, Hheap. intros i p Hp.
    destruct (Hcases _ _ Hp) as [[Hi Hp']|[Hi ->]].
    + destruct (Hlive _ _ Hi Hp') as (l & -> & Hl). exists l. split; [done | lia].
    + eexists. split; [done | lia].
  - rewrite Hv. apply NoDup_alt. intros i j p Hi Hj.
    destruct (Hcases _ _ Hi) as [[Hi1 Hi2]|[Hi1 ->]];
      destruct (Hcases _ _ Hj) as [[Hj1 Hj2]|[Hj1 Hj2]].
    + rewrite NoDup_alt in Hnd. apply (Hnd i j p); by rewrite lookup_take_lt.
    + subst p. destruct (Hlive _ _ Hi1 Hi2) as (l & [= <-] & Hl). lia.
    + destruct (Hlive _ _ Hj1 Hj2) as (l & [= <-] & Hl). lia.
    + injection Hj2 as Hj2. lia.
Qed.

Lemma resize_pool_same w ep :
  resize_pool disconnected (pool_max_size_ (this w)) ep w = Some ((), w).
Proof.
  unfold resize_pool. rewrite (bind_run _ _ _ (this w) w) by done.
  destruct (decide (pool_max_size_ (this w) ≠ pool_max_size_ (this w))); done.
Qed.

Lemma resize_pool_grow w nm ep :
  pool_wf w → pool_max_size_ (this w) < nm →
  ∃ w', resize_pool disconnected nm ep w = Some ((), w') ∧ pool_wf w' ∧
        pool_max_size_ (this w') = nm.
Proof.
  intros Hwf Hnm.
  set (w1 := mkWorld (heap w)
               (set_v_connections_ (vector_resize nm (v_connections_ (this w)))
                  (set_bs_used_ (bitset_resize nm (bs_used_ (this w))) (this w)))
               (events w ++ [log_srv_dbg "extending max pool size"])).
  assert (length (v_connections_ (this w1)) = nm) as Hlv
    by (simpl; apply length_vector_resize).
  destruct (for_range_inv (grown w1 (pool_max_size_ (this w)))
              (new_slot disconnected ep) (pool_max_size_ (this w)) nm w1)
    as (w2 & Hrun & Hg); [lia | apply grown_start | |].
  { intros j wj Hj Hg. apply new_slot_grown; [done | lia]. }
  exists (mkWorld (heap w2) (set_pool_max_size_ nm (this w2)) (events w2)).
  split; [|split; [|done]].
  - unfold resize_pool. rewrite (bind_run _ _ _ (this w) w) by done.
    rewrite (decide_True (P := nm ≠ pool_max_size_ (this w))) by lia.
    erewrite bind_run; [|done].
    rewrite (decide_False (P := nm < pool_max_size_ (this w))) by lia.
    erewrite bind_run; [|done].
    erewrite bind_run; [|done].
    rewrite (decide_True (P := pool_max_size_ (this w) < nm)) by lia.
    erewrite bind_run; [|erewrite bind_run; [|done]; exact Hrun].
    done.
  - apply (grown_wf w1 (pool_max_size_ (this w)) w2 _ nm); try done; try lia.
    + simpl. apply length_bitset_resize.
    + intros i q Hi Hq. simpl in Hq. unfold vector_resize in Hq.
      rewrite take_ge in Hq by (rewrite (wf_slots _ Hwf); lia).
      rewrite lookup_app_l in Hq by (rewrite (wf_slots _ Hwf); lia).
      by apply (wf_live _ Hwf i).
    + simpl. unfold vector_resize.
      rewrite (take_ge (v_connections_ (this w))) by (rewrite (wf_slots _ Hwf); lia).
      rewrite take_app_length' by (by rewrite (wf_slots _ Hwf)).
      apply (wf_nodup _ Hwf).
Qed.

Lemma pool_wf_take w nm (h' : list (@Connection Session)) evs :
  pool_wf w → nm ≤ pool_max_size_ (this w) → length h' = length (heap w) →
  pool_wf (mkWorld h'
             (set_pool_max_size_ nm
                (set_v_connections_ (take nm (v_connections_ (this w)))
                   (set_bs_used_ (take nm (bs_used_ (this w))) (this w))))
             evs).
Proof.
  intros [H1 H2 H3 H4] Hnm Hlen. split; simpl.
  - rewrite length_take. lia.
  - rewrite length_take. lia.
  - intros i q Hq. rewrite Hlen. apply (H3 i).
    apply lookup_take_Some in Hq. tauto.
  - rewrite <- (take_drop nm (v_connections_ (this w))) in H4.
    by apply NoDup_app in H4 as [? _].
Qed.

Lemma resize_pool_wf w nm ep :
  pool_wf w →
  ∃ w', resize_pool disconnected nm ep w = Some ((), w') ∧ pool_wf w' ∧
        pool_max_size_ (this w') = nm.
Proof.
  intros Hwf. destruct (Nat.lt_trichotomy nm (pool_max_size_ (this w))) as [Hlt|[->|Hgt]].
  - destruct (resize_pool_shrink w nm ep Hwf Hlt) as (h' & -> & Hlen & _).
    eexists. split; [done|]. split; [|done]. apply pool_wf_take; [done | lia | done].
  - rewrite resize_pool_same. by exists w.
  - by apply resize_pool_grow.
Qed.

Lemma pool_wf_settings w ni ep ca dn pw :
  pool_wf w →
  pool_wf (mkWorld (heap w) (set_settings ni ep ca dn pw (this w)) (events w)).
Proof. intros [H1 H2 H3 H4]. by split. Qed.

Lemma pool_wf_events w e : pool_wf w → pool_wf (mkWorld (heap w) (this w) (events w ++ [e])).
Proof. intros [H1 H2 H3 H4]. by split. Qed.

(** [reconfigure] up to its last loop: the sweep gives [wz], the resize
    [wr]; storing the settings and configuring every slot leave the state
    [w1], on which the last loop runs. *)
Lemma reconfigure_prefix w ni nm ep ca dn pw :
  pool_wf w →
  ∃ wz wr w1,
    zombie_control zombie_probe
      (mkWorld (heap w) (this w) (events w ++ [log_srv_dbg "Pool::reconfigure()"])) =
      Some ((), wz) ∧
    pool_wf wz ∧
    resize_pool disconnected nm ep wz = Some ((), wr) ∧
    pool_max_size_ (this wr) = nm ∧
    settled (mkWorld (heap wr) (set_settings ni ep ca dn pw (this wr)) (events wr)) w1 ∧
    pool_wf w1 ∧
    reconfigure disconnected ldap_bind zombie_probe ni nm ep ca dn pw w =
      for_range 0 ni (connect_slot ldap_bind) w1.
Proof.
  intros Hwf.
  set (w0 := mkWorld (heap w) (this w) (events w ++ [log_srv_dbg "Pool::reconfigure()"])).
  assert (pool_wf w0) as Hwf0 by by apply pool_wf_events.
  destruct (zombie_control_run w0 Hwf0) as (wz & Hz & Hsw).
  pose proof (swept_wf _ _ _ Hwf0 Hsw) as Hwfz.
  destruct (resize_pool_wf wz nm ep Hwfz) as (wr & Hr & Hwfr & Hmax).
  set (ws := mkWorld (heap wr) (set_settings ni ep ca dn pw (this wr)) (events wr)).
  assert (pool_wf ws) as Hwfs by by apply pool_wf_settings.
  destruct (settled_loop (configure_slot ldap_bind) ws (pool_max_size_ (this ws)) Hwfs)
    as (w1 & Hrun1 & Hs1); [done | |].
  { intros i wj Hwfj Hi. by apply configure_slot_settled. }
  exists wz, wr, w1. split; [done|]. split; [done|]. split; [done|]. split; [done|].
  split; [done|]. split; [by apply (settled_wf ws)|].
  unfold reconfigure.
  erewrite bind_run; [|done]. fold w0.
  rewrite (bind_run _ _ _ _ _ Hz), (bind_run _ _ _ _ _ Hr).
  erewrite bind_run; [|done]. fold ws.
  rewrite (bind_run _ _ _ (this ws) ws) by done.
  by rewrite (bind_run _ _ _ _ _ Hrun1).
Qed.

(** The result of [reconfigure] when the new initial size is within the new
    size: the last loop leaves the pool object and the identity of the
    handles as they are after the settings were stored. *)
Lemma reconfigure_run w ni nm ep ca dn pw :
  pool_wf w → ni ≤ nm →
  ∃ wz wr w',
    zombie_control zombie_probe
      (mkWorld (heap w) (this w) (events w ++ [log_srv_dbg "Pool::reconfigure()"])) =
      Some ((), wz) ∧
    pool_wf wz ∧
    resize_pool disconnected nm ep wz = Some ((), wr) ∧
    pool_max_size_ (this wr) = nm ∧
    reconfigure disconnected ldap_bind zombie_probe ni nm ep ca dn pw w = Some ((), w') ∧
    settled (mkWorld (heap wr) (set_settings ni ep ca dn pw (this wr)) (events wr)) w' ∧
    pool_wf w'.
Proof.
  intros Hwf Hni.
  destruct (reconfigure_prefix w ni nm ep ca dn pw Hwf)
    as (wz & wr & w1 & Hz & Hwfz & Hr & Hmax & Hs1 & Hwf1 & ->).
  destruct (settled_loop (connect_slot ldap_bind) w1 ni Hwf1) as (w2 & Hrun2 & Hs2).
  { destruct Hs1 as [-> _]. simpl. by rewrite Hmax. }
  { intros i wj Hwfj Hi. by apply connect_slot_settled. }
  exists wz, wr, w2. split; [done|]. split; [done|]. split; [done|]. split; [done|].
  split; [done|]. split; [by apply (settled_trans _ w1) | by apply (settled_wf w1)].
Qed.

(** With a new initial size beyond the new size the last loop of
    [reconfigure] indexes the slot vector at its end: the behaviour is
    undefined. *)
Lemma reconfigure_initial_beyond_max w ni nm ep ca dn pw :
  pool_wf w → nm < ni →
  reconfigure disconnected ldap_bind zombie_probe ni nm ep ca dn pw w = None.
Proof.
  intros Hwf Hni.
  destruct (reconfigure_prefix w ni nm ep ca dn pw Hwf)
    as (wz & wr & w1 & Hz & Hwfz & Hr & Hmax & Hs1 & Hwf1 & ->).
  assert (pool_max_size_ (this w1) = nm) as Hmax1
    by (destruct Hs1 as [-> _]; by simpl).
  unfold for_range.
  apply (for_loop_fails (λ _ wj, settled w1 wj) _ _ _ nm); [lia | apply settled_refl | |].
  - intros j wj Hj Hs.
    destruct (connect_slot_settled wj j) as (wj' & Hrun & Hs').
    + by apply (settled_wf w1).
    + destruct Hs as [-> _]. lia.
    + exists wj'. split; [done|]. by apply (settled_trans _ wj).
  - intros wk [Hthis _]. apply connect_slot_out_of_range.
    rewrite Hthis, (wf_slots _ Hwf1). lia.
Qed.

Lemma swept_same_id w j wj :
  pool_wf w → swept zombie_probe w j wj → heap_rel same_id (heap w) (heap wj).
Proof.
  intros Hwf (_ & _ & _ & Hhlen & Hslots & Hout & _). split; [done|].
  intros l c Hc.
  destruct (decide (Some l ∈ v_connections_ (this w))) as [Hin|Hnin].
  - apply list_elem_of_lookup in Hin as [i Hi].
    rewrite (Hslots _ _ _ Hi Hc). eexists. split; [done|].
    destruct (decide _); [|done]. by destruct (reclaimed _ _ _).
  - rewrite (Hout _ Hnin). exists c. by split.
Qed.

Lemma elem_of_drop_slots (v : list (option nat)) nm l :
  Some l ∈ drop nm v ↔ ∃ i, nm ≤ i < length v ∧ v !! i = Some (Some l).
Proof.
  rewrite list_elem_of_lookup. split.
  - intros [k Hk]. rewrite lookup_drop in Hk. exists (nm + k).
    split; [|done]. apply lookup_lt_Some in Hk. lia.
  - intros (i & Hi & Hl). exists (i - nm). rewrite lookup_drop.
    by replace (nm + (i - nm)) with i by lia.
Qed.

(** C4, amended: a [reconfigure] to a smaller size completes (the new
    initial size being at most the new size); the slot vector is cut to its
    first [nm] handles and the bitmap to [nm] bits, each low bit being the
    bit before the call except that the sweep which opens [reconfigure] has
    cleared the bits of lent zombie slots; the handles that are snipped by
    the call are exactly those of the slots from [nm] up to the old size;
    no handle changes its index. *)
Theorem reconfigure_shrink w ni nm ep ca dn pw :
  pool_wf w → nm < pool_max_size_ (this w) → ni ≤ nm →
  ∃ w',
    reconfigure disconnected ldap_bind zombie_probe ni nm ep ca dn pw w = Some ((), w') ∧
    pool_max_size_ (this w') = nm ∧
    length (bs_used_ (this w')) = nm ∧
    (∀ i b, i < nm → bs_used_ (this w) !! i = Some b →
       bs_used_ (this w') !! i = Some (if reclaimed zombie_probe w i then false else b)) ∧
    v_connections_ (this w') = take nm (v_connections_ (this w)) ∧
    length (heap w') = length (heap w) ∧
    (∀ l c, heap w !! l = Some c →
       ∃ c', heap w' !! l = Some c' ∧ idx_pool_ c' = idx_pool_ c ∧
             snipped_ c' =
               snipped_ c || bool_decide (Some l ∈ drop nm (v_connections_ (this w)))) ∧
    (∀ l, Some l ∈ drop nm (v_connections_ (this w)) ↔
          ∃ i, nm ≤ i < pool_max_size_ (this w) ∧
               v_connections_ (this w) !! i = Some (Some l)).
Proof.
  intros Hwf Hnm Hni.
  destruct (reconfigure_run w ni nm ep ca dn pw Hwf Hni)
    as (wz & wr & w' & Hz & Hwfz & Hr & Hmax & Hrun & [Hthis Hheap] & Hwf').
  set (w0 := mkWorld (heap w) (this w) (events w ++ [log_srv_dbg "Pool::reconfigure()"]))
    in Hz.
  assert (pool_wf w0) as Hwf0 by by apply pool_wf_events.
  destruct (zombie_control_run w0 Hwf0) as (wz' & Hz' & Hsw).
  assert (wz' = wz) as -> by congruence.
  pose proof (swept_same_id _ _ _ Hwf0 Hsw) as [Hzlen Hzid].
  destruct Hsw as ([bs Hzthis] & Hblen & Hbits & _).
  assert (v_connections_ (this wz) = v_connections_ (this w)) as Hzv by by rewrite Hzthis.
  assert (pool_max_size_ (this wz) = pool_max_size_ (this w)) as Hzmax by by rewrite Hzthis.
  destruct (resize_pool_shrink wz nm ep Hwfz ltac:(lia)) as (hr & Hr' & Hrlen & Hcells).
  rewrite Hr in Hr'. injection Hr' as ->.
  simpl in Hthis, Hheap. destruct Hheap as [Hlen' Hid'].
  exists w'. split; [done|]. rewrite Hthis. simpl.
  split; [done|]. split; [|split; [|split; [|split; [|split]]]].
  - rewrite length_take, Hblen. simpl. rewrite (wf_used _ Hwf). lia.
  - intros i b Hi Hb. rewrite lookup_take_lt by done.
    rewrite (Hbits i b Hb). simpl.
    rewrite decide_True by (apply lookup_lt_Some in Hb; rewrite (wf_used _ Hwf) in Hb; lia).
    change (reclaimed zombie_probe w0 i) with (reclaimed zombie_probe w i).
    by destruct (reclaimed zombie_probe w i), b.
  - by rewrite Hzv.
  - rewrite Hlen', Hrlen. done.
  - intros l c Hc. destruct (Hzid l c Hc) as (cz & Hcz & Hidz & Hsnz).
    pose proof (Hcells l cz Hcz) as Hcr. rewrite Hzv in Hcr.
    destruct (Hid' _ _ Hcr) as (c' & Hc' & Hid & Hsn).
    exists c'. split; [done|]. rewrite Hid, Hsn.
    destruct (bool_decide _); simpl; rewrite ?Hidz, ?Hsnz; [|by rewrite orb_false_r].
    split; [done | by rewrite orb_true_r].
  - intros l. rewrite elem_of_drop_slots. by rewrite (wf_slots _ Hwf).
Qed.

(** ** The sizes agree *)

Lemma Pool_Pool_run w0 ni nm ep ca dn pw :
  ∃ w, Pool_Pool disconnected ldap_bind ni nm ep ca dn pw w0 = Some ((), w) ∧
       pool_wf w ∧ pool_max_size_ (this w) = nm ∧
       bs_used_ (this w) = replicate nm false.
Proof.
  set (w1 := mkWorld (heap w0)
               (mkPool ni nm (ep_host ep) (ep_port ep) (ep_fallback_host ep)
                  (ep_fallback_port ep) (ep_use_ssl ep) (ep_use_tls ep) ca dn pw
                  (bitset_resize nm []) (vector_resize nm []) ∅)
               (events w0 ++ [ev_global_init true ca])).
  assert (length (v_connections_ (this w1)) = nm) as Hlv
    by (simpl; apply length_vector_resize).
  destruct (for_range_inv (grown w1 0) (construct_slot disconnected ldap_bind) 0 nm w1)
    as (w2 & Hrun & Hg); [lia | apply grown_start | |].
  { intros j wj Hj Hg. apply construct_slot_grown; [done | lia]. }
  exists w2. split; [|split; [|split]].
  - unfold Pool_Pool. erewrite bind_run; [|done]. erewrite bind_run; [|done].
    erewrite bind_run; [|done]. simpl.
    erewrite bind_run; [|done]. erewrite bind_run; [|done]. exact Hrun.
  - apply (grown_wf w1 0 w2 w2 nm); try done; try lia.
    + simpl. apply length_bitset_resize.
    + simpl. apply NoDup_nil_2.
    + destruct Hg as ([v ->] & _). done.
  - destruct Hg as ([v ->] & _). done.
  - destruct Hg as ([v ->] & _). simpl. unfold bitset_resize.
    by rewrite take_nil, Nat.sub_0_r.
Qed.

Lemma pool_wf_bits w bs (h' : list (@Connection Session)) evs :
  pool_wf w → length bs = length (bs_used_ (this w)) → length h' = length (heap w) →
  pool_wf (mkWorld h' (set_bs_used_ bs (this w)) evs).
Proof.
  intros [H1 H2 H3 H4] Hb Hh. split; simpl; try done.
  - by rewrite Hb.
  - by rewrite Hh.
Qed.

Lemma pool_wf_heap w (h' : list (@Connection Session)) evs :
  pool_wf w → length h' = length (heap w) → pool_wf (mkWorld h' (this w) evs).
Proof.
  intros Hwf Hh. rewrite <- (set_bs_used_id (this w)). by apply pool_wf_bits.
Qed.

Lemma borrow_connection_wf w dc :
  pool_wf w → int_indexable w →
  ∃ r w', borrow_connection ldap_bind dc w = Some (r, w') ∧ pool_wf w' ∧
          pool_max_size_ (this w') = pool_max_size_ (this w) ∧
          length (heap w') = length (heap w).
Proof.
  intros Hwf Hint.
  destruct (bitset_all (bs_used_ (this w))) eqn:Hall.
  - rewrite borrow_connection_full;
      [|done|rewrite <- (wf_used _ Hwf); by apply bitset_count_full].
    do 2 eexists. split; [done|]. split; [by apply pool_wf_heap | done].
  - destruct (lowest_free_exists _ Hall) as [i Hfree].
    destruct (slot_live w i Hwf (lowest_free_lt _ _ Hwf Hfree)) as (l & c & Hq & Hc).
    assert (dc = true ∧
            (Connection_connect ldap_bind (bind_dn_ (this w)) (bind_pwd_ (this w)) c).1
              = FAILURE ∨
            (dc = true →
             (Connection_connect ldap_bind (bind_dn_ (this w)) (bind_pwd_ (this w)) c).1
               = SUCCESS)) as [[-> Hst]|Hst].
    { destruct dc; [|by right].
      destruct (Connection_connect _ _ _ _).1; [by right | by left]. }
    + rewrite (borrow_connection_failed w i l c) by done.
      do 2 eexists. split; [done|]. simpl.
      split; [apply pool_wf_heap; [done | apply length_insert] |].
      split; [done | apply length_insert].
    + destruct (borrow_connection_lent w i l c dc) as [c' ->]; try done.
      do 2 eexists. split; [done|]. simpl.
      split; [apply pool_wf_bits; [done | apply length_insert..] |].
      split; [by destruct (this w) | apply length_insert].
Qed.

Lemma return_connection_wf w l :
  pool_wf w → l < length (heap w) →
  ∃ w', return_connection (Some l) w = Some ((), w') ∧ pool_wf w' ∧
        pool_max_size_ (this w') = pool_max_size_ (this w) ∧
        length (heap w') = length (heap w).
Proof.
  intros Hwf Hl. destruct (lookup_lt_is_Some_2 _ _ Hl) as [c Hc].
  destruct (snipped_ c) eqn:Hs.
  - rewrite (return_connection_snipped_run _ _ _ Hc Hs).
    eexists. split; [done|]. simpl.
    split; [apply pool_wf_heap; [done | apply length_insert] |].
    split; [done | apply length_insert].
  - destruct (return_connection_kept _ _ _ Hc Hs) as (evs & Hrun & _).
    simpl in Hrun. rewrite Hrun. eexists. split; [done|]. simpl.
    split; [apply pool_wf_bits; [done | apply length_insert..] |].
    split; [by destruct (this w) | apply length_insert].
Qed.

Lemma resize_pool_sized w nm ep w' :
  sized (this w) → resize_pool disconnected nm ep w = Some ((), w') →
  sized (this w') ∧ pool_max_size_ (this w') = nm.
Proof.
  intros Hsz Hrun. unfold resize_pool in Hrun.
  apply bind_inv in Hrun as (p & w1 & [= <- <-] & Hrun).
  destruct (decide (nm ≠ pool_max_size_ (this w))) as [Hne|Heq].
  - apply bind_inv in Hrun as ([] & w1 & [= <-] & Hrun).
    apply bind_inv in Hrun as ([] & w2 & H2 & Hrun).
    apply bind_inv in Hrun as ([] & w3 & [= <-] & Hrun).
    apply bind_inv in Hrun as ([] & w4 & H4 & Hrun).
    injection Hrun as <-.
    assert (sizes_kept
              (mkWorld (heap w)
                 (set_bs_used_ (bitset_resize nm (bs_used_ (this w))) (this w))
                 (events w)) w2) as (_ & Hb2 & _).
    { destruct (decide (nm < pool_max_size_ (this w))).
      - revert H2. apply keeps_bind; [apply keeps_emit|]. intros _.
        apply keeps_for_loop, keeps_snip_slot.
      - revert H2. apply keeps_ret. }
    assert (sizes_kept
              (mkWorld (heap w2)
                 (set_v_connections_ (vector_resize nm (v_connections_ (this w2))) (this w2))
                 (events w2)) w4) as (_ & Hb4 & Hv4 & _).
    { destruct (decide (pool_max_size_ (this w) < nm)).
      - revert H4. apply keeps_bind; [apply keeps_emit|]. intros _.
        apply keeps_for_loop, keeps_new_slot.
      - revert H4. apply keeps_ret. }
    simpl in *. split; [|done]. split; simpl.
    + destruct (this w4); simpl in *. rewrite Hb4.
      destruct (this w2); simpl in *. rewrite Hb2. apply length_bitset_resize.
    + destruct (this w4); simpl in *. rewrite Hv4.
      destruct (this w2); simpl in *. apply length_vector_resize.
  - injection Hrun as <-. split; [done | lia].
Qed.

Lemma reconfigure_sized w ni nm ep ca dn pw w' :
  sized (this w) →
  reconfigure disconnected ldap_bind zombie_probe ni nm ep ca dn pw w = Some ((), w') →
  sized (this w') ∧ pool_max_size_ (this w') = nm.
Proof.
  intros Hsz Hrun. unfold reconfigure in Hrun.
  apply bind_inv in Hrun as ([] & w1 & [= <-] & Hrun).
  apply bind_inv in Hrun as ([] & w2 & H2 & Hrun).
  apply bind_inv in Hrun as ([] & w3 & H3 & Hrun).
  apply bind_inv in Hrun as ([] & w4 & [= <-] & Hrun).
  apply bind_inv in Hrun as (p & w5 & [= <- <-] & Hrun).
  apply bind_inv in Hrun as ([] & w6 & H6 & Hrun).
  apply keeps_zombie_control in H2.
  apply (sizes_kept_sized _ _ H2) in Hsz.
  destruct (resize_pool_sized _ _ _ _ Hsz H3) as [Hsz3 Hmax3].
  apply (keeps_for_loop _ _ _ keeps_configure_slot) in H6 as (Hm6 & Hb6 & Hv6 & _).
  apply (keeps_for_loop _ _ _ keeps_connect_slot) in Hrun as (Hm & Hb & Hv & _).
  destruct Hsz3 as [Hs1 Hs2]. simpl in *.
  split; [split|]; congruence.
Qed.

Lemma run_ops_wf ops w :
  pool_wf w → int_indexable w → Forall (op_valid w) ops →
  ∃ w', run_ops ldap_bind ops w = Some ((), w') ∧ pool_wf w' ∧
        pool_max_size_ (this w') = pool_max_size_ (this w).
Proof.
  revert w. induction ops as [|o ops IH]; intros w Hwf Hint Hval.
  - exists w. by split.
  - apply Forall_cons in Hval as [Ho Hval].
    assert (∃ w1, run_op ldap_bind o w = Some ((), w1) ∧ pool_wf w1 ∧
                  pool_max_size_ (this w1) = pool_max_size_ (this w) ∧
                  length (heap w1) = length (heap w)) as (w1 & Hrun & Hwf1 & Hmax & Hlen).
    { destruct o as [dc|l]; simpl.
      - destruct (borrow_connection_wf w dc Hwf Hint) as (r & w1 & Hrun & ?).
        exists w1. by rewrite (bind_run _ _ _ _ _ Hrun).
      - by apply return_connection_wf. }
    destruct (IH w1) as (w' & Hrun' & Hwf' & Hmax'); [done | | |].
    + unfold int_indexable in *. by rewrite Hmax.
    + eapply Forall_impl; [done|]. intros [dc|l]; simpl; [done|]. by rewrite Hlen.
    + exists w'. simpl. rewrite (bind_run _ _ _ _ _ Hrun).
      split; [done|]. split; [done | congruence].
Qed.

(** C3: the constructor completes with a bitmap and a slot vector of
    [pool_max_size_] entries; every call of [borrow_connection],
    [return_connection], [reconfigure] and [zombie_control] that completes
    from a state where the three sizes agree ends in such a state; on a
    well-formed pool the calls do complete ([reconfigure] exactly when the
    new initial size is within the new size); and after every run of
    borrows and returns the number of set bits lies between zero and
    [pool_max_size_]. *)
Theorem sizes_agree :
  (∀ w0 ni nm ep ca dn pw,
     ∃ w, Pool_Pool disconnected ldap_bind ni nm ep ca dn pw w0 = Some ((), w) ∧
          sized (this w) ∧ pool_max_size_ (this w) = nm) ∧
  (∀ w, sized (this w) →
     (∀ dc r w', borrow_connection ldap_bind dc w = Some (r, w') → sized (this w')) ∧
     (∀ conn w', return_connection conn w = Some ((), w') → sized (this w')) ∧
     (∀ ni nm ep ca dn pw w',
        reconfigure disconnected ldap_bind zombie_probe ni nm ep ca dn pw w = Some ((), w') →
        sized (this w') ∧ pool_max_size_ (this w') = nm) ∧
     (∀ w', zombie_control zombie_probe w = Some ((), w') → sized (this w'))) ∧
  (∀ w, pool_wf w →
     (int_indexable w → ∀ dc, ∃ r w', borrow_connection ldap_bind dc w = Some (r, w')) ∧
     (∀ l, l < length (heap w) → ∃ w', return_connection (Some l) w = Some ((), w')) ∧
     (∀ ni nm ep ca dn pw,
        (ni ≤ nm →
         ∃ w', reconfigure disconnected ldap_bind zombie_probe ni nm ep ca dn pw w
               = Some ((), w')) ∧
        (nm < ni →
         reconfigure disconnected ldap_bind zombie_probe ni nm ep ca dn pw w = None)) ∧
     (∃ w', zombie_control zombie_probe w = Some ((), w'))) ∧
  (∀ w ops, pool_wf w → int_indexable w → Forall (op_valid w) ops →
     ∃ w', run_ops ldap_bind ops w = Some ((), w') ∧
           sized (this w') ∧
           pool_max_size_ (this w') = pool_max_size_ (this w) ∧
           0 ≤ bitset_count (bs_used_ (this w')) ≤ pool_max_size_ (this w')).
Proof.
  split; [|split; [|split]].
  - intros w0 ni nm ep ca dn pw.
    destruct (Pool_Pool_run w0 ni nm ep ca dn pw) as (w & Hrun & Hwf & Hmax & _).
    exists w. split; [done|]. split; [by apply pool_wf_sized | done].
  - intros w Hsz. split; [|split; [|split]].
    + intros dc r w' Hrun. eapply sizes_kept_sized; [|done].
      by eapply keeps_borrow_connection.
    + intros conn w' Hrun. eapply sizes_kept_sized; [|done].
      by eapply keeps_return_connection.
    + intros ni nm ep ca dn pw w' Hrun. by eapply reconfigure_sized.
    + intros w' Hrun. eapply sizes_kept_sized; [|done].
      by eapply keeps_zombie_control.
  - intros w Hwf. split; [|split; [|split]].
    + intros Hint dc. destruct (borrow_connection_wf w dc Hwf Hint) as (r & w' & Hrun & _).
      by exists r, w'.
    + intros l Hl. destruct (return_connection_wf w l Hwf Hl) as (w' & Hrun & _).
      by exists w'.
    + intros ni nm ep ca dn pw. split.
      * intros Hni.
        destruct (reconfigure_run w ni nm ep ca dn pw Hwf Hni)
          as (wz & wr & w' & _ & _ & _ & _ & Hrun & _).
        by exists w'.
      * intros Hni. by apply reconfigure_initial_beyond_max.
    + destruct (zombie_control_run w Hwf) as (w' & Hrun & _). by exists w'.
  - intros w ops Hwf Hint Hval.
    destruct (run_ops_wf ops w Hwf Hint Hval) as (w' & Hrun & Hwf' & Hmax).
    exists w'. split; [done|]. split; [by apply pool_wf_sized|]. split; [done|].
    split; [lia|]. rewrite <- (wf_used _ Hwf'). apply bitset_count_le.
Qed.

(** ** More on the group-role mapping *)

(** X1: whatever the text, the mapping that [reset_group_role_mapping]
    leaves is never empty, and it has at most one group for each entry
    between commas; nothing else of the state changes. *)
Theorem reset_group_role_mapping_size w mapping :
  ∃ w', reset_group_role_mapping mapping w = Some ((), w') ∧
        group_role_mapping_ (this w') ≠ ∅ ∧
        1 ≤ size (group_role_mapping_ (this w')) ≤ length (split (is_any_of ",") mapping) ∧
        heap w' = heap w ∧ events w' = events w ∧
        bs_used_ (this w') = bs_used_ (this w) ∧
        v_connections_ (this w') = v_connections_ (this w).
Proof.
  eexists. split; [done|]. simpl.
  assert (1 ≤ size (parse_group_role_mapping mapping)
            ≤ length (split (is_any_of ",") mapping)) as Hsize.
  { unfold parse_group_role_mapping.
    destruct (split_head (is_any_of ",") mapping) as [ts ->]. cbn [foldl length].
    pose proof (foldl_add_role_size (add_role ∅ (until_sep (is_any_of ",") mapping)) ts).
    pose proof (add_role_size ∅ (until_sep (is_any_of ",") mapping)) as Hone.
    rewrite map_size_empty in Hone.
    pose proof (add_role_non_empty ∅ (until_sep (is_any_of ",") mapping)) as Hne.
    apply map_size_non_empty_iff in Hne. lia. }
  split; [|done]. apply map_size_non_empty_iff. lia.
Qed.

(** X2: appending [,group=role] to the text, where group and role have
    neither comma nor equals sign, gives the mapping of the text with that
    group set to that role: the group is added or overridden, every other
    group is as the shorter text leaves it. *)
Theorem reset_group_role_mapping_append w mapping g r :
  plain g = true → plain r = true →
  ∃ w1 w2,
    reset_group_role_mapping mapping w = Some ((), w1) ∧
    reset_group_role_mapping (mapping +:+ "," +:+ g +:+ "=" +:+ r) w = Some ((), w2) ∧
    group_role_mapping_ (this w2) = <[g := r]> (group_role_mapping_ (this w1)) ∧
    group_role_mapping_ (this w2) !! g = Some r ∧
    (∀ g', g' ≠ g →
       group_role_mapping_ (this w2) !! g' = group_role_mapping_ (this w1) !! g').
Proof.
  intros Hg Hr. do 2 eexists. split; [done|]. split; [done|]. simpl.
  assert (parse_group_role_mapping (mapping +:+ "," +:+ g +:+ "=" +:+ r) =
          <[g := r]> (parse_group_role_mapping mapping)) as ->.
  { change (g +:+ "=" +:+ r) with (entry_of (g, r)).
    rewrite parse_group_role_mapping_app by by apply entry_of_comma_free.
    unfold plain in Hg, Hr.
    apply andb_true_iff in Hg as [_ Hg]. apply andb_true_iff in Hr as [_ Hr].
    by apply add_role_entry. }
  split; [done|]. split; [apply lookup_insert_eq|].
  intros g' Hne. by apply lookup_insert_ne.
Qed.

(** X3: the text of a list of entries that is not empty, written as
    [group=role] and separated by commas, is read back as that list: a
    later entry wins over an earlier one with the same group, and when the
    groups are distinct the mapping holds exactly the entries. *)
Theorem reset_group_role_mapping_round_trip w entries :
  entries ≠ [] →
  forallb (λ gr, plain gr.1 && plain gr.2) entries = true →
  ∃ w', reset_group_role_mapping (mapping_text entries) w = Some ((), w') ∧
        group_role_mapping_ (this w') = list_to_map (reverse entries) ∧
        (NoDup entries.*1 →
         ∀ g r, (g, r) ∈ entries ↔ group_role_mapping_ (this w') !! g = Some r).
Proof.
  intros Hne Hall. eexists. split; [done|]. simpl.
  assert (parse_group_role_mapping (mapping_text entries) =
          list_to_map (reverse entries)) as ->.
  { unfold parse_group_role_mapping.
    rewrite split_mapping_text, foldl_add_role_entries by done.
    by rewrite foldl_insert_list_to_map, (right_id_L ∅ (∪)). }
  split; [done|]. intros Hnd g r.
  rewrite <- elem_of_list_to_map
    by (rewrite fmap_reverse; by rewrite (reverse_Permutation entries.*1)).
  by rewrite elem_of_reverse.
Qed.

(** ** Computations that keep the handles *)

Lemma handles_ret {A} (a : A) : keeps_handles (mret a : @M Session A).
Proof. intros w a' w' [= <- <-]. split; [done | apply heap_rel_refl]. Qed.

Lemma handles_bind {A B} (m : @M Session A) (f : A → @M Session B) :
  keeps_handles m → (∀ a, keeps_handles (f a)) → keeps_handles (m ≫= f).
Proof.
  intros Hm Hf w b w' Hrun. apply bind_inv in Hrun as (a & w1 & H1 & H2).
  destruct (Hm _ _ _ H1) as [Hv1 Hh1]. destruct (Hf _ _ _ _ H2) as [Hv2 Hh2].
  split; [congruence | by eapply heap_rel_trans].
Qed.

Lemma handles_undefined {A} : keeps_handles (@undefined Session A).
Proof. by intros w a w'. Qed.

Lemma handles_get_this : keeps_handles (@get_this Session).
Proof. intros w a w' [= <- <-]. split; [done | apply heap_rel_refl]. Qed.

Lemma handles_emit e : keeps_handles (@emit Session e).
Proof. intros w a w' [= <- <-]. split; [done | apply heap_rel_refl]. Qed.

Lemma handles_deref q : keeps_handles (@deref Session q).
Proof.
  intros w a w'. unfold deref. destruct q as [l|]; [|done].
  destruct (heap w !! l); [|done]. intros [= <- <-].
  split; [done | apply heap_rel_refl].
Qed.

Lemma handles_update q (f : @Connection Session → @Connection Session) :
  (∀ c, same_id c (f c)) → keeps_handles (update q f).
Proof.
  intros Hf w a w'. unfold update. destruct q as [l|]; [|done].
  destruct (heap w !! l) as [c|] eqn:Hc; [|done]. intros [= <- <-].
  split; [done|]. simpl. eapply heap_rel_insert; [done | apply Hf].
Qed.

Lemma handles_bs_test i : keeps_handles (@bs_test Session i).
Proof.
  intros w a w'. unfold bs_test. destruct (bs_used_ (this w) !! i); [|done].
  intros [= <- <-]. split; [done | apply heap_rel_refl].
Qed.

Lemma handles_vec_at i : keeps_handles (@vec_at Session i).
Proof.
  intros w a w'. unfold vec_at. destruct (v_connections_ (this w) !! i); [|done].
  intros [= <- <-]. split; [done | apply heap_rel_refl].
Qed.

Lemma handles_bs_set i v : keeps_handles (@bs_set Session i v).
Proof.
  intros w a w'. unfold bs_set. rewrite bind_unfold. simpl.
  destruct (decide _); [|done]. intros [= <- <-].
  split; [done | apply heap_rel_refl].
Qed.

Lemma handles_connect q dn pw : keeps_handles (connect ldap_bind q dn pw).
Proof.
  intros w st w' Hrun. destruct q as [l|]; [|done].
  destruct (heap w !! l) as [c|] eqn:Hc.
  - rewrite (connect_run _ _ _ _ _ Hc) in Hrun. injection Hrun as <- <-.
    split; [done|]. simpl. eapply heap_rel_insert; [done | apply connect_same_id].
  - unfold connect in Hrun. rewrite bind_fail in Hrun; [done|].
    unfold deref. by rewrite Hc.
Qed.

Lemma handles_for_loop (body : nat → @M Session unit) n i :
  (∀ j, keeps_handles (body j)) → keeps_handles (for_loop i n body).
Proof.
  intros Hbody. revert i. induction n as [|n IH]; intros i; simpl.
  - apply handles_ret.
  - apply handles_bind; [apply Hbody | intros _; apply IH].
Qed.

Ltac handles_step :=
  match goal with
  | |- keeps_handles (_ ≫= _) => apply handles_bind; [|intros ?]
  | |- keeps_handles (for_range _ _ _) => unfold for_range
  | |- keeps_handles (for_loop _ _ _) => apply handles_for_loop; intros ?
  | |- keeps_handles (if ?b then _ else _) => destruct b
  | |- keeps_handles (match ?x with _ => _ end) => destruct x
  | |- keeps_handles (update _ _) => apply handles_update; intros ?; by split
  | |- keeps_handles _ =>
      first [ apply handles_ret | apply handles_undefined | apply handles_get_this
            | apply handles_emit | apply handles_deref | apply handles_bs_test
            | apply handles_vec_at | apply handles_bs_set | apply handles_connect ]
  end.

Ltac handles := repeat handles_step.

Lemma handles_mark_as_free idx : keeps_handles (@mark_as_free Session idx).
Proof. unfold mark_as_free. handles. Qed.

Lemma handles_scan_free n i : keeps_handles (@scan_free Session i n).
Proof. revert i. induction n as [|n IH]; intros i; simpl; handles. apply IH. Qed.

Lemma handles_borrow_connection dc : keeps_handles (borrow_connection ldap_bind dc).
Proof.
  unfold borrow_connection, mark_as_busy, find_first_free, get_connection.
  handles; apply handles_scan_free || apply handles_mark_as_free.
Qed.

Lemma handles_return_connection conn : keeps_handles (@return_connection Session conn).
Proof. unfold return_connection. handles; apply handles_mark_as_free. Qed.

Lemma handles_zombie_control : keeps_handles (zombie_control zombie_probe).
Proof.
  unfold zombie_control, zombie_control_slot. handles; apply handles_mark_as_free.
Qed.

Lemma handles_configure_slot i : keeps_handles (configure_slot ldap_bind i).
Proof. unfold configure_slot. handles. Qed.

Lemma handles_connect_slot i : keeps_handles (connect_slot ldap_bind i).
Proof. unfold connect_slot. handles. Qed.

(** A computation that keeps the handles keeps them in their slots. *)
Lemma handles_tagged {A} (m : @M Session A) w a w' :
  keeps_handles m → m w = Some (a, w') → slots_tagged w → slots_tagged w'.
Proof.
  intros Hm Hrun Htag. destruct (Hm _ _ _ Hrun) as [Hv [Hlen Hrel]].
  intros i l c' Hq Hc'. rewrite Hv in Hq.
  destruct (lookup_lt_is_Some_2 (heap w) l) as [c Hc];
    [rewrite <- Hlen; by apply lookup_lt_Some in Hc'|].
  destruct (Hrel _ _ Hc) as (c'' & Hc'' & Hidx & Hsn).
  assert (c'' = c') as -> by congruence.
  destruct (Htag _ _ _ Hq Hc) as [Hi Hs]. split; congruence.
Qed.

(** ** What a computation adds to the trace *)

Lemma emits_ret P {A} (a : A) : emits_only P (mret a : @M Session A).
Proof.
  intros w a' w' [= <- <-]. exists []. by rewrite app_nil_r.
Qed.

Lemma emits_bind P {A B} (m : @M Session A) (f : A → @M Session B) :
  emits_only P m → (∀ a, emits_only P (f a)) → emits_only P (m ≫= f).
Proof.
  intros Hm Hf w b w' Hrun. apply bind_inv in Hrun as (a & w1 & H1 & H2).
  destruct (Hm _ _ _ H1) as (evs1 & He1 & HP1).
  destruct (Hf _ _ _ _ H2) as (evs2 & He2 & HP2).
  exists (evs1 ++ evs2). rewrite He2, He1, app_assoc. split; [done|].
  by apply Forall_app.
Qed.

Lemma emits_undefined P {A} : emits_only P (@undefined Session A).
Proof. by intros w a w'. Qed.

Lemma emits_get_this P : emits_only P (@get_this Session).
Proof. intros w a w' [= <- <-]. exists []. by rewrite app_nil_r. Qed.

Lemma emits_modify_this P f : emits_only P (@modify_this Session f).
Proof. intros w a w' [= <- <-]. exists []. simpl. by rewrite app_nil_r. Qed.

Lemma emits_emit (P : event → Prop) e : P e → emits_only P (@emit Session e).
Proof.
  intros He w a w' [= <- <-]. exists [e]. split; [done|]. by apply Forall_singleton.
Qed.

Lemma emits_deref P q : emits_only P (@deref Session q).
Proof.
  intros w a w'. unfold deref. destruct q as [l|]; [|done].
  destruct (heap w !! l); [|done]. intros [= <- <-]. exists []. by rewrite app_nil_r.
Qed.

Lemma emits_update P q f : emits_only P (@update Session q f).
Proof.
  intros w a w'. unfold update. destruct q as [l|]; [|done].
  destruct (heap w !! l); [|done]. intros [= <- <-]. exists []. simpl. by rewrite app_nil_r.
Qed.

Lemma emits_make_shared P c : emits_only P (@make_shared Session c).
Proof. intros w a w' [= <- <-]. exists []. simpl. by rewrite app_nil_r. Qed.

Lemma emits_bs_test P i : emits_only P (@bs_test Session i).
Proof.
  intros w a w'. unfold bs_test. destruct (bs_used_ (this w) !! i); [|done].
  intros [= <- <-]. exists []. by rewrite app_nil_r.
Qed.

Lemma emits_vec_at P i : emits_only P (@vec_at Session i).
Proof.
  intros w a w'. unfold vec_at. destruct (v_connections_ (this w) !! i); [|done].
  intros [= <- <-]. exists []. by rewrite app_nil_r.
Qed.

Lemma emits_bs_set (P : event → Prop) i v :
  P (ev_bs_set i v) → emits_only P (@bs_set Session i v).
Proof.
  intros He w a w'. unfold bs_set. rewrite bind_unfold. simpl.
  destruct (decide _); [|done]. intros [= <- <-].
  exists [ev_bs_set i v]. split; [done|]. by apply Forall_singleton.
Qed.

Lemma emits_vec_assign P i q : emits_only P (@vec_assign Session i q).
Proof.
  intros w a w'. unfold vec_assign. rewrite bind_unfold. simpl.
  destruct (decide _); [|done]. intros [= <- <-]. exists []. simpl. by rewrite app_nil_r.
Qed.

Lemma emits_connect (P : event → Prop) q dn pw :
  (∀ l st, P (ev_connect l st)) → emits_only P (connect ldap_bind q dn pw).
Proof.
  intros He w st w' Hrun. destruct q as [l|]; [|done].
  destruct (heap w !! l) as [c|] eqn:Hc.
  - rewrite (connect_run _ _ _ _ _ Hc) in Hrun. injection Hrun as <- <-.
    eexists. split; [done|]. by apply Forall_singleton.
  - unfold connect in Hrun. rewrite bind_fail in Hrun; [done|].
    unfold deref. by rewrite Hc.
Qed.

Lemma emits_for_loop P (body : nat → @M Session unit) n i :
  (∀ j, emits_only P (body j)) → emits_only P (for_loop i n body).
Proof.
  intros Hbody. revert i. induction n as [|n IH]; intros i; simpl.
  - apply emits_ret.
  - apply emits_bind; [apply Hbody | intros _; apply IH].
Qed.

Ltac emits_step :=
  match goal with
  | |- emits_only _ (_ ≫= _) => apply emits_bind; [|intros ?]
  | |- emits_only _ (for_range _ _ _) => unfold for_range
  | |- emits_only _ (for_loop _ _ _) => apply emits_for_loop; intros ?
  | |- emits_only _ (if ?b then _ else _) => destruct b
  | |- emits_only _ (match ?x with _ => _ end) => destruct x
  | |- emits_only _ (emit _) => apply emits_emit; by eauto
  | |- emits_only _ (bs_set _ _) => apply emits_bs_set; by eauto
  | |- emits_only _ (connect _ _ _ _) => apply emits_connect; by eauto
  | |- emits_only _ _ =>
      first [ apply emits_ret | apply emits_undefined | apply emits_get_this
            | apply emits_modify_this | apply emits_deref | apply emits_update
            | apply emits_make_shared | apply emits_bs_test | apply emits_vec_at
            | apply emits_vec_assign ]
  end.

Ltac emits := repeat emits_step.

Lemma emits_scan_free P n i : emits_only P (@scan_free Session i n).
Proof. revert i. induction n as [|n IH]; intros i; simpl; emits. apply IH. Qed.

(** ** The three ways a borrow ends *)

Lemma borrow_connection_lent_cell w i l c dc :
  pool_wf w → int_indexable w → lowest_free (bs_used_ (this w)) i →
  v_connections_ (this w) !! i = Some (Some l) → heap w !! l = Some c →
  (dc = true →
   (Connection_connect ldap_bind (bind_dn_ (this w)) (bind_pwd_ (this w)) c).1 = SUCCESS) →
  borrow_connection ldap_bind dc w =
    Some (Some l,
          mkWorld (<[l := Connection_mark_as_busy
                            (if dc
                             then (Connection_connect ldap_bind (bind_dn_ (this w))
                                     (bind_pwd_ (this w)) c).2
                             else c)]> (heap w))
            (set_bs_used_ (<[i := true]> (bs_used_ (this w))) (this w))
            (events w ++ ev_bs_set i true ::
               (if dc then [ev_connect l SUCCESS] else []))).
Proof.
  intros Hwf Hint Hfree Hslot Hl Hst.
  pose proof (lowest_free_lt _ _ Hwf Hfree) as Hi.
  assert (Z.of_nat i < 2 ^ 31)%Z as Hi31 by (unfold int_indexable in Hint; lia).
  rewrite (borrow_connection_found _ _ _ Hwf Hint Hfree).
  destruct dc.
  - rewrite bind_unfold, (get_connection_connect _ i l c) by done.
    simpl. rewrite Hst by done. simpl.
    unfold mbind, M_bind, mret, M_ret. by rewrite <- app_assoc.
  - by erewrite bind_run; [|by apply (get_connection_plain _ i l c)].
Qed.

Lemma borrow_connection_cases w dc :
  pool_wf w → int_indexable w →
  (bitset_all (bs_used_ (this w)) = true ∧
   borrow_connection ldap_bind dc w =
     Some (None, mkWorld (heap w) (this w)
                   (events w ++ [log_srv_warn "WARNING: No available connections in the pool";
                                 ev_thread_zombie_control]))) ∨
  (∃ i l c,
     lowest_free (bs_used_ (this w)) i ∧
     v_connections_ (this w) !! i = Some (Some l) ∧ heap w !! l = Some c ∧
     ((dc = true ∧
       (Connection_connect ldap_bind (bind_dn_ (this w)) (bind_pwd_ (this w)) c).1 = FAILURE ∧
       borrow_connection ldap_bind dc w =
         Some (None,
               mkWorld (<[l := (Connection_connect ldap_bind (bind_dn_ (this w))
                                  (bind_pwd_ (this w)) c).2]> (heap w))
                 (this w)
                 (events w ++ [ev_bs_set i true; ev_connect l FAILURE;
                               log_srv_error "Connection to LDAP backend failed";
                               ev_bs_set i false]))) ∨
      ((dc = true →
        (Connection_connect ldap_bind (bind_dn_ (this w)) (bind_pwd_ (this w)) c).1 = SUCCESS) ∧
       borrow_connection ldap_bind dc w =
         Some (Some l,
               mkWorld (<[l := Connection_mark_as_busy
                                 (if dc
                                  then (Connection_connect ldap_bind (bind_dn_ (this w))
                                          (bind_pwd_ (this w)) c).2
                                  else c)]> (heap w))
                 (set_bs_used_ (<[i := true]> (bs_used_ (this w))) (this w))
                 (events w ++ ev_bs_set i true ::
                    (if dc then [ev_connect l SUCCESS] else [])))))).
Proof.
  intros Hwf Hint.
  destruct (bitset_all (bs_used_ (this w))) eqn:Hall.
  - left. split; [done|]. apply borrow_connection_full; [done|].
    rewrite <- (wf_used _ Hwf). by apply bitset_count_full.
  - right. destruct (lowest_free_exists _ Hall) as [i Hfree].
    destruct (slot_live w i Hwf (lowest_free_lt _ _ Hwf Hfree)) as (l & c & Hq & Hc).
    exists i, l, c. split; [done|]. split; [done|]. split; [done|].
    assert (dc = true ∧
            (Connection_connect ldap_bind (bind_dn_ (this w)) (bind_pwd_ (this w)) c).1
              = FAILURE ∨
            (dc = true →
             (Connection_connect ldap_bind (bind_dn_ (this w)) (bind_pwd_ (this w)) c).1
               = SUCCESS)) as [[-> Hst]|Hst].
    { destruct dc; [|by right].
      destruct (Connection_connect _ _ _ _).1; [by right | by left]. }
    + left. split; [done|]. split; [done|]. by apply borrow_connection_failed.
    + right. split; [done|]. by apply borrow_connection_lent_cell.
Qed.

(** What is known of a borrow that returned a handle. *)
Lemma borrow_connection_some w dc l w' :
  pool_wf w → int_indexable w →
  borrow_connection ldap_bind dc w = Some (Some l, w') →
  ∃ i c,
    lowest_free (bs_used_ (this w)) i ∧
    v_connections_ (this w) !! i = Some (Some l) ∧ heap w !! l = Some c ∧
    w' = mkWorld (<[l := Connection_mark_as_busy
                          (if dc
                           then (Connection_connect ldap_bind (bind_dn_ (this w))
                                   (bind_pwd_ (this w)) c).2
                           else c)]> (heap w))
           (set_bs_used_ (<[i := true]> (bs_used_ (this w))) (this w))
           (events w ++ ev_bs_set i true :: (if dc then [ev_connect l SUCCESS] else [])).
Proof.
  intros Hwf Hint Hrun.
  destruct (borrow_connection_cases w dc Hwf Hint)
    as [[_ Hfull]|(i & l' & c & Hfree & Hq & Hc & [(_ & _ & Hfail)|[_ Hlent]])];
    rewrite Hrun in *; try done.
  injection Hlent as -> ->. by exists i, c.
Qed.

Lemma connect_cell dn pw c :
  idx_pool_ (Connection_connect ldap_bind dn pw c).2 = idx_pool_ c ∧
  snipped_ (Connection_connect ldap_bind dn pw c).2 = snipped_ c ∧
  is_busy_ (Connection_connect ldap_bind dn pw c).2 = is_busy_ c ∧
  conn_endpoint_ (Connection_connect ldap_bind dn pw c).2 = conn_endpoint_ c.
Proof. unfold Connection_connect. by destruct (ldap_bind c dn pw). Qed.

(** X4: a handle that [borrow_connection] returns sits in the lowest slot
    whose bit was clear; the call sets that bit and nothing else of the
    pool object, so the number of lent slots grows by one; the handle is
    marked busy and keeps its index, its snipped flag and its endpoint;
    every other handle is untouched. *)
Theorem borrow_connection_lends w dc l w' :
  pool_wf w → int_indexable w →
  borrow_connection ldap_bind dc w = Some (Some l, w') →
  ∃ i c c',
    lowest_free (bs_used_ (this w)) i ∧
    v_connections_ (this w) !! i = Some (Some l) ∧
    this w' = set_bs_used_ (<[i := true]> (bs_used_ (this w))) (this w) ∧
    bitset_count (bs_used_ (this w')) = S (bitset_count (bs_used_ (this w))) ∧
    heap w !! l = Some c ∧ heap w' !! l = Some c' ∧
    is_busy_ c' = true ∧ idx_pool_ c' = idx_pool_ c ∧ snipped_ c' = snipped_ c ∧
    conn_endpoint_ c' = conn_endpoint_ c ∧
    (dc = false → session_ c' = session_ c) ∧
    (∀ l', l' ≠ l → heap w' !! l' = heap w !! l').
Proof.
  intros Hwf Hint Hrun.
  destruct (borrow_connection_some w dc l w' Hwf Hint Hrun) as (i & c & Hfree & Hq & Hc & ->).
  eexists i, c, _. split; [done|]. split; [done|]. split; [done|]. simpl.
  split; [apply bitset_count_set, Hfree|]. split; [done|].
  split; [apply list_lookup_insert_eq; by apply lookup_lt_Some in Hc|]. simpl.
  split; [done|].
  destruct (connect_cell (bind_dn_ (this w)) (bind_pwd_ (this w)) c) as (Hi & Hs & _ & He).
  split; [by destruct dc|]. split; [by destruct dc|]. split; [by destruct dc|].
  split; [by intros ->|].
  intros l' Hne. by apply list_lookup_insert_ne.
Qed.

(** X5: on a pool whose handles carry the positions of their slots, a
    borrow followed by the return of the handle leaves the pool object
    exactly as it was before the borrow: the one bit that was set is clear
    again.  The handle is free again, and the other handles were never
    touched. *)
Theorem borrow_return_round_trip w dc l w1 :
  pool_wf w → int_indexable w → slots_tagged w →
  borrow_connection ldap_bind dc w = Some (Some l, w1) →
  ∃ w2 c2,
    return_connection (Some l) w1 = Some ((), w2) ∧
    this w2 = this w ∧
    heap w2 !! l = Some c2 ∧ is_busy_ c2 = false ∧
    (∀ l', l' ≠ l → heap w2 !! l' = heap w !! l') ∧
    length (heap w2) = length (heap w).
Proof.
  intros Hwf Hint Htag Hrun.
  destruct (borrow_connection_some w dc l w1 Hwf Hint Hrun) as (i & c & Hfree & Hq & Hc & ->).
  destruct (Htag _ _ _ Hq Hc) as [Hidx Hsn].
  pose proof (lowest_free_lt _ _ Hwf Hfree) as Hi.
  assert (Z.of_nat i < 2 ^ 31)%Z as Hi31 by (unfold int_indexable in Hint; lia).
  destruct (connect_cell (bind_dn_ (this w)) (bind_pwd_ (this w)) c) as (Hci & Hcs & _ & _).
  set (c' := if dc then _ else c).
  assert (idx_pool_ c' = i ∧ snipped_ c' = false) as [Hi' Hs']
    by (unfold c'; destruct dc; split; congruence).
  set (w1 := mkWorld _ _ _).
  assert (heap w1 !! l = Some (Connection_mark_as_busy c')) as Hc1
    by (simpl; apply list_lookup_insert_eq; by apply lookup_lt_Some in Hc).
  destruct (return_connection_kept w1 l _ Hc1 Hs') as (evs & Hret & _).
  simpl in Hret. rewrite Hi', size_t_of_int_of_size_t in Hret by done.
  rewrite Hret. do 2 eexists. split; [done|]. simpl. split.
  { rewrite set_bs_used_twice, list_insert_insert_eq.
    rewrite list_insert_id by apply Hfree. apply set_bs_used_id. }
  rewrite list_insert_insert_eq.
  split; [apply list_lookup_insert_eq; by apply lookup_lt_Some in Hc|].
  split; [done|]. split; [|by rewrite length_insert].
  intros l' Hne. by apply list_lookup_insert_ne.
Qed.

(** X6: on such a pool the handle that a borrow returns is not snipped,
    and its own index names the slot it was taken from, whose bit is now
    set: this is the bit that [return_connection] will clear. *)
Theorem borrow_connection_tagged w dc l w' :
  pool_wf w → int_indexable w → slots_tagged w →
  borrow_connection ldap_bind dc w = Some (Some l, w') →
  ∃ c', heap w' !! l = Some c' ∧ snipped_ c' = false ∧
        v_connections_ (this w') !! idx_pool_ c' = Some (Some l) ∧
        bs_used_ (this w) !! idx_pool_ c' = Some false ∧
        bs_used_ (this w') !! idx_pool_ c' = Some true.
Proof.
  intros Hwf Hint Htag Hrun.
  destruct (borrow_connection_some w dc l w' Hwf Hint Hrun) as (i & c & Hfree & Hq & Hc & ->).
  destruct (Htag _ _ _ Hq Hc) as [Hidx Hsn].
  destruct (connect_cell (bind_dn_ (this w)) (bind_pwd_ (this w)) c) as (Hci & Hcs & _ & _).
  eexists. simpl.
  split; [apply list_lookup_insert_eq; by apply lookup_lt_Some in Hc|]. simpl.
  assert (idx_pool_ (if dc
                     then (Connection_connect ldap_bind (bind_dn_ (this w))
                             (bind_pwd_ (this w)) c).2
                     else c) = i) as -> by (destruct dc; congruence).
  split; [destruct dc; congruence|]. split; [done|]. split; [apply Hfree|].
  apply list_lookup_insert_eq. destruct Hfree as [Hb _]. by apply lookup_lt_Some in Hb.
Qed.

(** X7: returning a handle a second time changes neither the pool object
    nor any handle: the bit and the busy status that the first return
    cleared stay clear. *)
Theorem return_connection_twice w l w1 :
  return_connection (Some l) w = Some ((), w1) →
  ∃ w2, return_connection (Some l) w1 = Some ((), w2) ∧
        this w2 = this w1 ∧ heap w2 = heap w1.
Proof.
  intros Hrun.
  destruct (heap w !! l) as [c|] eqn:Hc.
  2:{ unfold return_connection in Hrun. rewrite bind_fail in Hrun; [done|].
      unfold update. by rewrite Hc. }
  assert (l < length (heap w)) as Hl by by apply lookup_lt_Some in Hc.
  destruct (snipped_ c) eqn:Hs.
  - rewrite (return_connection_snipped_run _ _ _ Hc Hs) in Hrun. injection Hrun as <-.
    erewrite return_connection_snipped_run;
      [|simpl; by apply list_lookup_insert_eq|done].
    eexists. split; [done|]. simpl. split; [done|]. by rewrite list_insert_insert_eq.
  - destruct (return_connection_kept _ _ _ Hc Hs) as (evs & Hret & _).
    simpl in Hret. rewrite Hret in Hrun. injection Hrun as <-.
    edestruct (return_connection_kept (mkWorld (<[l := Connection_mark_as_free c]> (heap w))
                 (set_bs_used_ (<[size_t_of_int (int_of_size_t (idx_pool_ c)) := false]>
                                  (bs_used_ (this w))) (this w))
                 (events w ++ evs ++
                    (if occupancy_high
                          (bitset_count (<[size_t_of_int (int_of_size_t (idx_pool_ c)) := false]>
                                           (bs_used_ (this w))))
                          (pool_max_size_ (this w))
                     then [ev_thread_zombie_control] else [])))
                 l (Connection_mark_as_free c)) as (evs2 & Hret2 & _);
      [simpl; by apply list_lookup_insert_eq | done |].
    simpl in Hret2. rewrite Hret2. eexists. split; [done|]. simpl.
    split; [|by rewrite list_insert_insert_eq].
    by rewrite set_bs_used_twice, list_insert_insert_eq.
Qed.

(** ** Borrowing in a row *)

Lemma lowest_free_unique bs i j : lowest_free bs i → lowest_free bs j → i = j.
Proof.
  intros [Hi Hlowi] [Hj Hlowj].
  destruct (Nat.lt_trichotomy i j) as [Hlt|[->|Hgt]]; [|done|].
  - specialize (Hlowj _ Hlt). congruence.
  - specialize (Hlowi _ Hgt). congruence.
Qed.

Lemma free_slots_first bs i :
  lowest_free bs i → free_slots bs = i :: free_slots (<[i := true]> bs).
Proof.
  intros Hfree. unfold free_slots.
  assert (bitset_all bs = false) as Hall.
  { destruct (bitset_all bs) eqn:Hall; [|done].
    rewrite bitset_all_true in Hall. destruct Hfree as [Hi _].
    by specialize (Hall _ _ Hi). }
  destruct (free_from_first 0 bs Hall) as (j & Hj & Heq).
  by rewrite (lowest_free_unique _ _ _ Hfree Hj).
Qed.

Lemma connect_status_bind dn pw c :
  (Connection_connect ldap_bind dn pw c).1 = (ldap_bind c dn pw).1.
Proof. unfold Connection_connect. by destruct (ldap_bind c dn pw). Qed.

Lemma borrow_many_run w dc n :
  pool_wf w → int_indexable w →
  (dc = true → ∀ c dn pw, (ldap_bind c dn pw).1 = SUCCESS) →
  ∃ w', borrow_many ldap_bind dc n w =
          Some ((handle_at (this w) <$> take n (free_slots (bs_used_ (this w)))) ++
                replicate (n - length (free_slots (bs_used_ (this w)))) None, w') ∧
        pool_wf w' ∧
        free_slots (bs_used_ (this w')) = drop n (free_slots (bs_used_ (this w))) ∧
        v_connections_ (this w') = v_connections_ (this w) ∧
        pool_max_size_ (this w') = pool_max_size_ (this w).
Proof.
  intros Hwf Hint Hok. revert w Hwf Hint.
  induction n as [|n IH]; intros w Hwf Hint.
  { exists w. simpl. by rewrite ?take_0, ?drop_0. }
  destruct (borrow_connection_cases w dc Hwf Hint)
    as [[Hall Hrun]|(i & l & c & Hfree & Hq & Hc & [(Hdc & Hst & _)|[_ Hrun]])].
  - set (w1 := mkWorld _ _ _) in Hrun.
    destruct (IH w1) as (w' & Hrun' & Hwf' & Hfree' & Hv' & Hmax').
    { by apply pool_wf_heap. }
    { done. }
    exists w'. simpl. rewrite (bind_run _ _ _ _ _ Hrun), (bind_run _ _ _ _ _ Hrun').
    simpl in *. unfold free_slots in *. rewrite (free_from_full 0 _ Hall) in *.
    rewrite take_nil, drop_nil in *. simpl in *. rewrite Nat.sub_0_r in *.
    done.
  - rewrite connect_status_bind, Hok in Hst by done. done.
  - set (w1 := mkWorld _ _ _) in Hrun.
    destruct (IH w1) as (w' & Hrun' & Hwf' & Hfree' & Hv' & Hmax').
    { apply pool_wf_bits; [done | apply length_insert..]. }
    { revert Hint. unfold int_indexable, w1. simpl. by destruct (this w). }
    exists w'. simpl. rewrite (bind_run _ _ _ _ _ Hrun), (bind_run _ _ _ _ _ Hrun').
    rewrite (free_slots_first _ _ Hfree). simpl in *.
    split; [|split; [done|split; [done|split; [done|by destruct (this w)]]]].
    unfold mret, M_ret. do 2 f_equal.
    unfold handle_at. simpl. by rewrite Hq.
Qed.

(** A row of borrows that does not outrun the free slots: every borrow
    gets a handle, and none starts a sweep. *)
Lemma borrow_many_free w dc n :
  pool_wf w → int_indexable w →
  (dc = true → ∀ c dn pw, (ldap_bind c dn pw).1 = SUCCESS) →
  n ≤ length (free_slots (bs_used_ (this w))) →
  ∃ w' evs,
    borrow_many ldap_bind dc n w =
      Some (handle_at (this w) <$> take n (free_slots (bs_used_ (this w))), w') ∧
    events w' = events w ++ evs ∧
    Forall (λ e, is_spawn e = false) evs.
Proof.
  intros Hwf Hint Hok. revert w Hwf Hint.
  induction n as [|n IH]; intros w Hwf Hint Hn.
  { exists w, []. simpl. rewrite app_nil_r. by rewrite ?take_0. }
  destruct (borrow_connection_cases w dc Hwf Hint)
    as [[Hall Hrun]|(i & l & c & Hfree & Hq & Hc & [(Hdc & Hst & _)|[_ Hrun]])].
  - unfold free_slots in Hn. rewrite (free_from_full 0 _ Hall) in Hn. simpl in Hn. lia.
  - rewrite connect_status_bind, Hok in Hst by done. done.
  - set (w1 := mkWorld _ _ _) in Hrun.
    rewrite (free_slots_first _ _ Hfree) in Hn. simpl in Hn.
    destruct (IH w1) as (w' & evs & Hrun' & Hev & Hquiet).
    { apply pool_wf_bits; [done | apply length_insert..]. }
    { revert Hint. unfold int_indexable, w1. simpl. by destruct (this w). }
    { simpl. lia. }
    exists w', (ev_bs_set i true :: (if dc then [ev_connect l SUCCESS] else []) ++ evs).
    simpl. rewrite (bind_run _ _ _ _ _ Hrun), (bind_run _ _ _ _ _ Hrun').
    rewrite (free_slots_first _ _ Hfree). simpl in *.
    split; [|split].
    + unfold mret, M_ret. do 2 f_equal. unfold handle_at. simpl. by rewrite Hq.
    + rewrite Hev, <- app_assoc. done.
    + apply Forall_cons. split; [done|]. apply Forall_app. split; [|done].
      destruct dc; [by apply Forall_singleton | apply Forall_nil_2].
Qed.

(** X8: a caller that borrows [n] times in a row, [n] being at most the
    number of free slots, without connecting or with binds that succeed,
    gets a handle each time: the handles of the first [n] free slots in
    increasing order of slot, all different.  No borrow of the row finds
    the pool exhausted, so the row starts no sweep; the number of lent
    slots grows by [n], and the free slots that remain are the later
    ones. *)
Theorem borrow_many_in_order w dc n :
  pool_wf w → int_indexable w →
  (dc = true → ∀ c dn pw, (ldap_bind c dn pw).1 = SUCCESS) →
  n ≤ length (free_slots (bs_used_ (this w))) →
  ∃ w' evs,
    borrow_many ldap_bind dc n w =
      Some (handle_at (this w) <$> take n (free_slots (bs_used_ (this w))), w') ∧
    Forall is_Some (handle_at (this w) <$> take n (free_slots (bs_used_ (this w)))) ∧
    NoDup (handle_at (this w) <$> take n (free_slots (bs_used_ (this w)))) ∧
    length (free_slots (bs_used_ (this w))) =
      pool_max_size_ (this w) - bitset_count (bs_used_ (this w)) ∧
    free_slots (bs_used_ (this w')) = drop n (free_slots (bs_used_ (this w))) ∧
    bitset_count (bs_used_ (this w')) = bitset_count (bs_used_ (this w)) + n ∧
    events w' = events w ++ evs ∧
    Forall (λ e, is_spawn e = false) evs.
Proof.
  intros Hwf Hint Hok Hn.
  destruct (borrow_many_free w dc n Hwf Hint Hok Hn) as (w' & evs & Hrun & Hev & Hquiet).
  destruct (borrow_many_run w dc n Hwf Hint Hok) as (w'' & Hrun' & Hwf' & Hfree' & Hv' & Hmax').
  assert (w'' = w') as -> by congruence.
  exists w', evs. split; [done|].
  pose proof (free_from_length 0 (bs_used_ (this w))) as Hlen.
  pose proof (free_from_length 0 (bs_used_ (this w'))) as Hlen'.
  fold (free_slots (bs_used_ (this w))) in Hlen.
  fold (free_slots (bs_used_ (this w'))) in Hlen'.
  rewrite Hfree', length_drop, (wf_used _ Hwf'), Hmax' in Hlen'.
  rewrite (wf_used _ Hwf) in Hlen.
  assert (∀ k, k ∈ take n (free_slots (bs_used_ (this w))) →
            k < length (v_connections_ (this w))) as Hin.
  { intros k Hk. apply subseteq_take in Hk.
    apply elem_of_free_from in Hk as (j & -> & Hj).
    apply lookup_lt_Some in Hj. rewrite (wf_used _ Hwf) in Hj.
    rewrite (wf_slots _ Hwf). lia. }
  split; [|split; [|split; [lia|split; [done|split; [lia|done]]]]].
  - apply Forall_fmap, Forall_forall. intros k Hk.
    destruct (lookup_lt_is_Some_2 _ _ (Hin _ Hk)) as [q Hq].
    destruct (wf_live _ Hwf _ _ Hq) as (l & -> & _).
    unfold handle_at. simpl. rewrite Hq. by eexists.
  - apply NoDup_fmap_2_strong.
    + intros i j Hi Hj Heq.
      destruct (lookup_lt_is_Some_2 _ _ (Hin _ Hi)) as [qi Hqi].
      destruct (lookup_lt_is_Some_2 _ _ (Hin _ Hj)) as [qj Hqj].
      unfold handle_at in Heq. rewrite Hqi, Hqj in Heq. simpl in Heq. subst qj.
      by apply (NoDup_lookup _ _ _ _ (wf_nodup _ Hwf) Hqi Hqj).
    + apply (sublist_NoDup _ (free_slots (bs_used_ (this w))));
        [apply free_from_NoDup | apply sublist_take].
Qed.

(** ** The constructor, slot by slot *)

Lemma insert_snoc_replicate {A} (l : list A) j n x y :
  length l = j → j < n →
  <[j := x]> (l ++ replicate (n - j) y) = (l ++ [x]) ++ replicate (n - S j) y.
Proof.
  intros Hl Hj. rewrite insert_app_r_alt by lia.
  replace (j - length l) with 0 by lia.
  replace (n - j) with (S (n - S j)) by lia. simpl. by rewrite <- app_assoc.
Qed.

Lemma insert_app_last {A} (l : list A) x y : <[length l := y]> (l ++ [x]) = l ++ [y].
Proof. rewrite insert_app_r_alt by lia. by rewrite Nat.sub_diag. Qed.

Lemma fmap_seq_S {A} (f : nat → A) a n : f <$> seq a (S n) = (f <$> seq a n) ++ [f (a + n)].
Proof. by rewrite seq_S, fmap_app. Qed.

Lemma pool_endpoint_eta ep ni nm ca dn pw bs v m :
  pool_endpoint (mkPool ni nm (ep_host ep) (ep_port ep) (ep_fallback_host ep)
                   (ep_fallback_port ep) (ep_use_ssl ep) (ep_use_tls ep) ca dn pw bs v m) = ep.
Proof. by destruct ep. Qed.

Lemma construct_slot_run wj j :
  j < length (v_connections_ (this wj)) →
  construct_slot disconnected ldap_bind j wj =
    Some ((),
      if decide (j < pool_initial_size_ (this wj))
      then mkWorld
             (heap wj ++
              [(Connection_connect ldap_bind (bind_dn_ (this wj)) (bind_pwd_ (this wj))
                  (Connection_new disconnected j (pool_endpoint (this wj)))).2])
             (set_v_connections_
                (<[j := Some (length (heap wj))]> (v_connections_ (this wj))) (this wj))
             (events wj ++
              [ev_connect (length (heap wj))
                 (Connection_connect ldap_bind (bind_dn_ (this wj)) (bind_pwd_ (this wj))
                    (Connection_new disconnected j (pool_endpoint (this wj)))).1])
      else mkWorld
             (heap wj ++ [Connection_new disconnected j (pool_endpoint (this wj))])
             (set_v_connections_
                (<[j := Some (length (heap wj))]> (v_connections_ (this wj))) (this wj))
             (events wj)).
Proof.
  intros Hj. unfold construct_slot.
  rewrite (bind_run _ _ _ (this wj) wj) by done.
  erewrite bind_run; [|done].
  erewrite bind_run; [|by apply vec_assign_run].
  destruct (decide (j < pool_initial_size_ (this wj))); [|done].
  erewrite bind_run;
    [|apply vec_at_run; cbn [this v_connections_ set_v_connections_];
      by apply list_lookup_insert_eq].
  erewrite bind_run;
    [|apply connect_run; cbn [heap]; by apply list_lookup_middle].
  cbn [heap this events]. by rewrite insert_app_last.
Qed.

Lemma construct_slot_step w0 ni nm ep ca dn pw j :
  j < nm →
  construct_slot disconnected ldap_bind j (constructing disconnected ldap_bind w0 ni nm ep ca dn pw j) =
    Some ((), constructing disconnected ldap_bind w0 ni nm ep ca dn pw (S j)).
Proof.
  intros Hj.
  rewrite construct_slot_run
    by (simpl; rewrite length_app, length_fmap, length_seq, length_replicate; lia).
  unfold constructing.
  cbn [heap this events v_connections_ pool_initial_size_ bind_dn_ bind_pwd_
       set_v_connections_ pool_max_size_ ldap_host_ ldap_port_ ldap_fallback_host_
       ldap_fallback_port_ use_ssl_ use_tls_ ca_path_ bs_used_ group_role_mapping_].
  rewrite pool_endpoint_eta.
  rewrite insert_snoc_replicate by (rewrite ?length_fmap, ?length_seq; lia).
  rewrite length_app, length_fmap, length_seq.
  rewrite <- (fmap_seq_S Some).
  rewrite (fmap_seq_S (constructed _ _ _ _ _ _)), (app_assoc (heap w0)).
  destruct (decide (j < ni)) as [Hlt|Hge].
  - replace (ni `min` S j) with (S (ni `min` j)) by lia.
    replace (ni `min` j) with j by lia.
    do 2 f_equal. f_equal.
    + rewrite <- !app_assoc. do 2 f_equal. unfold constructed. by rewrite decide_True.
    + by rewrite fmap_seq_S, <- app_assoc.
  - replace (ni `min` S j) with (ni `min` j) by lia.
    do 2 f_equal. f_equal.
    rewrite <- !app_assoc. do 2 f_equal. unfold constructed. by rewrite decide_False.
Qed.

Lemma Pool_Pool_exact w0 ni nm ep ca dn pw :
  Pool_Pool disconnected ldap_bind ni nm ep ca dn pw w0 =
    Some ((), constructing disconnected ldap_bind w0 ni nm ep ca dn pw nm).
Proof.
  unfold Pool_Pool.
  erewrite bind_run; [|done]. erewrite bind_run; [|done].
  erewrite bind_run; [|done]. simpl.
  erewrite bind_run; [|done]. erewrite bind_run; [|done].
  destruct (for_range_inv (λ j wj, wj = constructing disconnected ldap_bind w0 ni nm ep ca dn pw j)
              (construct_slot disconnected ldap_bind) 0 nm
              (constructing disconnected ldap_bind w0 ni nm ep ca dn pw 0))
    as (w' & Hrun & ->); [lia | done | |].
  { intros j wj Hj ->. eexists. split; [apply construct_slot_step; lia | done]. }
  rewrite <- Hrun. f_equal. unfold constructing. simpl.
  unfold bitset_resize, vector_resize. simpl.
  by rewrite !take_nil, !Nat.sub_0_r, Nat.min_0_r, app_nil_r.
Qed.

Lemma constructed_cell ni ep dn pw i :
  idx_pool_ (constructed disconnected ldap_bind ni ep dn pw i) = i ∧
  snipped_ (constructed disconnected ldap_bind ni ep dn pw i) = false ∧
  is_busy_ (constructed disconnected ldap_bind ni ep dn pw i) = false ∧
  conn_endpoint_ (constructed disconnected ldap_bind ni ep dn pw i) = ep ∧
  (ni ≤ i → session_ (constructed disconnected ldap_bind ni ep dn pw i) = disconnected).
Proof.
  unfold constructed. destruct (decide (i < ni)).
  - destruct (connect_cell dn pw (Connection_new disconnected i ep)) as (-> & -> & -> & ->).
    repeat split; try done. lia.
  - done.
Qed.

Lemma constructing_slot w0 ni nm ep ca dn pw i :
  i < nm →
  v_connections_ (this (constructing disconnected ldap_bind w0 ni nm ep ca dn pw nm)) !! i =
    Some (Some (length (heap w0) + i)) ∧
  heap (constructing disconnected ldap_bind w0 ni nm ep ca dn pw nm) !! (length (heap w0) + i) =
    Some (constructed disconnected ldap_bind ni ep dn pw i).
Proof.
  intros Hi. unfold constructing. cbn [heap this v_connections_]. split.
  - rewrite lookup_app_l by (by rewrite length_fmap, length_seq).
    by rewrite list_lookup_fmap, lookup_seq_lt.
  - rewrite lookup_app_r by lia.
    replace (length (heap w0) + i - length (heap w0)) with i by lia.
    by rewrite list_lookup_fmap, lookup_seq_lt.
Qed.

Lemma constructing_tagged w0 ni nm ep ca dn pw :
  slots_tagged (constructing disconnected ldap_bind w0 ni nm ep ca dn pw nm).
Proof.
  intros i l c Hq Hc.
  assert (i < nm) as Hi.
  { apply lookup_lt_Some in Hq. revert Hq. unfold constructing. cbn [this v_connections_].
    rewrite length_app, length_fmap, length_seq, length_replicate. lia. }
  destruct (constructing_slot w0 ni nm ep ca dn pw i Hi) as [Hq' Hc'].
  assert (l = length (heap w0) + i) as -> by congruence.
  assert (c = constructed disconnected ldap_bind ni ep dn pw i) as -> by congruence.
  destruct (constructed_cell ni ep dn pw i) as (? & ? & _). done.
Qed.

(** X9: the constructor completes for every size and every outcome of the
    binds.  It leaves a well-formed pool with the settings it was given, an
    empty group-role mapping and no slot lent; the slot [i] holds a new
    handle that carries the index [i] and the endpoint, is free and not
    snipped, and has not been connected when [i] is not below the initial
    size; the handles that were in the store before are untouched. *)
Theorem Pool_Pool_fresh w0 ni nm ep ca dn pw :
  ∃ w, Pool_Pool disconnected ldap_bind ni nm ep ca dn pw w0 = Some ((), w) ∧
       pool_wf w ∧ slots_tagged w ∧
       pool_initial_size_ (this w) = ni ∧ pool_max_size_ (this w) = nm ∧
       pool_endpoint (this w) = ep ∧ ca_path_ (this w) = ca ∧
       bind_dn_ (this w) = dn ∧ bind_pwd_ (this w) = pw ∧
       group_role_mapping_ (this w) = ∅ ∧
       bs_used_ (this w) = replicate nm false ∧
       v_connections_ (this w) = Some <$> seq (length (heap w0)) nm ∧
       length (heap w) = length (heap w0) + nm ∧
       (∀ l c, heap w0 !! l = Some c → heap w !! l = Some c) ∧
       (∀ i, i < nm →
          ∃ c, heap w !! (length (heap w0) + i) = Some c ∧
               idx_pool_ c = i ∧ conn_endpoint_ c = ep ∧
               is_busy_ c = false ∧ snipped_ c = false ∧
               (ni ≤ i → session_ c = disconnected)).
Proof.
  destruct (Pool_Pool_run w0 ni nm ep ca dn pw) as (w & Hrun & Hwf & _).
  rewrite Pool_Pool_exact in Hrun. injection Hrun as <-.
  eexists. split; [apply Pool_Pool_exact|]. split; [done|].
  split; [apply constructing_tagged|].
  pose proof (constructing_slot w0 ni nm ep ca dn pw) as Hslot.
  unfold constructing in *.
  cbn [this heap pool_initial_size_ pool_max_size_ ca_path_ bind_dn_ bind_pwd_
       group_role_mapping_ bs_used_ v_connections_] in *.
  split; [done|]. split; [done|]. split; [apply pool_endpoint_eta|].
  split; [done|]. split; [done|]. split; [done|]. split; [done|]. split; [done|].
  split; [by rewrite Nat.sub_diag, app_nil_r|].
  split; [by rewrite length_app, length_fmap, length_seq|].
  split.
  { intros l c Hc. rewrite lookup_app_l; [done | by apply lookup_lt_Some in Hc]. }
  intros i Hi. destruct (Hslot i Hi) as [_ Hc].
  destruct (constructed_cell ni ep dn pw i) as (? & ? & ? & ? & ?).
  eexists. split; [exact Hc|]. done.
Qed.

(** X10: the constructor adds to the trace the global initialisation and
    then one connect attempt for each slot below both the initial size and
    the size, in the order of the slots, each on the new handle of its slot
    with the outcome of the bind; slots from the initial size on are not
    connected, and a bind that fails stops nothing. *)
Theorem Pool_Pool_connects w0 ni nm ep ca dn pw :
  ∃ w, Pool_Pool disconnected ldap_bind ni nm ep ca dn pw w0 = Some ((), w) ∧
       events w =
         events w0 ++ ev_global_init true ca ::
           ((λ i, ev_connect (length (heap w0) + i)
                    (ldap_bind (Connection_new disconnected i ep) dn pw).1)
              <$> seq 0 (ni `min` nm)) ∧
       (∀ i, i < nm → v_connections_ (this w) !! i = Some (Some (length (heap w0) + i))).
Proof.
  eexists. split; [apply Pool_Pool_exact|]. split.
  - unfold constructing. cbn [events]. do 2 f_equal.
    apply list_fmap_ext. intros _ i _. f_equal.
    unfold constructed_status. apply connect_status_bind.
  - intros i Hi. by apply constructing_slot.
Qed.

Lemma handles_of_fresh w0 ni nm ep ca dn pw :
  handle_at (this (constructing disconnected ldap_bind w0 ni nm ep ca dn pw nm))
    <$> seq 0 nm = Some <$> seq (length (heap w0)) nm.
Proof.
  apply list_eq. intros i. rewrite !list_lookup_fmap.
  destruct (decide (i < nm)) as [Hi|Hi].
  - rewrite !lookup_seq_lt by done.
    pose proof (proj1 (constructing_slot w0 ni nm ep ca dn pw i Hi)) as Hq.
    unfold handle_at. cbn [fmap option_fmap option_map]. rewrite Nat.add_0_l. by rewrite Hq.
  - by rewrite !lookup_seq_ge by lia.
Qed.

(** X11: a pool that was just constructed with up to 2^31 slots hands out
    all of its handles, in the order of the slots, to a caller that borrows
    as many times as there are slots (without connecting, or with binds
    that succeed); every slot is lent then, and one more borrow returns
    none, leaves the pool object alone and asks for a sweep. *)
Theorem Pool_Pool_borrow_all w0 ni nm ep ca dn pw dc :
  (Z.of_nat nm ≤ 2 ^ 31)%Z →
  (dc = true → ∀ c dn' pw', (ldap_bind c dn' pw').1 = SUCCESS) →
  ∃ w w1 w2,
    Pool_Pool disconnected ldap_bind ni nm ep ca dn pw w0 = Some ((), w) ∧
    borrow_many ldap_bind dc nm w = Some (Some <$> seq (length (heap w0)) nm, w1) ∧
    bitset_count (bs_used_ (this w1)) = nm ∧
    borrow_connection ldap_bind dc w1 = Some (None, w2) ∧
    this w2 = this w1 ∧
    events w2 = events w1 ++ [log_srv_warn "WARNING: No available connections in the pool";
                              ev_thread_zombie_control].
Proof.
  intros Hnm Hok.
  destruct (Pool_Pool_run w0 ni nm ep ca dn pw) as (w & Hrun & Hwf & Hmax & Hbits).
  assert (w = constructing disconnected ldap_bind w0 ni nm ep ca dn pw nm) as Hw
    by (rewrite Pool_Pool_exact in Hrun; by injection Hrun).
  assert (int_indexable w) as Hint by (unfold int_indexable; by rewrite Hmax).
  destruct (borrow_many_run w dc nm Hwf Hint Hok) as (w1 & Hrun1 & Hwf1 & Hfree1 & Hv1 & Hmax1).
  assert (free_slots (bs_used_ (this w)) = seq 0 nm) as Hfree
    by (rewrite Hbits; apply free_from_replicate).
  rewrite Hfree, take_ge, length_seq, Nat.sub_diag, app_nil_r in Hrun1
    by by rewrite length_seq.
  rewrite Hfree, drop_ge in Hfree1 by by rewrite length_seq.
  assert (bitset_count (bs_used_ (this w1)) = pool_max_size_ (this w1)) as Hfull.
  { pose proof (free_from_length 0 (bs_used_ (this w1))) as Hlen.
    fold (free_slots (bs_used_ (this w1))) in Hlen.
    rewrite Hfree1, (wf_used _ Hwf1) in Hlen. simpl in Hlen. done. }
  exists w, w1. eexists. split; [done|]. split.
  { rewrite Hrun1. do 2 f_equal. rewrite Hw. apply handles_of_fresh. }
  split; [by rewrite Hfull, Hmax1|].
  split; [by apply borrow_connection_full|]. done.
Qed.

(** ** Growing, slot by slot *)

Lemma new_slot_step w nm ep j :
  length (v_connections_ (this w)) = pool_max_size_ (this w) →
  pool_max_size_ (this w) ≤ j < nm →
  new_slot disconnected ep j (extending disconnected w nm ep j) =
    Some ((), extending disconnected w nm ep (S j)).
Proof.
  intros Hlen Hj. unfold new_slot.
  rewrite assigned_run
    by (simpl; rewrite !length_app, length_fmap, length_seq, length_replicate; lia).
  unfold assigned, extending.
  cbn [heap this events v_connections_ set_v_connections_ set_bs_used_ pool_max_size_
       pool_initial_size_ ldap_host_ ldap_port_ ldap_fallback_host_ ldap_fallback_port_
       use_ssl_ use_tls_ ca_path_ bind_dn_ bind_pwd_ bs_used_ group_role_mapping_].
  replace (S j - pool_max_size_ (this w)) with (S (j - pool_max_size_ (this w))) by lia.
  rewrite !fmap_seq_S.
  rewrite (app_assoc (v_connections_ (this w))).
  rewrite insert_snoc_replicate
    by (rewrite ?length_app, ?length_fmap, ?length_seq; lia).
  rewrite length_app, length_fmap, length_seq.
  replace (pool_max_size_ (this w) + (j - pool_max_size_ (this w))) with j by lia.
  by rewrite <- !app_assoc.
Qed.

Lemma resize_pool_grow_exact w nm ep :
  pool_wf w → pool_max_size_ (this w) < nm →
  resize_pool disconnected nm ep w =
    Some ((),
      mkWorld
        (heap w ++ ((λ i, Connection_new disconnected i ep)
                      <$> seq (pool_max_size_ (this w)) (nm - pool_max_size_ (this w))))
        (set_pool_max_size_ nm
           (set_v_connections_
              (v_connections_ (this w) ++
               (Some <$> seq (length (heap w)) (nm - pool_max_size_ (this w))))
              (set_bs_used_
                 (bs_used_ (this w) ++ replicate (nm - pool_max_size_ (this w)) false)
                 (this w))))
        (events w ++ [log_srv_dbg "extending max pool size"])).
Proof.
  intros Hwf Hnm.
  destruct (for_range_inv (λ j wj, wj = extending disconnected w nm ep j)
              (new_slot disconnected ep) (pool_max_size_ (this w)) nm
              (extending disconnected w nm ep (pool_max_size_ (this w))))
    as (w' & Hrun & ->); [lia | done | |].
  { intros j wj Hj ->. eexists. split; [|done].
    apply new_slot_step; [apply (wf_slots _ Hwf) | lia]. }
  unfold resize_pool. rewrite (bind_run _ _ _ (this w) w) by done.
  rewrite (decide_True (P := nm ≠ pool_max_size_ (this w))) by lia.
  erewrite bind_run; [|done].
  rewrite (decide_False (P := nm < pool_max_size_ (this w))) by lia.
  erewrite bind_run; [|done].
  erewrite bind_run; [|done].
  rewrite (decide_True (P := pool_max_size_ (this w) < nm)) by lia.
  erewrite bind_run.
  2:{ erewrite bind_run; [|done].
      assert (mkWorld (heap w)
                (set_v_connections_ (vector_resize nm (v_connections_ (this w)))
                   (set_bs_used_ (bitset_resize nm (bs_used_ (this w))) (this w)))
                (events w ++ [log_srv_dbg "extending max pool size"]) =
              extending disconnected w nm ep (pool_max_size_ (this w))) as Heq.
      { unfold extending, vector_resize, bitset_resize.
        rewrite Nat.sub_diag, (wf_slots _ Hwf), (wf_used _ Hwf).
        rewrite !take_ge by (rewrite ?(wf_slots _ Hwf), ?(wf_used _ Hwf); lia).
        simpl. by rewrite app_nil_r. }
      cbn [heap this events set_bs_used_ set_v_connections_ v_connections_ bs_used_].
      cbn [heap this events set_bs_used_ set_v_connections_ v_connections_ bs_used_] in Heq.
      rewrite Heq. exact Hrun. }
  unfold modify_this, extending. cbn [heap this events].
  by rewrite Nat.sub_diag, app_nil_r.
Qed.

(** ** Configuring and connecting, slot by slot *)

Lemma retuned_refl ep c : retuned ep c c.
Proof. repeat split. by left. Qed.

Lemma retuned_trans ep c1 c2 c3 : retuned ep c1 c2 → retuned ep c2 c3 → retuned ep c1 c3.
Proof.
  intros (H1 & H2 & H3 & H4) (G1 & G2 & G3 & G4).
  repeat split; try congruence.
  destruct G4 as [G4|G4]; [|by right]. rewrite G4. done.
Qed.

Lemma heap_retuned_refl ep (h : list (@Connection Session)) : heap_rel (retuned ep) h h.
Proof. split; [done|]. intros l c Hl. exists c. split; [done | apply retuned_refl]. Qed.

Lemma heap_retuned_trans ep (h1 h2 h3 : list (@Connection Session)) :
  heap_rel (retuned ep) h1 h2 → heap_rel (retuned ep) h2 h3 → heap_rel (retuned ep) h1 h3.
Proof.
  intros [Hl1 H1] [Hl2 H2]. split; [congruence|].
  intros l c Hc. destruct (H1 _ _ Hc) as (c2 & Hc2 & Hid2).
  destruct (H2 _ _ Hc2) as (c3 & Hc3 & Hid3).
  exists c3. split; [done | by eapply retuned_trans].
Qed.

Lemma heap_retuned_insert ep (h : list (@Connection Session)) l c c' :
  h !! l = Some c → retuned ep c c' → heap_rel (retuned ep) h (<[l := c']> h).
Proof.
  intros Hl Hid. split; [apply length_insert|].
  intros l' c0 Hc0. destruct (decide (l' = l)) as [->|Hne].
  - exists c'. rewrite list_lookup_insert_eq by by apply lookup_lt_Some in Hl.
    split; [done|]. congruence.
  - exists c0. rewrite list_lookup_insert_ne by done. split; [done | apply retuned_refl].
Qed.

Lemma configure_slot_run w i l c :
  v_connections_ (this w) !! i = Some (Some l) → heap w !! l = Some c →
  ∃ c' evs,
    configure_slot ldap_bind i w =
      Some ((), mkWorld (<[l := c']> (heap w)) (this w) (events w ++ evs)) ∧
    retuned (pool_endpoint (this w)) c c' ∧
    conn_endpoint_ c' = pool_endpoint (this w) ∧
    connect_locs evs = if decide (i < pool_initial_size_ (this w)) then [l] else [].
Proof.
  intros Hq Hc. unfold configure_slot.
  rewrite (bind_run _ _ _ (this w) w) by done.
  rewrite (bind_run _ _ _ _ _ (vec_at_run _ _ _ Hq)).
  rewrite (bind_run _ _ _ _ _ (update_run _ _ _ _ Hc)).
  destruct (decide (i < pool_initial_size_ (this w))).
  - erewrite bind_run;
      [|apply connect_run; simpl; apply list_lookup_insert_eq; by apply lookup_lt_Some in Hc].
    do 2 eexists. split.
    { unfold mret, M_ret. simpl. by rewrite list_insert_insert_eq. }
    destruct (connect_cell (bind_dn_ (this w)) (bind_pwd_ (this w))
                (Connection_configure (pool_endpoint (this w)) c)) as (H1 & H2 & H3 & H4).
    unfold retuned. rewrite H1, H2, H3, H4. split; [|done]. repeat split. by right.
  - exists (Connection_configure (pool_endpoint (this w)) c), [].
    rewrite app_nil_r. split; [done|]. split; [|done]. repeat split. by right.
Qed.

Lemma connect_slot_run w i l c :
  v_connections_ (this w) !! i = Some (Some l) → heap w !! l = Some c →
  ∃ c' evs,
    connect_slot ldap_bind i w =
      Some ((), mkWorld (<[l := c']> (heap w)) (this w) (events w ++ evs)) ∧
    connect_locs evs = [l] ∧
    ∀ ep, retuned ep c c'.
Proof.
  intros Hq Hc. unfold connect_slot.
  rewrite (bind_run _ _ _ (this w) w) by done.
  rewrite (bind_run _ _ _ _ _ (vec_at_run _ _ _ Hq)).
  rewrite (bind_run _ _ _ _ _ (connect_run _ _ _ _ _ Hc)).
  do 2 eexists. split; [done|]. split; [done|]. intros ep.
  destruct (connect_cell (bind_dn_ (this w)) (bind_pwd_ (this w)) c) as (H1 & H2 & H3 & H4).
  unfold retuned. rewrite H1, H2, H3, H4. repeat split. by left.
Qed.

Lemma pool_wf_this w w' :
  pool_wf w → this w' = this w → length (heap w') = length (heap w) → pool_wf w'.
Proof.
  intros Hwf Ht Hh. destruct w' as [h' p' e']. simpl in *. subst p'.
  by apply pool_wf_heap.
Qed.

Lemma connect_locs_app evs1 evs2 :
  connect_locs (evs1 ++ evs2) = connect_locs evs1 ++ connect_locs evs2.
Proof. apply omap_app. Qed.

Lemma connect_locs_none evs :
  Forall (λ e, is_connect e = false) evs → connect_locs evs = [].
Proof.
  induction 1 as [|e evs He _ IH]; [done|].
  destruct e; try discriminate He; exact IH.
Qed.

Lemma take_S_slots (v : list (option nat)) j l :
  v !! j = Some (Some l) → omap id (take (S j) v) = omap id (take j v) ++ [l].
Proof. intros Hq. by rewrite (take_S_r _ _ _ Hq), omap_app. Qed.

(** The loop of [reconfigure] that configures every slot: the pool object
    stays, each handle is retuned, the handles of the slots have the stored
    endpoint, and the slots below the initial size were connected, in
    order. *)
Lemma configure_loop w :
  pool_wf w →
  ∃ w' evs,
    for_range 0 (pool_max_size_ (this w)) (configure_slot ldap_bind) w = Some ((), w') ∧
    this w' = this w ∧
    heap_rel (retuned (pool_endpoint (this w))) (heap w) (heap w') ∧
    (∀ i l c, v_connections_ (this w) !! i = Some (Some l) → heap w' !! l = Some c →
              conn_endpoint_ c = pool_endpoint (this w)) ∧
    events w' = events w ++ evs ∧
    connect_locs evs =
      omap id (take (pool_initial_size_ (this w) `min` pool_max_size_ (this w))
                 (v_connections_ (this w))).
Proof.
  intros Hwf.
  destruct (for_range_inv
    (λ j wj, this wj = this w ∧
             heap_rel (retuned (pool_endpoint (this w))) (heap w) (heap wj) ∧
             (∀ i l c, i < j → v_connections_ (this w) !! i = Some (Some l) →
                       heap wj !! l = Some c → conn_endpoint_ c = pool_endpoint (this w)) ∧
             ∃ evs, events wj = events w ++ evs ∧
                    connect_locs evs =
                      omap id (take (pool_initial_size_ (this w) `min` j)
                                 (v_connections_ (this w))))
    (configure_slot ldap_bind) 0 (pool_max_size_ (this w)) w)
    as (w' & Hrun & Ht & Hrel & Hep & evs & Hev & Hlocs); [lia | | |].
  - split; [done|]. split; [apply heap_retuned_refl|]. split; [intros i l c Hi; lia|].
    exists []. rewrite app_nil_r, Nat.min_0_r. done.
  - intros j wj Hj (Ht & Hrel & Hep & evs & Hev & Hlocs).
    assert (pool_wf wj) as Hwfj by (apply (pool_wf_this w); [done..|apply Hrel]).
    destruct (slot_live wj j Hwfj ltac:(rewrite Ht; lia)) as (l & c & Hq & Hc).
    destruct (configure_slot_run wj j l c Hq Hc) as (c' & evs' & Hrun & Hret & Hce & Hl').
    rewrite Ht in Hret, Hce, Hq, Hl'.
    eexists. split; [exact Hrun|]. simpl. split; [done|]. split.
    { eapply heap_retuned_trans; [done|]. by eapply heap_retuned_insert. }
    split.
    { intros i0 l0 c0 Hi0 Hq0 Hc0. destruct (decide (l0 = l)) as [->|Hne].
      + rewrite list_lookup_insert_eq in Hc0 by by apply lookup_lt_Some in Hc. congruence.
      + rewrite list_lookup_insert_ne in Hc0 by done.
        apply (Hep i0 l0 c0); [|done..].
        destruct (decide (i0 = j)) as [->|?]; [congruence | lia]. }
    exists (evs ++ evs'). rewrite Hev, app_assoc. split; [done|].
    rewrite connect_locs_app, Hlocs, Hl'.
    destruct (decide (j < pool_initial_size_ (this w))).
    + replace (pool_initial_size_ (this w) `min` S j) with (S j) by lia.
      replace (pool_initial_size_ (this w) `min` j) with j by lia.
      by rewrite (take_S_slots _ _ _ Hq).
    + replace (pool_initial_size_ (this w) `min` S j)
        with (pool_initial_size_ (this w) `min` j) by lia.
      by rewrite app_nil_r.
  - exists w', evs. split; [done|]. split; [done|]. split; [done|].
    split; [|done].
    intros i l c Hq Hc. apply (Hep i l c); [|done..].
    apply lookup_lt_Some in Hq. by rewrite (wf_slots _ Hwf) in Hq.
Qed.

(** The last loop of [reconfigure]. *)
Lemma connect_loop w ni ep :
  pool_wf w → ni ≤ pool_max_size_ (this w) →
  ∃ w' evs,
    for_range 0 ni (connect_slot ldap_bind) w = Some ((), w') ∧
    this w' = this w ∧ heap_rel (retuned ep) (heap w) (heap w') ∧
    events w' = events w ++ evs ∧
    connect_locs evs = omap id (take ni (v_connections_ (this w))).
Proof.
  intros Hwf Hni.
  destruct (for_range_inv
    (λ j wj, this wj = this w ∧ heap_rel (retuned ep) (heap w) (heap wj) ∧
             ∃ evs, events wj = events w ++ evs ∧
                    connect_locs evs = omap id (take j (v_connections_ (this w))))
    (connect_slot ldap_bind) 0 ni w)
    as (w' & Hrun & Ht & Hrel & evs & Hev & Hlocs); [lia | | |].
  - split; [done|]. split; [apply heap_retuned_refl|].
    exists []. by rewrite app_nil_r.
  - intros j wj Hj (Ht & Hrel & evs & Hev & Hlocs).
    assert (pool_wf wj) as Hwfj by (apply (pool_wf_this w); [done..|apply Hrel]).
    destruct (slot_live wj j Hwfj ltac:(rewrite Ht; lia)) as (l & c & Hq & Hc).
    destruct (connect_slot_run wj j l c Hq Hc) as (c' & evs' & Hrun & Hl' & Hret).
    rewrite Ht in Hq.
    eexists. split; [exact Hrun|]. simpl. split; [done|]. split.
    { eapply heap_retuned_trans; [done|]. by eapply heap_retuned_insert. }
    exists (evs ++ evs'). rewrite Hev, app_assoc. split; [done|].
    by rewrite connect_locs_app, Hlocs, Hl', (take_S_slots _ _ _ Hq).
  - by exists w', evs.
Qed.

Lemma pool_endpoint_settings ni ep ca dn pw p :
  pool_endpoint (set_settings ni ep ca dn pw p) = ep.
Proof. by destruct ep. Qed.

(** [reconfigure] with a new initial size within the new size, stage by
    stage: the sweep gives [wz], the resize [wr]; then the settings are
    stored, the handles of the slots are retuned to the new endpoint, and
    the slots below the new initial size are connected in the configuring
    pass and once more in the last pass. *)
Lemma reconfigure_retuned w ni nm ep ca dn pw :
  pool_wf w → ni ≤ nm →
  ∃ wz wr w',
    zombie_control zombie_probe
      (mkWorld (heap w) (this w) (events w ++ [log_srv_dbg "Pool::reconfigure()"])) =
      Some ((), wz) ∧
    swept zombie_probe
      (mkWorld (heap w) (this w) (events w ++ [log_srv_dbg "Pool::reconfigure()"]))
      (pool_max_size_ (this w)) wz ∧
    pool_wf wz ∧
    resize_pool disconnected nm ep wz = Some ((), wr) ∧
    pool_wf wr ∧ pool_max_size_ (this wr) = nm ∧
    reconfigure disconnected ldap_bind zombie_probe ni nm ep ca dn pw w = Some ((), w') ∧
    pool_wf w' ∧
    this w' = set_settings ni ep ca dn pw (this wr) ∧
    heap_rel (retuned ep) (heap wr) (heap w') ∧
    (∀ i l c, v_connections_ (this wr) !! i = Some (Some l) → heap w' !! l = Some c →
              conn_endpoint_ c = ep) ∧
    ∃ evs1 evs2,
      events w' = events wr ++ evs1 ++ evs2 ∧
      connect_locs evs1 = omap id (take ni (v_connections_ (this wr))) ∧
      connect_locs evs2 = omap id (take ni (v_connections_ (this wr))).
Proof.
  intros Hwf Hni.
  set (w0 := mkWorld (heap w) (this w) (events w ++ [log_srv_dbg "Pool::reconfigure()"])).
  assert (pool_wf w0) as Hwf0 by by apply pool_wf_events.
  destruct (zombie_control_run w0 Hwf0) as (wz & Hz & Hsw).
  pose proof (swept_wf _ _ _ Hwf0 Hsw) as Hwfz.
  destruct (resize_pool_wf wz nm ep Hwfz) as (wr & Hr & Hwfr & Hmax).
  set (ws := mkWorld (heap wr) (set_settings ni ep ca dn pw (this wr)) (events wr)).
  assert (pool_wf ws) as Hwfs by by apply pool_wf_settings.
  destruct (configure_loop ws Hwfs) as (w1 & evs1 & Hrun1 & Ht1 & Hrel1 & Hep1 & Hev1 & Hl1).
  assert (pool_wf w1) as Hwf1 by (apply (pool_wf_this ws); [done..|apply Hrel1]).
  destruct (connect_loop w1 ni ep Hwf1) as (w2 & evs2 & Hrun2 & Ht2 & Hrel2 & Hev2 & Hl2).
  { rewrite Ht1. simpl. by rewrite Hmax. }
  assert (pool_wf w2) as Hwf2 by (apply (pool_wf_this w1); [done..|apply Hrel2]).
  unfold ws in Hrel1, Hep1, Hev1, Hl1.
  cbn [this heap events set_settings pool_initial_size_ pool_max_size_ v_connections_]
    in Hrel1, Hep1, Hev1, Hl1.
  rewrite pool_endpoint_settings in Hrel1, Hep1.
  exists wz, wr, w2. split; [done|]. split; [done|]. split; [done|]. split; [done|].
  split; [done|]. split; [done|]. split.
  { unfold reconfigure.
    erewrite bind_run; [|done]. fold w0.
    rewrite (bind_run _ _ _ _ _ Hz), (bind_run _ _ _ _ _ Hr).
    erewrite bind_run; [|done]. fold ws.
    rewrite (bind_run _ _ _ (this ws) ws) by done.
    by rewrite (bind_run _ _ _ _ _ Hrun1). }
  split; [done|]. split; [by rewrite Ht2, Ht1|].
  split; [by eapply heap_retuned_trans|]. split.
  { intros i l c Hq Hc.
    destruct Hrel2 as [Hlen2 Hcells2].
    destruct (lookup_lt_is_Some_2 (heap w1) l) as [c1 Hc1];
      [rewrite <- Hlen2; by apply lookup_lt_Some in Hc|].
    destruct (Hcells2 _ _ Hc1) as (c2 & Hc2 & _ & _ & _ & He).
    assert (c2 = c) as -> by congruence.
    pose proof (Hep1 i l c1 Hq Hc1) as He1.
    destruct He as [He|He]; congruence. }
  exists evs1, evs2. rewrite Hev2, Hev1, <- app_assoc. split; [done|].
  rewrite Hl2, Ht1. simpl.
  split; [|done]. rewrite Hl1, Hmax. by replace (ni `min` nm) with ni by lia.
Qed.

(** ** What a resize does to the handles of the slots *)

Lemma not_in_dropped_slots w nm i l :
  pool_wf w → i < nm → v_connections_ (this w) !! i = Some (Some l) →
  Some l ∉ drop nm (v_connections_ (this w)).
Proof.
  intros Hwf Hi Hq Hin. apply elem_of_drop_slots in Hin as (i' & Hi' & Hq').
  pose proof (NoDup_lookup _ _ _ _ (wf_nodup _ Hwf) Hq Hq'). lia.
Qed.

Lemma resize_pool_tagged w nm ep wr :
  pool_wf w → slots_tagged w →
  resize_pool disconnected nm ep w = Some ((), wr) → slots_tagged wr.
Proof.
  intros Hwf Htag Hrun.
  destruct (Nat.lt_trichotomy nm (pool_max_size_ (this w))) as [Hlt|[->|Hgt]].
  - destruct (resize_pool_shrink w nm ep Hwf Hlt) as (h' & Hr & Hlen & Hcells).
    rewrite Hr in Hrun. injection Hrun as <-.
    intros i l c' Hq Hc'. simpl in Hq, Hc'.
    apply lookup_take_Some in Hq as [Hq Hi].
    destruct (lookup_lt_is_Some_2 (heap w) l) as [c Hc];
      [rewrite <- Hlen; by apply lookup_lt_Some in Hc'|].
    rewrite (Hcells _ _ Hc) in Hc'.
    rewrite bool_decide_eq_false_2 in Hc' by by eapply not_in_dropped_slots.
    injection Hc' as <-. by apply (Htag i l).
  - rewrite resize_pool_same in Hrun. by injection Hrun as <-.
  - rewrite resize_pool_grow_exact in Hrun by done. injection Hrun as <-.
    intros i l c Hq Hc. simpl in Hq, Hc.
    apply lookup_app_Some in Hq as [Hq|[Hi Hq]].
    + destruct (wf_live _ Hwf _ _ Hq) as (l' & [= <-] & Hl).
      rewrite lookup_app_l in Hc by done. by apply (Htag i l).
    + rewrite list_lookup_fmap in Hq.
      destruct (seq _ _ !! _) as [l'|] eqn:Hseq; [|done]. injection Hq as ->.
      apply lookup_seq in Hseq as [-> Hlt].
      rewrite lookup_app_r in Hc by lia.
      rewrite list_lookup_fmap, lookup_seq_lt in Hc by lia.
      injection Hc as <-. simpl. rewrite (wf_slots _ Hwf) in *. split; [lia | done].
Qed.

Lemma resize_pool_mapping w nm ep wr :
  pool_wf w → resize_pool disconnected nm ep w = Some ((), wr) →
  group_role_mapping_ (this wr) = group_role_mapping_ (this w).
Proof.
  intros Hwf Hrun.
  destruct (Nat.lt_trichotomy nm (pool_max_size_ (this w))) as [Hlt|[->|Hgt]].
  - destruct (resize_pool_shrink w nm ep Hwf Hlt) as (h' & Hr & _).
    rewrite Hr in Hrun. by injection Hrun as <-.
  - rewrite resize_pool_same in Hrun. by injection Hrun as <-.
  - rewrite resize_pool_grow_exact in Hrun by done. by injection Hrun as <-.
Qed.

Lemma heap_retuned_tagged ep w w' :
  v_connections_ (this w') = v_connections_ (this w) →
  heap_rel (retuned ep) (heap w) (heap w') → slots_tagged w → slots_tagged w'.
Proof.
  intros Hv [Hlen Hrel] Htag i l c' Hq Hc'. rewrite Hv in Hq.
  destruct (lookup_lt_is_Some_2 (heap w) l) as [c Hc];
    [rewrite <- Hlen; by apply lookup_lt_Some in Hc'|].
  destruct (Hrel _ _ Hc) as (c'' & Hc'' & Hidx & Hsn & _).
  assert (c'' = c') as -> by congruence.
  destruct (Htag _ _ _ Hq Hc) as [Hi Hs]. split; congruence.
Qed.

Lemma reconfigure_tagged w ni nm ep ca dn pw w' :
  pool_wf w → slots_tagged w →
  reconfigure disconnected ldap_bind zombie_probe ni nm ep ca dn pw w = Some ((), w') →
  slots_tagged w'.
Proof.
  intros Hwf Htag Hrun.
  destruct (decide (ni ≤ nm)) as [Hni|Hni].
  2:{ rewrite reconfigure_initial_beyond_max in Hrun by (done || lia). done. }
  destruct (reconfigure_retuned w ni nm ep ca dn pw Hwf Hni)
    as (wz & wr & w2 & Hz & Hsw & Hwfz & Hr & Hwfr & Hmax & Hrun' & Hwf' & Ht & Hrel & _).
  rewrite Hrun' in Hrun. injection Hrun as <-.
  apply (heap_retuned_tagged ep wr); [by rewrite Ht | done |].
  apply (resize_pool_tagged wz nm ep); [done | | done].
  by apply (handles_tagged _ _ _ _ handles_zombie_control Hz).
Qed.

(** X12: in every pool that the constructor makes, each handle in a slot
    carries the position of that slot as its index and is not snipped, and
    every [borrow_connection], [return_connection] and [zombie_control]
    that completes, and every [reconfigure] of a well-formed pool that
    completes, keeps it so. *)
Theorem slots_tagged_kept :
  (∀ w0 ni nm ep ca dn pw w,
     Pool_Pool disconnected ldap_bind ni nm ep ca dn pw w0 = Some ((), w) →
     slots_tagged w) ∧
  (∀ w, slots_tagged w →
     (∀ dc r w', borrow_connection ldap_bind dc w = Some (r, w') → slots_tagged w') ∧
     (∀ conn w', return_connection conn w = Some ((), w') → slots_tagged w') ∧
     (∀ w', zombie_control zombie_probe w = Some ((), w') → slots_tagged w') ∧
     (pool_wf w → ∀ ni nm ep ca dn pw w',
        reconfigure disconnected ldap_bind zombie_probe ni nm ep ca dn pw w = Some ((), w') →
        slots_tagged w')).
Proof.
  split.
  - intros w0 ni nm ep ca dn pw w Hrun.
    rewrite Pool_Pool_exact in Hrun. injection Hrun as <-. apply constructing_tagged.
  - intros w Htag. split; [|split; [|split]].
    + intros dc r w' Hrun. by apply (handles_tagged _ _ _ _ (handles_borrow_connection dc) Hrun).
    + intros conn w' Hrun.
      by apply (handles_tagged _ _ _ _ (handles_return_connection conn) Hrun).
    + intros w' Hrun. by apply (handles_tagged _ _ _ _ handles_zombie_control Hrun).
    + intros Hwf ni nm ep ca dn pw w' Hrun. by eapply reconfigure_tagged.
Qed.

(** X13: a [reconfigure] whose new initial size is within the new size
    stores all the settings it is given and the new size, leaves the
    group-role mapping alone, and leaves every handle that sits in a slot
    with the new endpoint; no handle changes its index. *)
Theorem reconfigure_settings w ni nm ep ca dn pw :
  pool_wf w → ni ≤ nm →
  ∃ w', reconfigure disconnected ldap_bind zombie_probe ni nm ep ca dn pw w = Some ((), w') ∧
        pool_wf w' ∧
        pool_initial_size_ (this w') = ni ∧ pool_max_size_ (this w') = nm ∧
        pool_endpoint (this w') = ep ∧ ca_path_ (this w') = ca ∧
        bind_dn_ (this w') = dn ∧ bind_pwd_ (this w') = pw ∧
        group_role_mapping_ (this w') = group_role_mapping_ (this w) ∧
        (∀ i l c, v_connections_ (this w') !! i = Some (Some l) → heap w' !! l = Some c →
                  conn_endpoint_ c = ep) ∧
        (∀ l c, heap w !! l = Some c →
                ∃ c', heap w' !! l = Some c' ∧ idx_pool_ c' = idx_pool_ c).
Proof.
  intros Hwf Hni.
  destruct (reconfigure_retuned w ni nm ep ca dn pw Hwf Hni)
    as (wz & wr & w' & Hz & Hsw & Hwfz & Hr & Hwfr & Hmax & Hrun & Hwf' & Ht & Hrel & Hep & _).
  exists w'. split; [done|]. split; [done|]. rewrite Ht.
  split; [done|]. split; [done|]. split; [apply pool_endpoint_settings|].
  split; [done|]. split; [done|]. split; [done|]. split; [|split].
  - simpl. rewrite (resize_pool_mapping wz nm ep wr Hwfz Hr).
    destruct Hsw as ([bs ->] & _). done.
  - intros i l c Hq Hc. by apply (Hep i l c).
  - intros l c Hc.
    destruct (handles_zombie_control _ _ _ Hz) as [_ [_ Hzrel]].
    destruct (Hzrel l c Hc) as (cz & Hcz & Hidz & _).
    assert (∃ cr, heap wr !! l = Some cr ∧ idx_pool_ cr = idx_pool_ cz) as (cr & Hcr & Hidr).
    { destruct (Nat.lt_trichotomy nm (pool_max_size_ (this wz))) as [Hlt|[Heq|Hgt]].
      - destruct (resize_pool_shrink wz nm ep Hwfz Hlt) as (h' & Hr' & _ & Hcells).
        rewrite Hr' in Hr. injection Hr as <-. simpl.
        rewrite (Hcells _ _ Hcz). eexists. split; [done|]. by destruct (bool_decide _).
      - rewrite Heq, resize_pool_same in Hr. injection Hr as <-. by exists cz.
      - rewrite resize_pool_grow_exact in Hr by done. injection Hr as <-. simpl.
        exists cz. split; [|done]. rewrite lookup_app_l; [done|].
        by apply lookup_lt_Some in Hcz. }
    destruct (proj2 Hrel l cr Hcr) as (c' & Hc' & Hid' & _).
    exists c'. split; [done|]. congruence.
Qed.

(** X14: a [reconfigure] to a larger size (the new initial size being
    within it) keeps the slots and their handles and appends one new handle
    for each new slot; the old bits are kept, except those that the opening
    sweep reclaims; the new slots are not lent, and their handles carry the
    positions of their slots and the new endpoint, are free and are not
    snipped. *)
Theorem reconfigure_grow w ni nm ep ca dn pw :
  pool_wf w → pool_max_size_ (this w) < nm → ni ≤ nm →
  ∃ w', reconfigure disconnected ldap_bind zombie_probe ni nm ep ca dn pw w = Some ((), w') ∧
        pool_wf w' ∧ pool_max_size_ (this w') = nm ∧
        v_connections_ (this w') =
          v_connections_ (this w) ++
          (Some <$> seq (length (heap w)) (nm - pool_max_size_ (this w))) ∧
        length (heap w') = length (heap w) + (nm - pool_max_size_ (this w)) ∧
        length (bs_used_ (this w')) = nm ∧
        (∀ i b, bs_used_ (this w) !! i = Some b →
           bs_used_ (this w') !! i = Some (if reclaimed zombie_probe w i then false else b)) ∧
        (∀ i, pool_max_size_ (this w) ≤ i < nm →
           bs_used_ (this w') !! i = Some false ∧
           ∃ c, heap w' !! (length (heap w) + (i - pool_max_size_ (this w))) = Some c ∧
                idx_pool_ c = i ∧ conn_endpoint_ c = ep ∧
                is_busy_ c = false ∧ snipped_ c = false).
Proof.
  intros Hwf Hnm Hni.
  destruct (reconfigure_retuned w ni nm ep ca dn pw Hwf Hni)
    as (wz & wr & w' & Hz & Hsw & Hwfz & Hr & Hwfr & Hmax & Hrun & Hwf' & Ht & Hrel & Hep & _).
  destruct Hsw as ([bs Hzthis] & Hblen & Hbits & Hhlen & _). simpl in *.
  assert (v_connections_ (this wz) = v_connections_ (this w)) as Hzv by by rewrite Hzthis.
  assert (pool_max_size_ (this wz) = pool_max_size_ (this w)) as Hzmax by by rewrite Hzthis.
  rewrite resize_pool_grow_exact in Hr by (done || lia). injection Hr as <-.
  simpl in *. rewrite Hzv, Hzmax, Hhlen in *.
  exists w'. split; [done|]. split; [done|]. rewrite Ht. simpl.
  split; [done|]. split; [done|].
  split; [destruct Hrel as [-> _]; by rewrite length_app, length_fmap, length_seq, Hhlen|].
  split; [rewrite length_app, length_replicate, Hblen, (wf_used _ Hwf); lia|].
  split.
  - intros i b Hb. pose proof (lookup_lt_Some _ _ _ Hb) as Hi.
    rewrite lookup_app_l by lia. rewrite (Hbits _ _ Hb).
    rewrite decide_True by (by rewrite <- (wf_used _ Hwf)).
    change (reclaimed zombie_probe (mkWorld (heap w) (this w) _) i)
      with (reclaimed zombie_probe w i).
    by destruct (reclaimed zombie_probe w i), b.
  - intros i Hi. split.
    + rewrite lookup_app_r by (rewrite Hblen, (wf_used _ Hwf); lia).
      apply lookup_replicate_2. rewrite Hblen, (wf_used _ Hwf). lia.
    + destruct (proj2 Hrel (length (heap w) + (i - pool_max_size_ (this w)))
                  (Connection_new disconnected i ep)) as (c & Hc & Hidx & Hsn & Hbusy & He).
      { rewrite lookup_app_r by lia.
        replace (length (heap w) + (i - pool_max_size_ (this w)) - length (heap wz))
          with (i - pool_max_size_ (this w)) by lia.
        rewrite list_lookup_fmap, lookup_seq_lt by lia. simpl. do 2 f_equal. lia. }
      exists c. split; [done|]. split; [done|]. split; [by destruct He|]. done.
Qed.

(** X15: a handle that is lent while the pool shrinks below its slot comes
    out of [reconfigure] snipped and in no slot; returning it then releases
    it and leaves the pool object as the shrink left it, and a borrow in
    the state after the shrink does not hand it out. *)
Theorem reconfigure_shrink_then_return w ni nm ep ca dn pw i l :
  pool_wf w → nm < pool_max_size_ (this w) → ni ≤ nm →
  nm ≤ i → v_connections_ (this w) !! i = Some (Some l) →
  ∃ w' w'' c',
    reconfigure disconnected ldap_bind zombie_probe ni nm ep ca dn pw w = Some ((), w') ∧
    heap w' !! l = Some c' ∧ snipped_ c' = true ∧
    (Some l ∉ v_connections_ (this w')) ∧
    return_connection (Some l) w' = Some ((), w'') ∧
    this w'' = this w' ∧
    heap w'' = <[l := Connection_mark_as_free c']> (heap w') ∧
    events w'' = events w' ++ [ev_reset (Some l)] ∧
    ((Z.of_nat nm ≤ 2 ^ 31)%Z →
     ∀ dc r w3, borrow_connection ldap_bind dc w' = Some (r, w3) → r ≠ Some l).
Proof.
  intros Hwf Hnm Hni Hi Hq.
  destruct (reconfigure_retuned w ni nm ep ca dn pw Hwf Hni)
    as (wz & wr & w' & Hz & Hsw & Hwfz & Hr & Hwfr & Hmax & Hrun & Hwf' & Ht & Hrel & _).
  destruct (handles_zombie_control _ _ _ Hz) as [Hzv [Hzlen Hzrel]]. simpl in *.
  assert (pool_max_size_ (this wz) = pool_max_size_ (this w)) as Hzmax
    by (destruct Hsw as ([bs ->] & _); done).
  destruct (wf_live _ Hwf _ _ Hq) as (l' & [= <-] & Hl).
  destruct (lookup_lt_is_Some_2 _ _ Hl) as [c Hc].
  destruct (Hzrel l c Hc) as (cz & Hcz & _).
  destruct (resize_pool_shrink wz nm ep Hwfz ltac:(lia)) as (h' & Hr' & Hlen & Hcells).
  rewrite Hr' in Hr. injection Hr as <-. simpl in *.
  pose proof (Hcells _ _ Hcz) as Hcr. rewrite Hzv in Hcr.
  rewrite bool_decide_eq_true_2 in Hcr.
  2:{ apply elem_of_drop_slots. exists i. split; [|done].
      apply lookup_lt_Some in Hq. lia. }
  destruct (proj2 Hrel _ _ Hcr) as (c' & Hc' & _ & Hsn & _). simpl in Hsn.
  assert (Some l ∉ v_connections_ (this w')) as Hout.
  { rewrite Ht. simpl. rewrite Hzv. intros Hin.
    apply list_elem_of_lookup in Hin as [i' Hi'].
    apply lookup_take_Some in Hi' as [Hi' Hlt].
    pose proof (NoDup_lookup _ _ _ _ (wf_nodup _ Hwf) Hq Hi'). lia. }
  exists w'. do 2 eexists. split; [done|]. split; [done|]. split; [done|].
  split; [done|].
  split; [by apply return_connection_snipped_run|]. simpl.
  split; [done|]. split; [done|]. split; [done|].
  intros Hint dc r w3 Hb ->.
  assert (int_indexable w') as Hint' by (unfold int_indexable; by rewrite Ht).
  destruct (borrow_connection_some w' dc l w3 Hwf' Hint' Hb) as (i0 & c0 & _ & Hq0 & _).
  apply Hout. by eapply list_elem_of_lookup_2.
Qed.

(** ** More on the sweep *)

(** X16: when no lent slot holds a handle that answers the probe,
    [zombie_control] changes nothing at all: the pool object, the handles
    and the trace are what they were. *)
Theorem zombie_control_nothing_to_reclaim w :
  pool_wf w → (∀ i, reclaimed zombie_probe w i = false) →
  zombie_control zombie_probe w = Some ((), w).
Proof.
  intros Hwf Hnone. unfold zombie_control. rewrite (bind_run _ _ _ (this w) w) by done.
  destruct (for_range_inv (λ _ wj, wj = w) (zombie_control_slot zombie_probe)
              0 (pool_max_size_ (this w)) w) as (w' & Hrun & ->); [lia | done | | done].
  intros j wj Hj ->. exists w. split; [|done].
  destruct (lookup_lt_is_Some_2 (bs_used_ (this w)) j) as [b Hb];
    [rewrite (wf_used _ Hwf); lia|].
  destruct (slot_live w j Hwf ltac:(lia)) as (l & c & Hq & Hc).
  rewrite (zombie_control_slot_run w j b l c Hb Hq Hc).
  by rewrite <- (reclaimed_eq w j b l c Hb Hq Hc), Hnone.
Qed.

Lemma emits_zombie_control P :
  (∀ i, P (ev_bs_set i false)) → emits_only P (zombie_control zombie_probe).
Proof. intros HP. unfold zombie_control, zombie_control_slot, mark_as_free. emits. Qed.

(** X17: [zombie_control] never lends anything: a bit that is set after
    the sweep was set before it and its slot was not reclaimed, so the
    number of lent slots does not grow; the slot vector, the size and the
    length of the store are kept; and all that the sweep writes to the
    trace are bit clears. *)
Theorem zombie_control_only_clears w :
  pool_wf w →
  ∃ w' evs,
    zombie_control zombie_probe w = Some ((), w') ∧
    (∀ i, bs_used_ (this w') !! i = Some true →
          bs_used_ (this w) !! i = Some true ∧ reclaimed zombie_probe w i = false) ∧
    bitset_count (bs_used_ (this w')) ≤ bitset_count (bs_used_ (this w)) ∧
    v_connections_ (this w') = v_connections_ (this w) ∧
    pool_max_size_ (this w') = pool_max_size_ (this w) ∧
    length (heap w') = length (heap w) ∧
    events w' = events w ++ evs ∧
    Forall (λ e, ∃ i, e = ev_bs_set i false) evs.
Proof.
  intros Hwf.
  destruct (zombie_control_run w Hwf)
    as (w' & Hrun & [bs Hthis] & Hlen & Hbits & Hhlen & _).
  destruct (emits_zombie_control (λ e, ∃ i, e = ev_bs_set i false)
              (λ i, ex_intro _ i eq_refl) _ _ _ Hrun) as (evs & Hev & Hall).
  assert (∀ i, bs_used_ (this w') !! i = Some true →
               bs_used_ (this w) !! i = Some true ∧ reclaimed zombie_probe w i = false)
    as Hset.
  { intros i Hi.
    destruct (lookup_lt_is_Some_2 (bs_used_ (this w)) i) as [b Hb];
      [rewrite <- Hlen; by apply lookup_lt_Some in Hi|].
    rewrite (Hbits _ _ Hb) in Hi.
    rewrite decide_True in Hi
      by (apply lookup_lt_Some in Hb; by rewrite (wf_used _ Hwf) in Hb).
    injection Hi as Hi. apply andb_true_iff in Hi as [-> Hr].
    split; [done|]. by apply negb_true_iff in Hr. }
  exists w', evs. split; [done|]. split; [done|].
  split; [apply bitset_count_mono; [done|]; intros i Hi; by apply Hset|].
  rewrite Hthis. done.
Qed.

(** ** Who connects and who starts a sweep *)

Lemma emits_return_connection P conn :
  P (ev_reset conn) → P ev_thread_zombie_control → (∀ i, P (ev_bs_set i false)) →
  emits_only P (@return_connection Session conn).
Proof. intros H1 H2 H3. unfold return_connection, mark_as_free. emits. Qed.

Lemma emits_borrow_connection_plain P :
  (∀ msg, P (log_srv_warn msg)) → (∀ msg, P (log_srv_error msg)) →
  P ev_thread_zombie_control → (∀ i v, P (ev_bs_set i v)) →
  emits_only P (borrow_connection ldap_bind false).
Proof.
  intros H1 H2 H3 H4.
  unfold borrow_connection, find_first_free, mark_as_busy, get_connection, mark_as_free.
  cbv iota. emits; apply emits_scan_free.
Qed.

Lemma emits_reconfigure P ni nm ep ca dn pw :
  (∀ msg, P (log_srv_dbg msg)) → (∀ i v, P (ev_bs_set i v)) →
  (∀ l st, P (ev_connect l st)) →
  emits_only P (reconfigure disconnected ldap_bind zombie_probe ni nm ep ca dn pw).
Proof.
  intros H1 H2 H3.
  unfold reconfigure, zombie_control, zombie_control_slot, mark_as_free, resize_pool,
    snip_slot, new_slot, configure_slot, connect_slot.
  emits.
Qed.

Lemma emits_Pool_Pool P ni nm ep ca dn pw :
  (∀ b ca', P (ev_global_init b ca')) → (∀ l st, P (ev_connect l st)) →
  emits_only P (Pool_Pool disconnected ldap_bind ni nm ep ca dn pw).
Proof. intros H1 H2. unfold Pool_Pool, construct_slot. emits. Qed.

(** X18: the pool talks to the directory only when it is asked to:
    [return_connection], [zombie_control] and [borrow_connection] with
    [default_connect = false] add no connect attempt to the trace. *)
Theorem connects_only_on_request w :
  (∀ conn w', return_connection conn w = Some ((), w') →
     ∃ evs, events w' = events w ++ evs ∧ Forall (λ e, is_connect e = false) evs) ∧
  (∀ w', zombie_control zombie_probe w = Some ((), w') →
     ∃ evs, events w' = events w ++ evs ∧ Forall (λ e, is_connect e = false) evs) ∧
  (∀ r w', borrow_connection ldap_bind false w = Some (r, w') →
     ∃ evs, events w' = events w ++ evs ∧ Forall (λ e, is_connect e = false) evs).
Proof.
  split; [|split].
  - intros conn w'. by apply emits_return_connection.
  - intros w'. by apply emits_zombie_control.
  - intros r w'. by apply emits_borrow_connection_plain.
Qed.

(** X19: a detached sweep is started by [borrow_connection] and
    [return_connection] only: [reconfigure], which runs its sweep inline,
    [zombie_control] itself and the constructor add no such event to the
    trace. *)
Theorem sweeps_started_by_callers_only w :
  (∀ ni nm ep ca dn pw w',
     reconfigure disconnected ldap_bind zombie_probe ni nm ep ca dn pw w = Some ((), w') →
     ∃ evs, events w' = events w ++ evs ∧ Forall (λ e, is_spawn e = false) evs) ∧
  (∀ w', zombie_control zombie_probe w = Some ((), w') →
     ∃ evs, events w' = events w ++ evs ∧ Forall (λ e, is_spawn e = false) evs) ∧
  (∀ ni nm ep ca dn pw w',
     Pool_Pool disconnected ldap_bind ni nm ep ca dn pw w = Some ((), w') →
     ∃ evs, events w' = events w ++ evs ∧ Forall (λ e, is_spawn e = false) evs).
Proof.
  split; [|split].
  - intros ni nm ep ca dn pw w'. by apply emits_reconfigure.
  - intros w'. by apply emits_zombie_control.
  - intros ni nm ep ca dn pw w'. by apply emits_Pool_Pool.
Qed.

(** X20: [borrow_connection] asks for a sweep exactly when it finds every
    slot lent; it then returns none and leaves the pool object and the
    handles alone.  A borrow that finds a free slot starts no sweep, also
    when its connect fails. *)
Theorem borrow_connection_sweep w dc :
  pool_wf w → int_indexable w →
  ∃ r w' evs,
    borrow_connection ldap_bind dc w = Some (r, w') ∧
    events w' = events w ++ evs ∧
    (ev_thread_zombie_control ∈ evs ↔ bitset_all (bs_used_ (this w)) = true) ∧
    (bitset_all (bs_used_ (this w)) = true →
     r = None ∧ this w' = this w ∧ heap w' = heap w).
Proof.
  intros Hwf Hint.
  destruct (borrow_connection_cases w dc Hwf Hint)
    as [[Hall ->]|(i & l & c & Hfree & Hq & Hc & [(_ & _ & ->)|[_ ->]])].
  - do 3 eexists. split; [done|]. split; [done|]. split; [|done].
    split; [done|]. intros _. apply list_elem_of_In. right. left. reflexivity.
  - assert (bitset_all (bs_used_ (this w)) = false) as Hall.
    { destruct (bitset_all _) eqn:Hall; [|done]. rewrite bitset_all_true in Hall.
      destruct Hfree as [Hi _]. by specialize (Hall _ _ Hi). }
    do 3 eexists. split; [done|]. split; [done|]. rewrite Hall. split; [|done].
    split; [|done]. intros Hin%list_elem_of_In. simpl in Hin.
    repeat (destruct Hin as [Hin|Hin]; [discriminate Hin|]). destruct Hin.
  - assert (bitset_all (bs_used_ (this w)) = false) as Hall.
    { destruct (bitset_all _) eqn:Hall; [|done]. rewrite bitset_all_true in Hall.
      destruct Hfree as [Hi _]. by specialize (Hall _ _ Hi). }
    do 3 eexists. split; [done|]. split; [done|]. rewrite Hall. split; [|done].
    split; [|done]. intros Hin%list_elem_of_In.
    destruct dc; simpl in Hin;
      repeat (destruct Hin as [Hin|Hin]; [discriminate Hin|]); destruct Hin.
Qed.

Lemma emits_resize_pool P nm ep :
  (∀ msg, P (log_srv_dbg msg)) → emits_only P (resize_pool disconnected nm ep).
Proof. intros HP. unfold resize_pool, snip_slot, new_slot. emits. Qed.

Lemma omap_id_all_some (v : list (option nat)) :
  (∀ q, q ∈ v → is_Some q) → Some <$> omap id v = v.
Proof.
  induction v as [|q v IH]; intros Hall; [done|].
  destruct (Hall q (list_elem_of_here _ _)) as [l ->].
  change (Some <$> omap id (Some l :: v)) with (Some l :: (Some <$> omap id v)).
  rewrite IH; [done|]. intros q' Hq'. apply Hall. by apply list_elem_of_further.
Qed.

(** X21: a [reconfigure] whose new initial size is within the new size
    makes two connect attempts on the handle of every slot below the new
    initial size, and none on any other handle: one pass in the order of
    the slots while the slots are configured, and the same pass once more
    at the end. *)
Theorem reconfigure_connects_twice w ni nm ep ca dn pw :
  pool_wf w → ni ≤ nm →
  ∃ w' evs locs,
    reconfigure disconnected ldap_bind zombie_probe ni nm ep ca dn pw w = Some ((), w') ∧
    events w' = events w ++ evs ∧
    Some <$> locs = take ni (v_connections_ (this w')) ∧
    length locs = ni ∧
    connect_locs evs = locs ++ locs.
Proof.
  intros Hwf Hni.
  destruct (reconfigure_retuned w ni nm ep ca dn pw Hwf Hni)
    as (wz & wr & w' & Hz & Hsw & Hwfz & Hr & Hwfr & Hmax & Hrun & Hwf' & Ht & Hrel & _
        & evs1 & evs2 & Hev & Hl1 & Hl2).
  destruct (emits_zombie_control (λ e, is_connect e = false) (λ _, eq_refl) _ _ _ Hz)
    as (evsz & Hevz & Hnz).
  destruct (emits_resize_pool (λ e, is_connect e = false) nm ep (λ _, eq_refl) _ _ _ Hr)
    as (evsr & Hevr & Hnr).
  simpl in Hevz.
  assert (Some <$> omap id (take ni (v_connections_ (this wr))) =
          take ni (v_connections_ (this wr))) as Hlocs.
  { apply omap_id_all_some. intros q Hq. apply subseteq_take in Hq.
    apply list_elem_of_lookup in Hq as [i Hi].
    destruct (wf_live _ Hwfr _ _ Hi) as (l & -> & _). by eexists. }
  exists w', ([log_srv_dbg "Pool::reconfigure()"] ++ evsz ++ evsr ++ evs1 ++ evs2),
    (omap id (take ni (v_connections_ (this wr)))).
  split; [done|]. split.
  { rewrite Hev, Hevr, Hevz. by rewrite <- !app_assoc. }
  rewrite Ht. simpl. split; [done|]. split.
  { rewrite <- (length_fmap Some), Hlocs, length_take, (wf_slots _ Hwfr). lia. }
  rewrite !connect_locs_app, (connect_locs_none evsz), (connect_locs_none evsr) by done.
  by rewrite Hl1, Hl2.
Qed.

(** ** Bitmap, slots and handles tell the same story *)

Lemma consistent_events w evs :
  pool_consistent w → pool_consistent (mkWorld (heap w) (this w) evs).
Proof.
  intros (Hwf & Htag & Hhome & Hag).
  split; [by apply pool_wf_heap|]. done.
Qed.

(** The handle of the slot [i] and the bit of [i] change together. *)
Lemma consistent_slot_update w i l c c' evs :
  pool_consistent w →
  v_connections_ (this w) !! i = Some (Some l) → heap w !! l = Some c →
  same_id c c' →
  pool_consistent
    (mkWorld (<[l := c']> (heap w))
       (set_bs_used_ (<[i := is_busy_ c']> (bs_used_ (this w))) (this w)) evs).
Proof.
  intros (Hwf & Htag & Hhome & Hag) Hq Hc [Hidx Hsn].
  assert (l < length (heap w)) as Hl by by apply lookup_lt_Some in Hc.
  assert (i < length (bs_used_ (this w))) as Hi
    by (apply lookup_lt_Some in Hq; by rewrite (wf_used _ Hwf), <- (wf_slots _ Hwf)).
  destruct (Htag _ _ _ Hq Hc) as [Hci Hcs].
  split; [apply pool_wf_bits; [done | apply length_insert..]|].
  split; [|split].
  - intros i0 l0 c0 Hq0 Hc0. simpl in *.
    destruct (decide (l0 = l)) as [->|Hne].
    + rewrite list_lookup_insert_eq in Hc0 by done. injection Hc0 as <-.
      pose proof (NoDup_lookup _ _ _ _ (wf_nodup _ Hwf) Hq0 Hq) as ->.
      split; congruence.
    + rewrite list_lookup_insert_ne in Hc0 by done. by apply (Htag i0 l0).
  - intros l0 c0 Hc0 Hs0. simpl in *.
    destruct (decide (l0 = l)) as [->|Hne].
    + rewrite list_lookup_insert_eq in Hc0 by done. injection Hc0 as <-.
      rewrite Hidx, Hci. done.
    + rewrite list_lookup_insert_ne in Hc0 by done. by apply Hhome.
  - intros i0 l0 c0 Hq0 Hc0. simpl in *.
    destruct (decide (i0 = i)) as [->|Hne].
    + assert (l0 = l) as -> by congruence.
      rewrite list_lookup_insert_eq in Hc0 by done. injection Hc0 as <-.
      by rewrite list_lookup_insert_eq.
    + assert (l0 ≠ l) as Hll.
      { intros ->. apply Hne. by apply (NoDup_lookup _ _ _ _ (wf_nodup _ Hwf) Hq0 Hq). }
      rewrite list_lookup_insert_ne in Hc0 by done.
      rewrite list_lookup_insert_ne by done. by apply (Hag i0 l0).
Qed.

(** A handle of no slot changes. *)
Lemma consistent_snipped_update w l c c' evs :
  pool_consistent w → heap w !! l = Some c → snipped_ c = true → snipped_ c' = true →
  pool_consistent (mkWorld (<[l := c']> (heap w)) (this w) evs).
Proof.
  intros (Hwf & Htag & Hhome & Hag) Hc Hs Hs'.
  assert (l < length (heap w)) as Hl by by apply lookup_lt_Some in Hc.
  assert (∀ i, v_connections_ (this w) !! i ≠ Some (Some l)) as Hout.
  { intros i Hq. destruct (Htag _ _ _ Hq Hc) as [_ ?]. congruence. }
  split; [apply pool_wf_heap; [done | apply length_insert]|].
  split; [|split].
  - intros i0 l0 c0 Hq0 Hc0. simpl in *.
    destruct (decide (l0 = l)) as [->|Hne]; [by destruct (Hout i0)|].
    rewrite list_lookup_insert_ne in Hc0 by done. by apply (Htag i0 l0).
  - intros l0 c0 Hc0 Hs0. simpl in *.
    destruct (decide (l0 = l)) as [->|Hne].
    + rewrite list_lookup_insert_eq in Hc0 by done. congruence.
    + rewrite list_lookup_insert_ne in Hc0 by done. by apply Hhome.
  - intros i0 l0 c0 Hq0 Hc0. simpl in *.
    destruct (decide (l0 = l)) as [->|Hne]; [by destruct (Hout i0)|].
    rewrite list_lookup_insert_ne in Hc0 by done. by apply (Hag i0 l0).
Qed.

Lemma consistent_borrow_connection w dc :
  pool_consistent w → int_indexable w →
  ∃ r w', borrow_connection ldap_bind dc w = Some (r, w') ∧ pool_consistent w' ∧
          pool_max_size_ (this w') = pool_max_size_ (this w) ∧
          length (heap w') = length (heap w).
Proof.
  intros Hcon Hint. pose proof Hcon as (Hwf & Htag & Hhome & Hag).
  destruct (borrow_connection_cases w dc Hwf Hint)
    as [[Hall ->]|(i & l & c & Hfree & Hq & Hc & [(_ & _ & ->)|[_ ->]])].
  - do 2 eexists. split; [done|]. split; [by apply consistent_events | done].
  - do 2 eexists. split; [done|]. simpl. split; [|split; [done | apply length_insert]].
    destruct (connect_cell (bind_dn_ (this w)) (bind_pwd_ (this w)) c) as (H1 & H2 & H3 & _).
    pose proof (consistent_slot_update w i l c
                  (Connection_connect ldap_bind (bind_dn_ (this w)) (bind_pwd_ (this w)) c).2
                  (events w ++ [ev_bs_set i true; ev_connect l FAILURE;
                                log_srv_error "Connection to LDAP backend failed";
                                ev_bs_set i false])
                  Hcon Hq Hc (conj H1 H2)) as Hupd.
    rewrite (list_insert_id (bs_used_ (this w))), set_bs_used_id in Hupd
      by (rewrite H3; by apply (Hag i l)).
    exact Hupd.
  - do 2 eexists. split; [done|]. simpl.
    split; [|split; [by destruct (this w) | apply length_insert]].
    apply (consistent_slot_update w i l c
             (Connection_mark_as_busy
                (if dc
                 then (Connection_connect ldap_bind (bind_dn_ (this w))
                         (bind_pwd_ (this w)) c).2
                 else c)) _ Hcon Hq Hc).
    destruct (connect_cell (bind_dn_ (this w)) (bind_pwd_ (this w)) c) as (H1 & H2 & _).
    destruct dc; split; simpl; congruence.
Qed.

Lemma consistent_return_connection w l :
  pool_consistent w → int_indexable w → l < length (heap w) →
  ∃ w', return_connection (Some l) w = Some ((), w') ∧ pool_consistent w' ∧
        pool_max_size_ (this w') = pool_max_size_ (this w) ∧
        length (heap w') = length (heap w).
Proof.
  intros Hcon Hint Hl. pose proof Hcon as (Hwf & Htag & Hhome & Hag).
  destruct (lookup_lt_is_Some_2 _ _ Hl) as [c Hc].
  destruct (snipped_ c) eqn:Hs.
  - rewrite (return_connection_snipped_run _ _ _ Hc Hs).
    eexists. split; [done|]. simpl. split; [|split; [done | apply length_insert]].
    by apply (consistent_snipped_update w l c).
  - destruct (return_connection_kept _ _ _ Hc Hs) as (evs & Hrun & _).
    simpl in Hrun. rewrite Hrun. eexists. split; [done|]. simpl.
    split; [|split; [by destruct (this w) | apply length_insert]].
    pose proof (Hhome _ _ Hc Hs) as Hq.
    assert (Z.of_nat (idx_pool_ c) < 2 ^ 31)%Z as Hidx.
    { apply lookup_lt_Some in Hq. rewrite (wf_slots _ Hwf) in Hq.
      unfold int_indexable in Hint. lia. }
    rewrite size_t_of_int_of_size_t by done.
    by apply (consistent_slot_update w (idx_pool_ c) l c (Connection_mark_as_free c)
                _ Hcon Hq Hc).
Qed.

Lemma consistent_zombie_control w :
  pool_consistent w →
  ∃ w', zombie_control zombie_probe w = Some ((), w') ∧ pool_consistent w' ∧
        pool_max_size_ (this w') = pool_max_size_ (this w) ∧
        length (heap w') = length (heap w).
Proof.
  intros Hcon. unfold zombie_control. rewrite (bind_run _ _ _ (this w) w) by done.
  apply (for_range_inv
    (λ _ wj, pool_consistent wj ∧ pool_max_size_ (this wj) = pool_max_size_ (this w) ∧
             length (heap wj) = length (heap w))); [lia | done |].
  intros j wj Hj (Hconj & Hmax & Hlen). pose proof Hconj as (Hwfj & _).
  destruct (lookup_lt_is_Some_2 (bs_used_ (this wj)) j) as [b Hb];
    [rewrite (wf_used _ Hwfj); lia|].
  destruct (slot_live wj j Hwfj ltac:(lia)) as (l & c & Hq & Hc).
  rewrite (zombie_control_slot_run wj j b l c Hb Hq Hc).
  eexists. split; [done|].
  destruct (b && Connection_is_zombie zombie_probe c); [|done]. simpl.
  split; [|split; [by destruct (this wj) | by rewrite length_insert]].
  by apply (consistent_slot_update wj j l c (Connection_mark_as_free c) _ Hconj Hq Hc).
Qed.

Lemma consistent_resize_pool w nm ep :
  pool_consistent w →
  ∃ w', resize_pool disconnected nm ep w = Some ((), w') ∧ pool_consistent w' ∧
        pool_max_size_ (this w') = nm.
Proof.
  intros Hcon. pose proof Hcon as (Hwf & Htag & Hhome & Hag).
  destruct (resize_pool_wf w nm ep Hwf) as (w' & Hrun & Hwf' & Hmax).
  exists w'. split; [done|]. split; [|done].
  split; [done|]. split; [by apply (resize_pool_tagged w nm ep)|].
  destruct (Nat.lt_trichotomy nm (pool_max_size_ (this w))) as [Hlt|[Heq|Hgt]].
  - destruct (resize_pool_shrink w nm ep Hwf Hlt) as (h' & Hr & Hlen & Hcells).
    rewrite Hr in Hrun. injection Hrun as <-. split.
    + intros l c' Hc' Hs'. simpl in *.
      destruct (lookup_lt_is_Some_2 (heap w) l) as [c Hc];
        [rewrite <- Hlen; by apply lookup_lt_Some in Hc'|].
      rewrite (Hcells _ _ Hc) in Hc'. injection Hc' as <-.
      destruct (bool_decide (Some l ∈ drop nm (v_connections_ (this w)))) eqn:Hin;
        [done|].
      apply bool_decide_eq_false in Hin.
      pose proof (Hhome _ _ Hc Hs') as Hq.
      apply lookup_take_Some. split; [done|].
      destruct (decide (idx_pool_ c < nm)) as [?|Hge]; [done|].
      exfalso. apply Hin, elem_of_drop_slots. exists (idx_pool_ c). split; [|done].
      apply lookup_lt_Some in Hq. lia.
    + intros i l c' Hq Hc'. simpl in *.
      apply lookup_take_Some in Hq as [Hq Hi].
      destruct (lookup_lt_is_Some_2 (heap w) l) as [c Hc];
        [rewrite <- Hlen; by apply lookup_lt_Some in Hc'|].
      rewrite (Hcells _ _ Hc) in Hc'.
      rewrite bool_decide_eq_false_2 in Hc' by by eapply not_in_dropped_slots.
      injection Hc' as <-. rewrite lookup_take_lt by done. by apply (Hag i l).
  - rewrite Heq, resize_pool_same in Hrun. by injection Hrun as <-.
  - rewrite resize_pool_grow_exact in Hrun by done. injection Hrun as <-. split.
    + intros l c Hc Hs. simpl in *.
      apply lookup_app_Some in Hc as [Hc|[Hl Hc]].
      * rewrite lookup_app_l; [by apply Hhome|].
        pose proof (Hhome _ _ Hc Hs) as Hq. by apply lookup_lt_Some in Hq.
      * rewrite list_lookup_fmap in Hc.
        destruct (seq _ _ !! _) as [k|] eqn:Hseq; [|done]. injection Hc as <-.
        apply lookup_seq in Hseq as [-> Hlt]. simpl.
        rewrite lookup_app_r by (rewrite (wf_slots _ Hwf); lia).
        rewrite list_lookup_fmap, lookup_seq_lt by (rewrite (wf_slots _ Hwf); lia).
        simpl. do 2 f_equal. rewrite (wf_slots _ Hwf). lia.
    + intros i l c Hq Hc. simpl in *.
      apply lookup_app_Some in Hq as [Hq|[Hi Hq]].
      * destruct (wf_live _ Hwf _ _ Hq) as (l' & [= <-] & Hl).
        rewrite lookup_app_l in Hc by done.
        rewrite lookup_app_l
          by (apply lookup_lt_Some in Hq; by rewrite (wf_used _ Hwf), <- (wf_slots _ Hwf)).
        by apply (Hag i l).
      * rewrite list_lookup_fmap in Hq.
        destruct (seq _ _ !! _) as [l'|] eqn:Hseq; [|done]. injection Hq as ->.
        apply lookup_seq in Hseq as [-> Hlt].
        rewrite lookup_app_r in Hc by lia.
        rewrite list_lookup_fmap, lookup_seq_lt in Hc by lia.
        injection Hc as <-. simpl.
        rewrite (wf_slots _ Hwf) in *.
        rewrite lookup_app_r by (rewrite (wf_used _ Hwf); lia).
        apply lookup_replicate_2. rewrite (wf_used _ Hwf). lia.
Qed.

Lemma consistent_retuned ep w w' :
  pool_consistent w → pool_wf w' →
  v_connections_ (this w') = v_connections_ (this w) →
  bs_used_ (this w') = bs_used_ (this w) →
  heap_rel (retuned ep) (heap w) (heap w') →
  pool_consistent w'.
Proof.
  intros (Hwf & Htag & Hhome & Hag) Hwf' Hv Hb Hrel.
  split; [done|]. split; [by apply (heap_retuned_tagged ep w)|].
  destruct Hrel as [Hlen Hrel].
  assert (∀ l c', heap w' !! l = Some c' →
            ∃ c, heap w !! l = Some c ∧ retuned ep c c') as Hback.
  { intros l c' Hc'.
    destruct (lookup_lt_is_Some_2 (heap w) l) as [c Hc];
      [rewrite <- Hlen; by apply lookup_lt_Some in Hc'|].
    destruct (Hrel _ _ Hc) as (c'' & Hc'' & Hret).
    exists c. split; [done|]. congruence. }
  split.
  - intros l c' Hc' Hs'. destruct (Hback _ _ Hc') as (c & Hc & Hi & Hs & _).
    rewrite Hv, Hi. apply Hhome; [done | congruence].
  - intros i l c' Hq Hc'. destruct (Hback _ _ Hc') as (c & Hc & _ & _ & Hbusy & _).
    rewrite Hv in Hq. rewrite Hb, Hbusy. by apply (Hag i l).
Qed.

Lemma consistent_reconfigure w ni nm ep ca dn pw :
  pool_consistent w → ni ≤ nm →
  ∃ w', reconfigure disconnected ldap_bind zombie_probe ni nm ep ca dn pw w = Some ((), w') ∧
        pool_consistent w' ∧ pool_max_size_ (this w') = nm.
Proof.
  intros Hcon Hni. pose proof Hcon as (Hwf & _).
  destruct (reconfigure_retuned w ni nm ep ca dn pw Hwf Hni)
    as (wz & wr & w' & Hz & _ & Hwfz & Hr & Hwfr & Hmax & Hrun & Hwf' & Ht & Hrel & _).
  destruct (consistent_zombie_control
              (mkWorld (heap w) (this w) (events w ++ [log_srv_dbg "Pool::reconfigure()"])))
    as (wz' & Hz' & Hconz & _); [by apply consistent_events|].
  assert (wz' = wz) as -> by congruence.
  destruct (consistent_resize_pool wz nm ep Hconz) as (wr' & Hr' & Hconr & _).
  assert (wr' = wr) as -> by congruence.
  exists w'. split; [done|]. split; [|by rewrite Ht].
  apply (consistent_retuned ep wr); try done; by rewrite Ht.
Qed.

Lemma consistent_Pool_Pool w0 ni nm ep ca dn pw :
  (∀ l c, heap w0 !! l = Some c → snipped_ c = true) →
  ∃ w, Pool_Pool disconnected ldap_bind ni nm ep ca dn pw w0 = Some ((), w) ∧
       pool_consistent w ∧ pool_max_size_ (this w) = nm.
Proof.
  intros Hold.
  destruct (Pool_Pool_run w0 ni nm ep ca dn pw) as (w & Hrun & Hwf & Hmax & Hbits).
  assert (w = constructing disconnected ldap_bind w0 ni nm ep ca dn pw nm) as Hw
    by (rewrite Pool_Pool_exact in Hrun; by injection Hrun).
  exists w. split; [done|]. split; [|done].
  split; [done|]. split; [rewrite Hw; apply constructing_tagged|].
  assert (∀ l c, heap w !! l = Some c → snipped_ c = false →
            ∃ i, i < nm ∧ l = length (heap w0) + i ∧
                 c = constructed disconnected ldap_bind ni ep dn pw i) as Hnew.
  { intros l c Hc Hs. rewrite Hw in Hc. unfold constructing in Hc. cbn [heap] in Hc.
    apply lookup_app_Some in Hc as [Hc|[Hl Hc]].
    - rewrite (Hold _ _ Hc) in Hs. done.
    - rewrite list_lookup_fmap in Hc.
      destruct (seq _ _ !! _) as [i|] eqn:Hseq; [|done]. injection Hc as <-.
      apply lookup_seq in Hseq as [-> Hlt]. exists (l - length (heap w0)).
      split; [done|]. split; [lia | done]. }
  split.
  - intros l c Hc Hs. destruct (Hnew _ _ Hc Hs) as (i & Hi & -> & ->).
    destruct (constructed_cell ni ep dn pw i) as (-> & _).
    rewrite Hw. by apply constructing_slot.
  - intros i l c Hq Hc.
    assert (i < nm) as Hi
      by (apply lookup_lt_Some in Hq; by rewrite (wf_slots _ Hwf), Hmax in Hq).
    rewrite Hbits, lookup_replicate_2 by done.
    rewrite Hw in Hq, Hc.
    destruct (constructing_slot w0 ni nm ep ca dn pw i Hi) as [Hq' Hc'].
    assert (l = length (heap w0) + i) as -> by congruence.
    assert (c = constructed disconnected ldap_bind ni ep dn pw i) as -> by congruence.
    by destruct (constructed_cell ni ep dn pw i) as (_ & _ & -> & _).
Qed.

(** X22: the pool keeps its three records of who has what in step.  In a
    pool that the constructor makes in a store without live handles, and
    after every later [borrow_connection], [return_connection],
    [zombie_control] and [reconfigure] (with the new initial size within
    the new size, and up to 2^31 slots for borrow and return), each call
    completes and leaves a pool in which every slot holds a live handle
    that carries the position of the slot, every handle that is not snipped
    sits in the slot its index names, and the bit of a slot is set exactly
    when its handle is marked busy. *)
Theorem pool_consistent_kept :
  (∀ w0 ni nm ep ca dn pw,
     (∀ l c, heap w0 !! l = Some c → snipped_ c = true) →
     ∃ w, Pool_Pool disconnected ldap_bind ni nm ep ca dn pw w0 = Some ((), w) ∧
          pool_consistent w) ∧
  (∀ w, pool_consistent w →
     (int_indexable w → ∀ dc,
        ∃ r w', borrow_connection ldap_bind dc w = Some (r, w') ∧ pool_consistent w') ∧
     (int_indexable w → ∀ l, l < length (heap w) →
        ∃ w', return_connection (Some l) w = Some ((), w') ∧ pool_consistent w') ∧
     (∃ w', zombie_control zombie_probe w = Some ((), w') ∧ pool_consistent w') ∧
     (∀ ni nm ep ca dn pw, ni ≤ nm →
        ∃ w', reconfigure disconnected ldap_bind zombie_probe ni nm ep ca dn pw w
                = Some ((), w') ∧
              pool_consistent w')).
Proof.
  split.
  - intros w0 ni nm ep ca dn pw Hold.
    destruct (consistent_Pool_Pool w0 ni nm ep ca dn pw Hold) as (w & Hrun & Hcon & _).
    by exists w.
  - intros w Hcon. split; [|split; [|split]].
    + intros Hint dc.
      destruct (consistent_borrow_connection w dc Hcon Hint) as (r & w' & Hrun & Hcon' & _).
      by exists r, w'.
    + intros Hint l Hl.
      destruct (consistent_return_connection w l Hcon Hint Hl) as (w' & Hrun & Hcon' & _).
      by exists w'.
    + destruct (consistent_zombie_control w Hcon) as (w' & Hrun & Hcon' & _). by exists w'.
    + intros ni nm ep ca dn pw Hni.
      destruct (consistent_reconfigure w ni nm ep ca dn pw Hcon Hni)
        as (w' & Hrun & Hcon' & _).
      by exists w'.
Qed.

(** ** What the debug line reports *)

Lemma bitset_count_slots (bs : list bool) (v : list (option nat)) (f : option nat → bool) :
  length bs = length v →
  (∀ i q, v !! i = Some q → bs !! i = Some (f q)) →
  bitset_count bs = length (filter (λ q, f q = true) v).
Proof.
  revert v. induction bs as [|b bs IH]; intros [|q v] Hlen Hall; try done.
  rewrite bitset_count_cons.
  pose proof (Hall 0 q eq_refl) as Hb. injection Hb as ->.
  rewrite (IH v); [|by injection Hlen | intros i q' Hq'; by apply (Hall (S i))].
  destruct (f q) eqn:Hf.
  - by rewrite filter_cons_True.
  - by rewrite filter_cons_False by (by rewrite Hf).
Qed.

(** X23: in a pool whose bitmap, slots and handles are in step,
    [debug_info] reports as [conn_in_use] the number of slots whose handle
    is marked busy, together with the stored initial size and size; it
    writes one debug line and changes nothing else. *)
Theorem debug_info_counts_busy w :
  pool_consistent w →
  bitset_count (bs_used_ (this w)) = busy_handles w ∧
  debug_info w =
    Some ((), mkWorld (heap w) (this w)
                (events w ++
                 [log_srv_dbg (debug_text (pool_initial_size_ (this w))
                                 (pool_max_size_ (this w)) (busy_handles w))])).
Proof.
  intros (Hwf & _ & _ & Hag).
  assert (bitset_count (bs_used_ (this w)) = busy_handles w) as Hcount.
  { apply bitset_count_slots; [by rewrite (wf_used _ Hwf), (wf_slots _ Hwf)|].
    intros i q Hq. destruct (wf_live _ Hwf _ _ Hq) as (l & -> & Hl).
    destruct (lookup_lt_is_Some_2 _ _ Hl) as [c Hc].
    rewrite (Hag _ _ _ Hq Hc). simpl. by rewrite Hc. }
  split; [done|]. unfold debug_info.
  rewrite (bind_run _ _ _ (this w) w) by done. by rewrite Hcount.
Qed.

End pool_properties.


(** * The small pools at work *)

Lemma ex_world_wf : pool_wf ex_world.
Proof. apply pool_wfb_sound. vm_compute. reflexivity. Qed.

Lemma ex_world2_wf : pool_wf ex_world2.
Proof. apply pool_wfb_sound. vm_compute. reflexivity. Qed.

Lemma ex_world_int : int_indexable ex_world.
Proof. unfold int_indexable. simpl. lia. Qed.

Lemma ex_world_lowest_free : lowest_free (bs_used_ (this ex_world)) 1.
Proof. split; [reflexivity|]. intros [|j] Hj; [reflexivity | lia]. Qed.

Lemma borrow_connection_first_free_witness :
  find_first_free ex_world = Some (1%Z, ex_world).
Proof.
  exact (proj1 (proj1 (borrow_connection_first_free bind_succeeds ex_world true
                         ex_world_wf ex_world_int) 1 ex_world_lowest_free)).
Defined.

Lemma borrow_connection_connect_failure_witness :
  mark_as_busy 1 ex_world = Some ((), marked_busy ex_world 1) ∧
  bs_used_ (this (marked_busy ex_world 1)) = [true; true; true] ∧
  (∃ r wc, get_connection bind_fails 1 true (marked_busy ex_world 1) = Some (r, wc) ∧
           bs_used_ (this wc) !! 1 = Some true) ∧
  ∃ w', borrow_connection bind_fails true ex_world = Some (None, w') ∧
        bs_used_ (this w') = [true; false; true] ∧
        find_first_free w' = Some (1%Z, w').
Proof.
  destruct (borrow_connection_connect_failure bind_fails ex_world 1 1
              (ex_conn 1 false false)
              ex_world_wf ex_world_int ex_world_lowest_free eq_refl eq_refl)
    as (_ & Hmark & _ & Hbits & _ & _ & (r & wc & evs & Hget & _ & Hbit & _) & _ & Hfail).
  split; [exact Hmark|]. split; [exact Hbits|]. split.
  - exists r, wc. split; [exact Hget | exact Hbit].
  - destruct (Hfail (ex_conn 1 false false) eq_refl)
      as (w' & Hrun & _ & _ & Hbs & _ & Hnext).
    exists w'. split; [exact Hrun|]. split; [exact Hbs | exact Hnext].
Defined.

Lemma sizes_agree_witness :
  ∃ w', run_ops bind_succeeds [op_borrow true; op_return 0; op_borrow false] ex_world
          = Some ((), w') ∧
        sized (this w') ∧
        0 ≤ bitset_count (bs_used_ (this w')) ≤ 3.
Proof.
  destruct (proj2 (proj2 (proj2 (sizes_agree () bind_succeeds probe_alive)))
              ex_world [op_borrow true; op_return 0; op_borrow false]
              ex_world_wf ex_world_int)
    as (w' & Hrun & Hsz & Hmax & Hcount).
  - repeat constructor.
  - exists w'. split; [exact Hrun|]. split; [exact Hsz|].
    rewrite Hmax in Hcount. exact Hcount.
Defined.

(** C4, as worded: the low bits of the bitmap survive a shrink.  With the
    first of two slots lent to a dead connection, [reconfigure] to one slot
    leaves the bit of slot 0 cleared: the sweep that opens [reconfigure]
    reclaimed it. *)
Lemma reconfigure_shrink_sweeps_first :
  ∃ w', reconfigure () bind_succeeds probe_dead 0 1 ex_endpoint "/etc/ca" "cn=admin" "secret"
          ex_world2 = Some ((), w') ∧
        pool_wf ex_world2 ∧
        bs_used_ (this ex_world2) = [true; false] ∧
        bs_used_ (this w') = [false] ∧
        bs_used_ (this w') ≠ take 1 (bs_used_ (this ex_world2)).
Proof.
  eexists. split; [vm_compute; reflexivity|]. simpl.
  split; [apply ex_world2_wf|]. split; [reflexivity|]. split; [reflexivity|]. discriminate.
Qed.

Lemma reconfigure_shrink_witness :
  ∃ w', reconfigure () bind_succeeds probe_alive 1 2 ex_endpoint "/etc/ca" "cn=admin" "secret"
          ex_world = Some ((), w') ∧
        bs_used_ (this w') !! 0 = Some true ∧
        v_connections_ (this w') = [Some 0; Some 1] ∧
        ∃ c', heap w' !! 2 = Some c' ∧ idx_pool_ c' = 2 ∧ snipped_ c' = true.
Proof.
  destruct (reconfigure_shrink () bind_succeeds probe_alive ex_world 1 2 ex_endpoint
              "/etc/ca" "cn=admin" "secret" ex_world_wf)
    as (w' & Hrun & _ & _ & Hbits & Hv & _ & Hcells & _).
  - simpl. lia.
  - lia.
  - exists w'. split; [exact Hrun|]. split; [|split; [exact Hv|]].
    + apply (Hbits 0 true); [lia | reflexivity].
    + destruct (Hcells 2 (ex_conn 2 true false) eq_refl) as (c' & Hc' & Hidx & Hsn).
      exists c'. split; [exact Hc'|]. split; [exact Hidx | exact Hsn].
Defined.

Lemma mark_as_free_ignores_out_of_range_witness :
  mark_as_free 3 ex_world = Some ((), ex_world) ∧
  ∃ w', return_connection (Some 1) ex_world_snipped = Some ((), w') ∧
        bs_used_ (this w') = [false].
Proof.
  split.
  - apply (proj1 (mark_as_free_ignores_out_of_range ex_world)). simpl. lia.
  - destruct (proj2 (proj2 (mark_as_free_ignores_out_of_range ex_world_snipped))
                1 (ex_conn 1 true true) eq_refl) as (w' & Hrun & _ & Hbs).
    exists w'. split; [exact Hrun|]. apply Hbs; simpl; lia.
Defined.

Lemma return_connection_snipped_witness :
  ∃ w', return_connection (Some 1) ex_world_snipped = Some ((), w') ∧
        this w' = this ex_world_snipped ∧
        heap w' = [ex_conn 0 false false; ex_conn 1 false true] ∧
        events w' = [ev_reset (Some 1)].
Proof.
  destruct (return_connection_snipped ex_world_snipped 1 (ex_conn 1 true true)
              eq_refl eq_refl) as (w' & evs & Hrun & Hheap & Hthis & Hev & -> & _).
  exists w'. split; [exact Hrun|]. split; [exact Hthis|]. split; [exact Hheap | exact Hev].
Defined.

(** C7, as worded: an entry is split on its first [=] into group and role.
    On the entry [a=b=c] the code stores the role [b], the text up to the
    second [=], and not [b=c]. *)
Lemma reset_group_role_mapping_second_eq :
  ∃ w', reset_group_role_mapping "a=b=c" ex_world = Some ((), w') ∧
        group_role_mapping_ (this w') !! "a" = Some "b" ∧
        mapping_first_eq "a=b=c" !! "a" = Some "b=c" ∧
        group_role_mapping_ (this w') ≠ mapping_first_eq "a=b=c".
Proof.
  eexists. split; [reflexivity|]. simpl.
  split; [vm_compute; reflexivity|]. split; [vm_compute; reflexivity|].
  intros H. apply (f_equal (λ m : gmap string string, m !! "a")) in H.
  vm_compute in H. discriminate.
Qed.

Lemma reset_group_role_mapping_fields_witness :
  mapping_fields "a=1,b=2,c" = mapping_first_eq "a=1,b=2,c".
Proof.
  apply (proj1 (proj2 (reset_group_role_mapping_fields ex_world "a=1,b=2,c"))).
  repeat constructor; intros g r [= <- <-]; reflexivity.
Defined.

Lemma zombie_control_reclaims_witness :
  ∃ w', zombie_control probe_dead ex_world = Some ((), w') ∧
        bs_used_ (this w') !! 0 = Some false ∧
        bs_used_ (this w') !! 1 = Some false ∧
        heap w' !! 2 = Some (ex_conn 2 false false).
Proof.
  destruct (zombie_control_reclaims probe_dead ex_world ex_world_wf)
    as (w' & Hrun & _ & _ & Hbits & _ & Hcells & _).
  exists w'. split; [exact Hrun|]. split; [|split].
  - apply (Hbits 0 true). reflexivity.
  - apply (Hbits 1 false). reflexivity.
  - apply (Hcells 2 2 (ex_conn 2 true false)); reflexivity.
Defined.

Lemma return_connection_sweep_witness :
  ∃ w' evs, return_connection (Some 9) ex_world10 = Some ((), w') ∧
            events w' = events ex_world10 ++ evs ∧
            bitset_count (bs_used_ (this w')) = 9 ∧
            ceil_nine_tenths 10 = 9 ∧
            ev_thread_zombie_control ∈ evs.
Proof.
  destruct (return_connection_sweep ex_world10 9 (ex_conn 9 true false) eq_refl eq_refl)
    as (w' & evs & Hrun & Hbs & Hmax & Hev & _ & Hexact & _).
  exists w', evs. split; [exact Hrun|]. split; [exact Hev|].
  assert (bitset_count (bs_used_ (this w')) = 9) as Hcount
    by (rewrite Hbs; vm_compute; reflexivity).
  split; [exact Hcount|]. split; [reflexivity|].
  apply Hexact; [reflexivity | unfold size_bound; simpl; lia |].
  rewrite Hcount, Hmax. vm_compute. lia.
Defined.

(** ** More of the small pools *)

Lemma ex_world10_wf : pool_wf ex_world10.
Proof. apply pool_wfb_sound. vm_compute. reflexivity. Qed.

Lemma ex_world10_int : int_indexable ex_world10.
Proof. unfold int_indexable. simpl. lia. Qed.

Lemma ex_world_tagged : slots_tagged ex_world.
Proof.
  intros [|[|[|i]]] l c Hq Hc; simpl in Hq; try done;
    injection Hq as <-; simpl in Hc; injection Hc as <-; done.
Qed.

Lemma ex_world_homed : handles_homed ex_world.
Proof.
  intros [|[|[|l]]] c Hc Hs; simpl in Hc; try done; injection Hc as <-; done.
Qed.

Lemma ex_world_agree : bits_agree ex_world.
Proof.
  intros [|[|[|i]]] l c Hq Hc; simpl in Hq; try done;
    injection Hq as <-; simpl in Hc; injection Hc as <-; done.
Qed.

Lemma ex_world_consistent : pool_consistent ex_world.
Proof.
  split; [apply ex_world_wf|]. split; [apply ex_world_tagged|].
  split; [apply ex_world_homed | apply ex_world_agree].
Qed.

Lemma ex_world_alive i : reclaimed probe_alive ex_world i = false.
Proof. destruct i as [|[|[|i]]]; reflexivity. Qed.

Lemma ex_world_borrow :
  borrow_connection bind_succeeds true ex_world = Some (Some 1, ex_world_lent).
Proof. vm_compute. reflexivity. Qed.

Lemma ex_world_return :
  return_connection (Some 0) ex_world = Some ((), ex_world_returned).
Proof. vm_compute. reflexivity. Qed.

Lemma reset_group_role_mapping_append_witness :
  ∃ w1 w2,
    reset_group_role_mapping "a=1,b=9" ex_world = Some ((), w1) ∧
    reset_group_role_mapping "a=1,b=9,b=2" ex_world = Some ((), w2) ∧
    group_role_mapping_ (this w2) = <["b" := "2"]> (group_role_mapping_ (this w1)) ∧
    group_role_mapping_ (this w2) !! "b" = Some "2".
Proof.
  destruct (reset_group_role_mapping_append ex_world "a=1,b=9" "b" "2" eq_refl eq_refl)
    as (w1 & w2 & H1 & H2 & H3 & H4 & _).
  exists w1, w2. split; [exact H1|]. split; [exact H2|]. split; [exact H3 | exact H4].
Defined.

Lemma reset_group_role_mapping_round_trip_witness :
  ∃ w', reset_group_role_mapping "a=1,b=2" ex_world = Some ((), w') ∧
        group_role_mapping_ (this w') = list_to_map [("b", "2"); ("a", "1")].
Proof.
  destruct (reset_group_role_mapping_round_trip ex_world [("a", "1"); ("b", "2")])
    as (w' & Hrun & Hmap & _).
  - discriminate.
  - reflexivity.
  - exists w'. split; [exact Hrun | exact Hmap].
Defined.

Lemma borrow_connection_lends_witness :
  ∃ i, lowest_free (bs_used_ (this ex_world)) i ∧
       v_connections_ (this ex_world) !! i = Some (Some 1) ∧
       bitset_count (bs_used_ (this ex_world_lent)) =
         S (bitset_count (bs_used_ (this ex_world))).
Proof.
  destruct (borrow_connection_lends bind_succeeds ex_world true 1 ex_world_lent
              ex_world_wf ex_world_int ex_world_borrow)
    as (i & c & c' & Hfree & Hq & _ & Hcount & _).
  exists i. split; [exact Hfree|]. split; [exact Hq | exact Hcount].
Defined.

Lemma borrow_return_round_trip_witness :
  ∃ w2, return_connection (Some 1) ex_world_lent = Some ((), w2) ∧
        this w2 = this ex_world.
Proof.
  destruct (borrow_return_round_trip bind_succeeds ex_world true 1 ex_world_lent
              ex_world_wf ex_world_int ex_world_tagged ex_world_borrow)
    as (w2 & c2 & Hrun & Hthis & _).
  exists w2. split; [exact Hrun | exact Hthis].
Defined.

Lemma borrow_connection_tagged_witness :
  ∃ c', heap ex_world_lent !! 1 = Some c' ∧ snipped_ c' = false ∧
        v_connections_ (this ex_world_lent) !! idx_pool_ c' = Some (Some 1).
Proof.
  destruct (borrow_connection_tagged bind_succeeds ex_world true 1 ex_world_lent
              ex_world_wf ex_world_int ex_world_tagged ex_world_borrow)
    as (c' & Hc' & Hs & Hq & _).
  exists c'. split; [exact Hc'|]. split; [exact Hs | exact Hq].
Defined.

Lemma return_connection_twice_witness :
  ∃ w2, return_connection (Some 0) ex_world_returned = Some ((), w2) ∧
        this w2 = this ex_world_returned ∧ heap w2 = heap ex_world_returned.
Proof.
  exact (return_connection_twice ex_world 0 ex_world_returned ex_world_return).
Defined.

Lemma ex_world_returned_wf : pool_wf ex_world_returned.
Proof. apply pool_wfb_sound. vm_compute. reflexivity. Qed.

Lemma ex_world_returned_int : int_indexable ex_world_returned.
Proof. unfold int_indexable. simpl. lia. Qed.

Lemma borrow_many_in_order_witness :
  ∃ w', borrow_many bind_succeeds true 2 ex_world_returned = Some ([Some 0; Some 1], w') ∧
        bitset_count (bs_used_ (this w')) = 3.
Proof.
  destruct (borrow_many_in_order bind_succeeds ex_world_returned true 2
              ex_world_returned_wf ex_world_returned_int (λ _ _ _ _, eq_refl) (le_n 2))
    as (w' & evs & Hrun & _ & _ & _ & _ & Hcount & _).
  exists w'. split; [exact Hrun | exact Hcount].
Defined.

Lemma Pool_Pool_borrow_all_witness :
  ∃ w w1 w2,
    Pool_Pool () bind_succeeds 1 2 ex_endpoint "/etc/ca" "cn=admin" "secret" ex_world0
      = Some ((), w) ∧
    borrow_many bind_succeeds true 2 w = Some ([Some 0; Some 1], w1) ∧
    borrow_connection bind_succeeds true w1 = Some (None, w2).
Proof.
  destruct (Pool_Pool_borrow_all () bind_succeeds ex_world0 1 2 ex_endpoint
              "/etc/ca" "cn=admin" "secret" true)
    as (w & w1 & w2 & Hrun & Hmany & _ & Hnone & _).
  - simpl. lia.
  - intros _ c dn pw. reflexivity.
  - exists w, w1, w2. split; [exact Hrun|]. split; [exact Hmany | exact Hnone].
Defined.

Lemma slots_tagged_kept_witness :
  ∃ w', zombie_control probe_dead ex_world = Some ((), w') ∧ slots_tagged w'.
Proof.
  destruct (zombie_control_run probe_dead ex_world ex_world_wf) as (w' & Hrun & _).
  exists w'. split; [exact Hrun|].
  exact (proj1 (proj2 (proj2 (proj2 (slots_tagged_kept () bind_succeeds probe_dead)
                                 ex_world ex_world_tagged))) w' Hrun).
Defined.

Lemma reconfigure_settings_witness :
  ∃ w', reconfigure () bind_succeeds probe_alive 1 2 ex_endpoint "/etc/ca2" "cn=root" "pw"
          ex_world = Some ((), w') ∧
        pool_max_size_ (this w') = 2 ∧ ca_path_ (this w') = "/etc/ca2" ∧
        bind_dn_ (this w') = "cn=root".
Proof.
  destruct (reconfigure_settings () bind_succeeds probe_alive ex_world 1 2 ex_endpoint
              "/etc/ca2" "cn=root" "pw" ex_world_wf)
    as (w' & Hrun & _ & _ & Hmax & _ & Hca & Hdn & _).
  - lia.
  - exists w'. split; [exact Hrun|]. split; [exact Hmax|]. split; [exact Hca | exact Hdn].
Defined.

Lemma reconfigure_grow_witness :
  ∃ w', reconfigure () bind_succeeds probe_alive 1 5 ex_endpoint "/etc/ca" "cn=admin" "secret"
          ex_world = Some ((), w') ∧
        v_connections_ (this w') = [Some 0; Some 1; Some 2; Some 3; Some 4] ∧
        bs_used_ (this w') !! 4 = Some false.
Proof.
  destruct (reconfigure_grow () bind_succeeds probe_alive ex_world 1 5 ex_endpoint
              "/etc/ca" "cn=admin" "secret" ex_world_wf)
    as (w' & Hrun & _ & _ & Hv & _ & _ & _ & Hnew).
  - simpl. lia.
  - lia.
  - exists w'. split; [exact Hrun|]. split; [exact Hv|].
    apply (Hnew 4). simpl. lia.
Defined.

Lemma reconfigure_shrink_then_return_witness :
  ∃ w' w'',
    reconfigure () bind_succeeds probe_alive 1 2 ex_endpoint "/etc/ca" "cn=admin" "secret"
      ex_world = Some ((), w') ∧
    return_connection (Some 2) w' = Some ((), w'') ∧
    this w'' = this w'.
Proof.
  destruct (reconfigure_shrink_then_return () bind_succeeds probe_alive ex_world 1 2
              ex_endpoint "/etc/ca" "cn=admin" "secret" 2 2 ex_world_wf)
    as (w' & w'' & c' & Hrun & _ & _ & _ & Hret & Hthis & _).
  - simpl. lia.
  - lia.
  - lia.
  - reflexivity.
  - exists w', w''. split; [exact Hrun|]. split; [exact Hret | exact Hthis].
Defined.

Lemma zombie_control_nothing_to_reclaim_witness :
  zombie_control probe_alive ex_world = Some ((), ex_world).
Proof.
  exact (zombie_control_nothing_to_reclaim probe_alive ex_world ex_world_wf ex_world_alive).
Defined.

Lemma zombie_control_only_clears_witness :
  ∃ w', zombie_control probe_dead ex_world = Some ((), w') ∧
        bitset_count (bs_used_ (this w')) ≤ 2.
Proof.
  destruct (zombie_control_only_clears probe_dead ex_world ex_world_wf)
    as (w' & evs & Hrun & _ & Hcount & _).
  exists w'. split; [exact Hrun | exact Hcount].
Defined.

Lemma connects_only_on_request_witness :
  ∃ evs, events ex_world_returned = events ex_world ++ evs ∧
         Forall (λ e, is_connect e = false) evs.
Proof.
  exact (proj1 (connects_only_on_request bind_succeeds probe_alive ex_world)
           (Some 0) ex_world_returned ex_world_return).
Defined.

Lemma sweeps_started_by_callers_only_witness :
  ∃ w' evs, zombie_control probe_dead ex_world = Some ((), w') ∧
            events w' = events ex_world ++ evs ∧
            Forall (λ e, is_spawn e = false) evs.
Proof.
  destruct (zombie_control_run probe_dead ex_world ex_world_wf) as (w' & Hrun & _).
  destruct (proj1 (proj2 (sweeps_started_by_callers_only () bind_succeeds probe_dead
                            ex_world)) w' Hrun) as (evs & Hev & Hall).
  exists w', evs. split; [exact Hrun|]. split; [exact Hev | exact Hall].
Defined.

Lemma borrow_connection_sweep_witness :
  ∃ w' evs, borrow_connection bind_succeeds true ex_world10 = Some (None, w') ∧
            events w' = events ex_world10 ++ evs ∧
            ev_thread_zombie_control ∈ evs.
Proof.
  destruct (borrow_connection_sweep bind_succeeds ex_world10 true ex_world10_wf
              ex_world10_int) as (r & w' & evs & Hrun & Hev & Hiff & Hfull).
  destruct (Hfull eq_refl) as (-> & _).
  exists w', evs. split; [exact Hrun|]. split; [exact Hev|].
  apply Hiff. reflexivity.
Defined.

Lemma reconfigure_connects_twice_witness :
  ∃ w' evs locs,
    reconfigure () bind_succeeds probe_alive 2 3 ex_endpoint "/etc/ca" "cn=admin" "secret"
      ex_world = Some ((), w') ∧
    events w' = events ex_world ++ evs ∧
    length locs = 2 ∧ connect_locs evs = locs ++ locs.
Proof.
  destruct (reconfigure_connects_twice () bind_succeeds probe_alive ex_world 2 3 ex_endpoint
              "/etc/ca" "cn=admin" "secret" ex_world_wf)
    as (w' & evs & locs & Hrun & Hev & _ & Hlen & Hlocs).
  - lia.
  - exists w', evs, locs. split; [exact Hrun|]. split; [exact Hev|].
    split; [exact Hlen | exact Hlocs].
Defined.

Lemma pool_consistent_kept_witness :
  ∃ r w', borrow_connection bind_succeeds true ex_world = Some (r, w') ∧
          pool_consistent w'.
Proof.
  exact (proj1 (proj2 (pool_consistent_kept () bind_succeeds probe_alive)
                  ex_world ex_world_consistent) ex_world_int true).
Defined.

Lemma debug_info_counts_busy_witness :
  debug_info ex_world =
    Some ((), mkWorld (heap ex_world) (this ex_world)
                [log_srv_dbg "conn_init [1] conn_max [3] conn_in_use [2]"]).
Proof. exact (proj2 (debug_info_counts_busy ex_world ex_world_consistent)). Defined.
